(** * Chat-With-Your-Snaps: content identity, deduplication registry,
      dual vector store and embedding normalisation

    A shallow embedding of
    - [app/utils/hashing.py]        ([compute_image_id], [is_valid_image_id]),
    - [app/services/dedup.py]       ([DeduplicationService]),
    - [app/services/faiss_store.py] ([FAISSStore]),
    - [app/services/embedder.py]    ([normalize_vector]),
    followed by the properties that the design document states about them.

    Conventions.  Python [bytes] are [list byte]; Python [str] is [string]
    (each character a code point below 256); a Python [dict] that is only
    looked up is a [gmap], a [set] a [gset]; a [dict] or JSON object that is
    iterated is an association list in insertion order.  Similarity scores
    are exact rationals ([Q]); the norm of [normalize_vector] needs a square
    root and is stated over the real numbers.  The rounding of the
    [float32] arithmetic of the code is not modelled. *)

From Stdlib Require Import ZArith QArith Reals Lra List Sorted Permutation Ascii String Lia Bool.
From Stdlib.Strings Require Import Byte.
From stdpp Require Import base option list strings gmap sorting.

Local Open Scope Z_scope.

(** ** Python outcomes *)

(** The exceptions that leave a function of the embedded code; those that
    a [try] of the code catches show as the value returned by its handler. *)
Inductive exn : Set :=
| ValueError
| AttributeError.

(** A call either returns a value or raises. *)
Inductive outcome (A : Type) : Type :=
| Return (a : A)
| Raise (e : exn).
Arguments Return {A} a.
Arguments Raise {A} e.

(** * [hashlib.sha256] *)

Module Sha256.

Definition mask32 : Z := 0xFFFFFFFF.
Definition w32 (x : Z) : Z := Z.land x mask32.
Definition add32 (a b : Z) : Z := w32 (a + b).
Definition not32 (x : Z) : Z := Z.lxor (w32 x) mask32.
Definition rotr (n x : Z) : Z :=
  Z.lor (Z.shiftr (w32 x) n) (w32 (Z.shiftl (w32 x) (32 - n))).
Definition shr (n x : Z) : Z := Z.shiftr (w32 x) n.

Definition Ch (x y z : Z) : Z := Z.lxor (Z.land x y) (Z.land (not32 x) z).
Definition Maj (x y z : Z) : Z :=
  Z.lxor (Z.lxor (Z.land x y) (Z.land x z)) (Z.land y z).
Definition Sigma0 (x : Z) : Z := Z.lxor (Z.lxor (rotr 2 x) (rotr 13 x)) (rotr 22 x).
Definition Sigma1 (x : Z) : Z := Z.lxor (Z.lxor (rotr 6 x) (rotr 11 x)) (rotr 25 x).
Definition sigma0 (x : Z) : Z := Z.lxor (Z.lxor (rotr 7 x) (rotr 18 x)) (shr 3 x).
Definition sigma1 (x : Z) : Z := Z.lxor (Z.lxor (rotr 17 x) (rotr 19 x)) (shr 10 x).

(** The round constants and the initial hash value come from the primes:
    the first 32 bits of the fractional parts of the cube roots of the
    first 64 primes, and of the square roots of the first 8. *)
Definition is_prime (n : Z) : bool :=
  forallb (fun k => negb (n mod k =? 0)) (map Z.of_nat (seq 2 (Z.to_nat n - 2))).

Definition primes_upto (bound : nat) : list Z :=
  List.filter is_prime (map Z.of_nat (seq 2 (bound - 1))).

(** Integer cube root, one bit after the other from the top. *)
Definition icbrt (n : Z) : Z :=
  fold_left (fun r b => let c := r + 2 ^ b in if c * c * c <=? n then c else r)
            (map Z.of_nat (rev (seq 0 36))) 0.

Definition frac32_cbrt (p : Z) : Z := w32 (icbrt (p * 2 ^ 96)).
Definition frac32_sqrt (p : Z) : Z := w32 (Z.sqrt (p * 2 ^ 64)).

Definition K : list Z := Eval vm_compute in map frac32_cbrt (primes_upto 311).

(** The eight working variables / chaining values. *)
Record regs : Set := Regs { ra : Z; rb : Z; rc : Z; rd : Z; re : Z; rf : Z; rg : Z; rh : Z }.

Definition initial_words : list Z := Eval vm_compute in map frac32_sqrt (primes_upto 19).

Definition H0 : regs :=
  Regs (nth 0 initial_words 0) (nth 1 initial_words 0) (nth 2 initial_words 0)
       (nth 3 initial_words 0) (nth 4 initial_words 0) (nth 5 initial_words 0)
       (nth 6 initial_words 0) (nth 7 initial_words 0).

(** Big-endian packing of the 64 bytes of a block into 16 words. *)
Fixpoint words_of_bytes (l : list Z) : list Z :=
  match l with
  | b0 :: b1 :: b2 :: b3 :: l' =>
      (Z.shiftl b0 24 + Z.shiftl b1 16 + Z.shiftl b2 8 + b3) :: words_of_bytes l'
  | _ => []
  end.

(** Message schedule.  [w] holds the words computed so far, latest first. *)
Fixpoint expand (n : nat) (w : list Z) : list Z :=
  match n with
  | O => w
  | S n' =>
      let x := add32 (add32 (sigma1 (nth 1 w 0)) (nth 6 w 0))
                     (add32 (sigma0 (nth 14 w 0)) (nth 15 w 0)) in
      expand n' (x :: w)
  end.

Definition schedule (block : list Z) : list Z :=
  rev (expand 48 (rev (words_of_bytes block))).

Definition round (s : regs) (kw : Z * Z) : regs :=
  let '(k, w) := kw in
  let t1 := add32 (add32 (add32 (rh s) (Sigma1 (re s))) (add32 (Ch (re s) (rf s) (rg s)) k)) w in
  let t2 := add32 (Sigma0 (ra s)) (Maj (ra s) (rb s) (rc s)) in
  Regs (add32 t1 t2) (ra s) (rb s) (rc s) (add32 (rd s) t1) (re s) (rf s) (rg s).

Definition compress (h : regs) (block : list Z) : regs :=
  let s := fold_left round (combine K (schedule block)) h in
  Regs (add32 (ra h) (ra s)) (add32 (rb h) (rb s)) (add32 (rc h) (rc s))
       (add32 (rd h) (rd s)) (add32 (re h) (re s)) (add32 (rf h) (rf s))
       (add32 (rg h) (rg s)) (add32 (rh h) (rh s)).

(** Padding: a [0x80] byte, zeros up to 56 modulo 64, the bit length on
    eight bytes. *)
Definition be_bytes (n : nat) (x : Z) : list Z :=
  map (fun i => Z.land (Z.shiftr x (8 * Z.of_nat i)) 0xFF) (rev (seq 0 n)).

Definition pad (msg : list Z) : list Z :=
  let len := Z.of_nat (length msg) in
  let zeros := Z.to_nat ((55 - len) mod 64) in
  msg ++ 0x80 :: repeat 0 zeros ++ be_bytes 8 (8 * len).

(** Streaming over the padded message, one block of 64 bytes at a time.
    [buf] is the current partial block, latest byte first. *)
Fixpoint absorb (h : regs) (buf : list Z) (n : nat) (l : list Z) : regs :=
  match l with
  | [] => h
  | b :: l' =>
      match n with
      | O => absorb (compress h (rev (b :: buf))) [] 63 l'
      | S n' => absorb h (b :: buf) n' l'
      end
  end.

Definition sha256 (msg : list byte) : regs :=
  absorb H0 [] 63 (pad (map (fun b => Z.of_N (Byte.to_N b)) msg)).

(** [hexdigest]: each word on eight lowercase hexadecimal digits. *)
Definition hex_digit (n : Z) : ascii :=
  match n with
  | 0 => "0" | 1 => "1" | 2 => "2" | 3 => "3" | 4 => "4" | 5 => "5" | 6 => "6" | 7 => "7"
  | 8 => "8" | 9 => "9" | 10 => "a" | 11 => "b" | 12 => "c" | 13 => "d" | 14 => "e"
  | _ => "f"
  end%char.

Definition hex_word (x : Z) : list ascii :=
  map (fun i => hex_digit (Z.land (Z.shiftr x (4 * Z.of_nat i)) 0xF)) (rev (seq 0 8)).

Definition hexdigest (h : regs) : string :=
  string_of_list_ascii
    (hex_word (ra h) ++ hex_word (rb h) ++ hex_word (rc h) ++ hex_word (rd h) ++
     hex_word (re h) ++ hex_word (rf h) ++ hex_word (rg h) ++ hex_word (rh h)).

(** The digest has 256 bits: eight words below [2^32]. *)
Definition word_ok (x : Z) : Prop := 0 <= x < 2 ^ 32.

Definition regs_ok (h : regs) : Prop :=
  word_ok (ra h) /\ word_ok (rb h) /\ word_ok (rc h) /\ word_ok (rd h) /\
  word_ok (re h) /\ word_ok (rf h) /\ word_ok (rg h) /\ word_ok (rh h).

End Sha256.

(** A byte string written as text. *)
Definition bytes_of_string (s : string) : list byte :=
  map byte_of_ascii (list_ascii_of_string s).

(** * [app/utils/hashing.py] *)

Module Hashing.

(** [compute_image_id]: raises [ValueError] on empty input, otherwise the
    SHA-256 digest in hexadecimal. *)
Definition compute_image_id (image_bytes : list byte) : outcome string :=
  match image_bytes with
  | [] => Raise ValueError
  | _ => Return (Sha256.hexdigest (Sha256.sha256 image_bytes))
  end.

(** *** The built-in [int(s, base)]

    CPython's conversion of a [str]: code points that are Unicode white
    space become a blank, then the text is
    [ws* sign? prefix? digits ws*], where the digits may be separated by
    single underscores, and the prefix [0x]/[0X] (optionally followed by
    one underscore) is recognised in base 16 only. *)

Definition code (c : ascii) : Z := Z.of_N (N_of_ascii c).

Definition to_ascii_space (c : ascii) : ascii :=
  if (code c =? 133) || (code c =? 160) then " "%char else c.

(** [Py_ISSPACE]. *)
Definition py_isspace (c : ascii) : bool :=
  ((9 <=? code c) && (code c <=? 13)) || (code c =? 32).

(** [_PyLong_DigitValue]. *)
Definition digit_value (c : ascii) : Z :=
  let n := code c in
  if (48 <=? n) && (n <=? 57) then n - 48
  else if (97 <=? n) && (n <=? 122) then n - 87
  else if (65 <=? n) && (n <=? 90) then n - 55
  else 37.

Definition is_underscore (c : ascii) : bool := code c =? 95.

Fixpoint skip_spaces (l : list ascii) : list ascii :=
  match l with
  | c :: l' => if py_isspace c then skip_spaces l' else l
  | [] => []
  end.

(** The digit loop: accumulated value, number of digits seen, rest of
    the text; [None] on a doubled or trailing underscore. *)
Fixpoint scan_digits (base : Z) (prev_us : bool) (acc : Z) (n : nat)
         (l : list ascii) : option (Z * nat * list ascii) :=
  match l with
  | c :: l' =>
      if is_underscore c then
        if prev_us then None else scan_digits base true acc n l'
      else if digit_value c <? base then
        scan_digits base false (acc * base + digit_value c) (S n) l'
      else if prev_us then None else Some (acc, n, l)
  | [] => if prev_us then None else Some (acc, n, [])
  end.

Definition skip_sign (l : list ascii) : Z * list ascii :=
  match l with
  | c :: l' =>
      if code c =? 43 then (1, l') else if code c =? 45 then (-1, l') else (1, l)
  | [] => (1, [])
  end.

Definition skip_prefix (base : Z) (l : list ascii) : list ascii :=
  match l with
  | c0 :: c1 :: l' =>
      if (base =? 16) && (code c0 =? 48) && ((code c1 =? 120) || (code c1 =? 88)) then
        match l' with
        | c2 :: l'' => if is_underscore c2 then l'' else l'
        | [] => l'
        end
      else l
  | _ => l
  end.

(** [int(s, base)] for base 10 and 16; [None] stands for [ValueError]. *)
Definition py_int (base : Z) (s : string) : option Z :=
  let l := skip_spaces (map to_ascii_space (list_ascii_of_string s)) in
  let '(sign, l) := skip_sign l in
  let l := skip_prefix base l in
  match l with
  | c :: _ => if is_underscore c then None else
      match scan_digits base false 0 0 l with
      | Some (v, n, rest) =>
          match n, skip_spaces rest with
          | S _, [] => Some (sign * v)
          | _, _ => None
          end
      | None => None
      end
  | [] => None
  end.

(** [is_valid_image_id]; the argument is a [str], so the [isinstance]
    test passes. *)
Definition is_valid_image_id (image_id : string) : bool :=
  if negb (String.length image_id =? 64)%nat then false
  else match py_int 16 image_id with
       | Some _ => true
       | None => false
       end.

(** What the design calls "64-char hex shape". *)
Definition is_hex_digit (c : ascii) : bool :=
  ((48 <=? code c) && (code c <=? 57)) || ((97 <=? code c) && (code c <=? 102))
  || ((65 <=? code c) && (code c <=? 70)).

Definition is_lower_hex_digit (c : ascii) : bool :=
  ((48 <=? code c) && (code c <=? 57)) || ((97 <=? code c) && (code c <=? 102)).

Definition hex_shape (s : string) : bool :=
  (String.length s =? 64)%nat && forallb is_hex_digit (list_ascii_of_string s).

(** Strings of 64 characters that are not 64 hexadecimal digits. *)
Definition prefixed_id : string :=
  "0xaaaaaaaaaaaaaaaaaaaaaaaaaaaaaaaaaaaaaaaaaaaaaaaaaaaaaaaaaaaaaa".

Definition signed_id : string :=
  "+000000000000000000000000000000000000000000000000000000000000000".

Definition spaced_id : string :=
  " 00000000000000000000000000000000000000000000000000000000000000 ".

Definition underscored_id : string :=
  "0_00000000000000000000000000000000000000000000000000000000000000".

End Hashing.

(** * [app/services/dedup.py] *)

Module Dedup.
Import Hashing.

Record DeduplicationService : Type := { _known_ids : gset string }.

Definition get_image_id (image_bytes : list byte) : outcome string :=
  compute_image_id image_bytes.

Definition is_duplicate (self : DeduplicationService) (image_id : string) : bool :=
  bool_decide (image_id ∈ _known_ids self).

(** [check_and_register]: the new registry and what the call returns;
    an exception of [get_image_id] propagates. *)
Definition check_and_register (self : DeduplicationService) (image_bytes : list byte)
  : DeduplicationService * outcome (string * bool) :=
  match get_image_id image_bytes with
  | Raise e => (self, Raise e)
  | Return image_id =>
      if is_duplicate self image_id then (self, Return (image_id, true))
      else ({| _known_ids := _known_ids self ∪ {[ image_id ]} |}, Return (image_id, false))
  end.

Definition register_id (self : DeduplicationService) (image_id : string)
  : DeduplicationService * outcome unit :=
  if negb (is_valid_image_id image_id) then (self, Raise ValueError)
  else ({| _known_ids := _known_ids self ∪ {[ image_id ]} |}, Return tt).

Definition get_known_count (self : DeduplicationService) : Z :=
  Z.of_nat (size (_known_ids self)).

Definition clear (self : DeduplicationService) : DeduplicationService :=
  {| _known_ids := ∅ |}.

(** Repeated calls, one after the other, on the same content. *)
Fixpoint call_n (n : nat) (self : DeduplicationService) (image_bytes : list byte)
  : DeduplicationService * list (outcome (string * bool)) :=
  match n with
  | O => (self, [])
  | S n' =>
      let '(self1, r) := check_and_register self image_bytes in
      let '(self2, rs) := call_n n' self1 image_bytes in
      (self2, r :: rs)
  end.

(** *** Interleaved callers

    [check_and_register] takes no lock.  A caller is followed through the
    three statements of the method body: the hash (line 100), the
    membership test (line 102) and the insertion (line 107).  A schedule
    names, step by step, the caller that runs next. *)
Inductive caller : Type :=
| AtHash (image_bytes : list byte)
| AtTest (image_id : string)
| AtAdd (image_id : string)
| Finished (r : outcome (string * bool)).

Definition step (self : DeduplicationService) (c : caller)
  : DeduplicationService * caller :=
  match c with
  | AtHash b =>
      match get_image_id b with
      | Raise e => (self, Finished (Raise e))
      | Return image_id => (self, AtTest image_id)
      end
  | AtTest image_id =>
      if is_duplicate self image_id then (self, Finished (Return (image_id, true)))
      else (self, AtAdd image_id)
  | AtAdd image_id =>
      ({| _known_ids := _known_ids self ∪ {[ image_id ]} |}, Finished (Return (image_id, false)))
  | Finished r => (self, Finished r)
  end.

Definition config : Type := DeduplicationService * list caller.

Definition step_caller (i : nat) (cfg : config) : config :=
  match snd cfg !! i with
  | Some c => let '(self', c') := step (fst cfg) c in (self', <[ i := c' ]> (snd cfg))
  | None => cfg
  end.

Definition run_schedule (sched : list nat) (cfg : config) : config :=
  fold_left (fun cfg i => step_caller i cfg) sched cfg.

Definition start (n : nat) (self : DeduplicationService) (image_bytes : list byte) : config :=
  (self, replicate n (AtHash image_bytes)).

Definition is_finished (c : caller) : bool :=
  match c with Finished _ => true | _ => false end.

(** A caller that was told [is_duplicate = False]. *)
Definition got_new (c : caller) : bool :=
  match c with
  | Finished (Return (_, false)) => true
  | _ => false
  end.

Definition new_results (cs : list caller) : nat := length (List.filter got_new cs).

(** What holds of the callers of [check_and_register image_bytes] under
    every schedule: where each caller can be, what the registry can be, and
    that a registered identity comes with a caller that was told [False]. *)
Definition caller_ok (image_bytes : list byte) (image_id : string) (known : gset string)
           (c : caller) : Prop :=
  match c with
  | AtHash b => b = image_bytes
  | AtTest i => i = image_id
  | AtAdd i => i = image_id
  | Finished (Return (i, _)) => i = image_id /\ image_id ∈ known
  | Finished (Raise _) => False
  end.

Definition race_inv (old : gset string) (image_bytes : list byte) (image_id : string)
           (n : nat) (cfg : config) : Prop :=
  length (snd cfg) = n /\
  Forall (caller_ok image_bytes image_id (_known_ids (fst cfg))) (snd cfg) /\
  (_known_ids (fst cfg) = old \/ _known_ids (fst cfg) = old ∪ {[ image_id ]}) /\
  (image_id ∈ _known_ids (fst cfg) -> (1 <= new_results (snd cfg))%nat).

(** The schedule that lets each caller in turn run its three statements. *)
Definition serial_schedule (n : nat) : list nat :=
  flat_map (fun i => [i; i; i]) (seq 0 n).

(** The identity of the three bytes [abc]. *)
Definition abc_id : string :=
  "ba7816bf8f01cfea414140de5dae2223b00361a396177a9cb410ff61f20015ad".

(** Two callers whose membership tests both run before either insertion:
    both are told that the content is new. *)
Definition racy_schedule : list nat := [0; 1; 0; 1; 0; 1]%nat.

End Dedup.

(** * Insertion-ordered dictionaries

    A Python [dict] that is iterated: the items in insertion order.
    Assigning to a key that is present keeps its position. *)

Module PyDict.
Section Dict.
Context {K V : Type} `{EqDecision K}.

Definition t : Type := list (K * V).

Fixpoint get (k : K) (m : t) : option V :=
  match m with
  | [] => None
  | (k', v) :: m' => if decide (k = k') then Some v else get k m'
  end.

Fixpoint set (k : K) (v : V) (m : t) : t :=
  match m with
  | [] => [(k, v)]
  | (k', v') :: m' => if decide (k = k') then (k, v) :: m' else (k', v') :: set k v m'
  end.

(** [m[k][field] = ...]: an update of the value in place. *)
Fixpoint alter (f : V -> V) (k : K) (m : t) : t :=
  match m with
  | [] => []
  | (k', v') :: m' => if decide (k = k') then (k', f v') :: m' else (k', v') :: alter f k m'
  end.

Definition mem (k : K) (m : t) : bool :=
  match get k m with Some _ => true | None => false end.

(** [dict(items)] and the comprehension [{k: v for k, v in items}]. *)
Definition of_items (items : list (K * V)) : t :=
  fold_left (fun m kv => set (fst kv) (snd kv) m) items [].
End Dict.
End PyDict.

(** * [app/services/faiss_store.py] *)

Module FaissStore.
Import Hashing.

(** ** The [faiss] binding

    [faiss.IndexFlatIP]: the dimension and the stored rows; the id of a
    row is its rank.  [add] and [search] assert that the rows they are
    given have the dimension of the index. *)
Record Index (F : Type) : Type := { d : nat; xb : list (list F) }.
Arguments d {F} _.
Arguments xb {F} _.

Definition IndexFlatIP {F} (dim : nat) : Index F := {| d := dim; xb := [] |}.

Definition ntotal {F} (idx : Index F) : Z := Z.of_nat (length (xb idx)).

(** [index.add(vec)] for one row; [None] is the [AssertionError]. *)
Definition index_add {F} (idx : Index F) (row : list F) : option (Index F) :=
  if (length row =? d idx)%nat then Some {| d := d idx; xb := xb idx ++ [row] |}
  else None.

(** [vector.reshape(1, -1)] of a one-dimensional array: one row holding
    every entry.  An array without entries gives a row without entries,
    which only an index of dimension [0] takes. *)
Definition reshape_row {F} (vector : list F) : option (list F) := Some vector.
Arguments reshape_row {F} vector : simpl never.

(** ** Persisted state *)
Inductive file (A : Type) : Type :=
| Missing
| Corrupt
| Stored (a : A).
Arguments Missing {A}.
Arguments Corrupt {A}.
Arguments Stored {A} a.

Definition exists_ {A} (f : file A) : bool :=
  match f with Missing => false | _ => true end.

(** The decoded [vector_mapping.json]: the two objects, when present, as
    their items. *)
Record MappingJson : Type := {
  text_to_image : option (list (string * string));
  image_to_image : option (list (string * string)) }.

Record Disk (F : Type) : Type := {
  faiss_importable : bool;
  text_path : file (Index F);
  image_path : file (Index F);
  mapping_path : file MappingJson }.
Arguments faiss_importable {F} _.
Arguments text_path {F} _.
Arguments image_path {F} _.
Arguments mapping_path {F} _.

(** ** [FAISSStore] *)
Record FAISSStore (F : Type) : Type := {
  _dimension : nat;
  _text_index : option (Index F);
  _image_index : option (Index F);
  _is_loaded : bool;
  _text_id_to_image_id : gmap Z string;
  _image_id_to_image_id : gmap Z string;
  _image_id_to_text_vector : gmap string Z;
  _image_id_to_image_vector : gmap string Z }.
Arguments _dimension {F} _.
Arguments _text_index {F} _.
Arguments _image_index {F} _.
Arguments _is_loaded {F} _.
Arguments _text_id_to_image_id {F} _.
Arguments _image_id_to_image_id {F} _.
Arguments _image_id_to_text_vector {F} _.
Arguments _image_id_to_image_vector {F} _.

Section Store.
Context {F : Type}.
Implicit Types (self : FAISSStore F) (disk : Disk F).

(** [__init__] *)
Definition init (dimension : nat) : FAISSStore F :=
  {| _dimension := dimension; _text_index := None; _image_index := None;
     _is_loaded := false;
     _text_id_to_image_id := ∅; _image_id_to_image_id := ∅;
     _image_id_to_text_vector := ∅; _image_id_to_image_vector := ∅ |}.

Definition create_indices disk self : FAISSStore F * bool :=
  if faiss_importable disk then
    ({| _dimension := _dimension self;
        _text_index := Some (IndexFlatIP (_dimension self));
        _image_index := Some (IndexFlatIP (_dimension self));
        _is_loaded := true;
        _text_id_to_image_id := ∅; _image_id_to_image_id := ∅;
        _image_id_to_text_vector := ∅; _image_id_to_image_vector := ∅ |}, true)
  else (self, false).

(** [{int(k): v for k, v in obj.items()}], as the items of the new
    dictionary; [None] when some [int(k)] raises. *)
Fixpoint int_keys (items : list (string * string)) : option (list (Z * string)) :=
  match items with
  | [] => Some []
  | (k, v) :: items' =>
      match py_int 10 k with
      | Some n =>
          match int_keys items' with
          | Some r => Some ((n, v) :: r)
          | None => None
          end
      | None => None
      end
  end.

Definition forward_items (obj : option (list (string * string)))
  : option (list (Z * string)) :=
  option_map PyDict.of_items (int_keys (default [] obj)).

(** [{v: k for k, v in forward.items()}] *)
Definition reverse_map (items : list (Z * string)) : gmap string Z :=
  fold_left (fun m kv => <[ snd kv := fst kv ]> m) items ∅.

Definition forward_map (items : list (Z * string)) : gmap Z string :=
  fold_left (fun m kv => <[ fst kv := snd kv ]> m) items ∅.

(** The body of the [try] of [load_indices] after the two files were
    found: the store as the statements executed so far left it, and
    whether the body ran to its end. *)
Definition load_body disk self : FAISSStore F * bool :=
  match text_path disk with
  | Stored ti =>
      let self1 :=
        {| _dimension := _dimension self;
           _text_index := Some ti; _image_index := _image_index self;
           _is_loaded := _is_loaded self;
           _text_id_to_image_id := _text_id_to_image_id self;
           _image_id_to_image_id := _image_id_to_image_id self;
           _image_id_to_text_vector := _image_id_to_text_vector self;
           _image_id_to_image_vector := _image_id_to_image_vector self |} in
      match image_path disk with
      | Stored ii =>
          let self2 :=
            {| _dimension := _dimension self;
               _text_index := Some ti; _image_index := Some ii;
               _is_loaded := _is_loaded self;
               _text_id_to_image_id := _text_id_to_image_id self;
               _image_id_to_image_id := _image_id_to_image_id self;
               _image_id_to_text_vector := _image_id_to_text_vector self;
               _image_id_to_image_vector := _image_id_to_image_vector self |} in
          match mapping_path disk with
          | Missing =>
              ({| _dimension := _dimension self;
                  _text_index := Some ti; _image_index := Some ii;
                  _is_loaded := true;
                  _text_id_to_image_id := _text_id_to_image_id self;
                  _image_id_to_image_id := _image_id_to_image_id self;
                  _image_id_to_text_vector := _image_id_to_text_vector self;
                  _image_id_to_image_vector := _image_id_to_image_vector self |}, true)
          | Corrupt => (self2, false)
          | Stored mappings =>
              match forward_items (text_to_image mappings) with
              | None => (self2, false)
              | Some t_items =>
                  match forward_items (image_to_image mappings) with
                  | None =>
                      ({| _dimension := _dimension self;
                          _text_index := Some ti; _image_index := Some ii;
                          _is_loaded := _is_loaded self;
                          _text_id_to_image_id := forward_map t_items;
                          _image_id_to_image_id := _image_id_to_image_id self;
                          _image_id_to_text_vector := _image_id_to_text_vector self;
                          _image_id_to_image_vector := _image_id_to_image_vector self |},
                       false)
                  | Some i_items =>
                      ({| _dimension := _dimension self;
                          _text_index := Some ti; _image_index := Some ii;
                          _is_loaded := true;
                          _text_id_to_image_id := forward_map t_items;
                          _image_id_to_image_id := forward_map i_items;
                          _image_id_to_text_vector := reverse_map t_items;
                          _image_id_to_image_vector := reverse_map i_items |}, true)
                  end
              end
          end
      | _ => (self1, false)
      end
  | _ => (self, false)
  end.

(** [load_indices]: any exception ends in [create_indices]. *)
Definition load_indices disk self : FAISSStore F * bool :=
  if negb (faiss_importable disk) then create_indices disk self
  else if negb (exists_ (text_path disk)) || negb (exists_ (image_path disk)) then
    create_indices disk self
  else
    let '(self', ok) := load_body disk self in
    if ok then (self', true) else create_indices disk self'.

Definition _ensure_loaded disk self : FAISSStore F * bool :=
  if negb (_is_loaded self) then load_indices disk self else (self, true).

(** [add_text_vector]: the store after the call and the returned
    [Optional[int]].  Nothing is assigned before the last statement
    that can raise, so a caught exception leaves the store as
    [_ensure_loaded] left it. *)
Definition add_text_vector disk self (vector : list F) (image_id : string)
  : FAISSStore F * option Z :=
  let '(self, ok) := _ensure_loaded disk self in
  if negb ok then (self, None)
  else
    match _image_id_to_text_vector self !! image_id with
    | Some vector_id => (self, Some vector_id)
    | None =>
        match reshape_row vector, _text_index self with
        | Some vec, Some index =>
            let vector_id := ntotal index in
            match index_add index vec with
            | Some index' =>
                ({| _dimension := _dimension self;
                    _text_index := Some index';
                    _image_index := _image_index self;
                    _is_loaded := _is_loaded self;
                    _text_id_to_image_id := <[ vector_id := image_id ]> (_text_id_to_image_id self);
                    _image_id_to_image_id := _image_id_to_image_id self;
                    _image_id_to_text_vector :=
                      <[ image_id := vector_id ]> (_image_id_to_text_vector self);
                    _image_id_to_image_vector := _image_id_to_image_vector self |},
                 Some vector_id)
            | None => (self, None)
            end
        | _, _ => (self, None)
        end
    end.

Definition add_image_vector disk self (vector : list F) (image_id : string)
  : FAISSStore F * option Z :=
  let '(self, ok) := _ensure_loaded disk self in
  if negb ok then (self, None)
  else
    match _image_id_to_image_vector self !! image_id with
    | Some vector_id => (self, Some vector_id)
    | None =>
        match reshape_row vector, _image_index self with
        | Some vec, Some index =>
            let vector_id := ntotal index in
            match index_add index vec with
            | Some index' =>
                ({| _dimension := _dimension self;
                    _text_index := _text_index self;
                    _image_index := Some index';
                    _is_loaded := _is_loaded self;
                    _text_id_to_image_id := _text_id_to_image_id self;
                    _image_id_to_image_id :=
                      <[ vector_id := image_id ]> (_image_id_to_image_id self);
                    _image_id_to_text_vector := _image_id_to_text_vector self;
                    _image_id_to_image_vector :=
                      <[ image_id := vector_id ]> (_image_id_to_image_vector self) |},
                 Some vector_id)
            | None => (self, None)
            end
        | _, _ => (self, None)
        end
    end.

Definition get_image_id_from_text_vector self (vector_id : Z) : option string :=
  _text_id_to_image_id self !! vector_id.

Definition get_image_id_from_image_vector self (vector_id : Z) : option string :=
  _image_id_to_image_id self !! vector_id.

Definition get_text_vector_count self : Z :=
  if negb (_is_loaded self) then 0
  else match _text_index self with Some index => ntotal index | None => 0 end.

Definition get_image_vector_count self : Z :=
  if negb (_is_loaded self) then 0
  else match _image_index self with Some index => ntotal index | None => 0 end.

Definition has_vectors_for_image self (image_id : string) : bool * bool :=
  (bool_decide (is_Some (_image_id_to_text_vector self !! image_id)),
   bool_decide (is_Some (_image_id_to_image_vector self !! image_id))).

(** *** The two kinds of the design document *)
Inductive kind : Set := Text | Image.

Definition add_vector disk (k : kind) self (vector : list F) (image_id : string)
  : FAISSStore F * option Z :=
  match k with
  | Text => add_text_vector disk self vector image_id
  | Image => add_image_vector disk self vector image_id
  end.

Definition index_of (k : kind) self : option (Index F) :=
  match k with Text => _text_index self | Image => _image_index self end.

Definition id_to_image_id (k : kind) self : gmap Z string :=
  match k with Text => _text_id_to_image_id self | Image => _image_id_to_image_id self end.

Definition image_id_to_vector (k : kind) self : gmap string Z :=
  match k with
  | Text => _image_id_to_text_vector self
  | Image => _image_id_to_image_vector self
  end.

Definition vector_count (k : kind) self : Z :=
  match k with
  | Text => get_text_vector_count self
  | Image => get_image_vector_count self
  end.

(** A sequence of calls, in program order. *)
Definition call : Type := kind * list F * string.

Definition run_adds disk (calls : list call) self : FAISSStore F :=
  fold_left (fun self c => fst (add_vector disk (fst (fst c)) self (snd (fst c)) (snd c)))
            calls self.

(** The store after a successful append of kind [k]. *)
Definition appended k self (index' : Index F) image_id (vector_id : Z) : FAISSStore F :=
  match k with
  | Text =>
      {| _dimension := _dimension self;
         _text_index := Some index';
         _image_index := _image_index self;
         _is_loaded := _is_loaded self;
         _text_id_to_image_id := <[ vector_id := image_id ]> (_text_id_to_image_id self);
         _image_id_to_image_id := _image_id_to_image_id self;
         _image_id_to_text_vector := <[ image_id := vector_id ]> (_image_id_to_text_vector self);
         _image_id_to_image_vector := _image_id_to_image_vector self |}
  | Image =>
      {| _dimension := _dimension self;
         _text_index := _text_index self;
         _image_index := Some index';
         _is_loaded := _is_loaded self;
         _text_id_to_image_id := _text_id_to_image_id self;
         _image_id_to_image_id := <[ vector_id := image_id ]> (_image_id_to_image_id self);
         _image_id_to_text_vector := _image_id_to_text_vector self;
         _image_id_to_image_vector :=
           <[ image_id := vector_id ]> (_image_id_to_image_vector self) |}
  end.

Definition loaded self (ti ii : Index F)
           (fwd_t fwd_i : gmap Z string) (rev_t rev_i : gmap string Z) : FAISSStore F :=
  {| _dimension := _dimension self;
     _text_index := Some ti; _image_index := Some ii; _is_loaded := true;
     _text_id_to_image_id := fwd_t; _image_id_to_image_id := fwd_i;
     _image_id_to_text_vector := rev_t; _image_id_to_image_vector := rev_i |}.

(** *** The density invariant of one kind

    The assigned ids are [0 .. n-1], there are as many entries as rows,
    and the two dictionaries are inverse to each other. *)
Definition maps_dense (fwd : gmap Z string) (rev : gmap string Z) (n : nat) : Prop :=
  (forall vector_id : Z, is_Some (fwd !! vector_id) <-> 0 <= vector_id < Z.of_nat n) /\
  size fwd = n /\
  (forall (vector_id : Z) (image_id : string),
      fwd !! vector_id = Some image_id <-> rev !! image_id = Some vector_id).

Definition dense (k : kind) self : Prop :=
  exists index,
    index_of k self = Some index /\
    d index = _dimension self /\
    maps_dense (id_to_image_id k self) (image_id_to_vector k self) (length (xb index)).

Definition store_ok self : Prop :=
  _is_loaded self = true /\ dense Text self /\ dense Image self.

(** A store that is not loaded holds no mapping: [__init__] starts that
    way and every method that fills a mapping has loaded the store. *)
Definition store_wf self : Prop :=
  _is_loaded self = false ->
  _text_id_to_image_id self = ∅ /\ _image_id_to_image_id self = ∅ /\
  _image_id_to_text_vector self = ∅ /\ _image_id_to_image_vector self = ∅.

End Store.

(** ** Search *)

Record SearchResult : Type := { vector_id : Z; score : Q }.

Definition Qlt_b (x y : Q) : bool := negb (Qle_bool y x).

Definition inner_product (q v : list Q) : Q :=
  fold_left Qplus (map (fun ab => (fst ab * snd ab)%Q) (combine q v)) 0%Q.

(** [list.sort(key=..., reverse=True)]: descending and stable, equal keys
    stay in their original order. *)
Fixpoint insert_desc {A} (key : A -> Q) (x : A) (l : list A) : list A :=
  match l with
  | [] => [x]
  | y :: l' => if Qle_bool (key y) (key x) then x :: y :: l' else y :: insert_desc key x l'
  end.

Definition sort_desc {A} (key : A -> Q) (l : list A) : list A :=
  foldr (insert_desc key) [] l.

(** [index.search(query, k)] for one query row: the [k] best inner
    products, best first; [None] is the [AssertionError] on the dimension.
    The binding promises no order among rows of equal score; they are
    listed here by id, and no statement below rests on that order. *)
Definition index_search (idx : Index Q) (query : list Q) (k : nat)
  : option (list (Q * Z)) :=
  if (length query =? d idx)%nat then
    Some (take k (sort_desc fst
                    (imap (fun i v => (inner_product query v, Z.of_nat i)) (xb idx))))
  else None.

Definition collect_results (hits : list (Q * Z)) : list SearchResult :=
  map (fun h => {| vector_id := snd h; score := fst h |})
      (List.filter (fun h => 0 <=? snd h) hits).

(** The part of [search_text]/[search_image] after [_ensure_loaded].  The
    test of [ntotal] stands before the [try], so a missing index raises. *)
Definition search_index (index : option (Index Q)) (query_vector : list Q) (k : nat)
  : outcome (list SearchResult) :=
  match index with
  | None => Raise AttributeError
  | Some index =>
      if ntotal index =? 0 then Return []
      else
        match reshape_row query_vector with
        | None => Return []
        | Some query =>
            let k := Nat.min k (length (xb index)) in
            match index_search index query k with
            | Some hits => Return (collect_results hits)
            | None => Return []
            end
        end
  end.

Definition search_text (disk : Disk Q) (self : FAISSStore Q)
           (query_vector : list Q) (k : nat)
  : FAISSStore Q * outcome (list SearchResult) :=
  let '(self, ok) := _ensure_loaded disk self in
  if negb ok then (self, Return [])
  else (self, search_index (_text_index self) query_vector k).

Definition search_image (disk : Disk Q) (self : FAISSStore Q)
           (query_vector : list Q) (k : nat)
  : FAISSStore Q * outcome (list SearchResult) :=
  let '(self, ok) := _ensure_loaded disk self in
  if negb ok then (self, Return [])
  else (self, search_index (_image_index self) query_vector k).

(** ** Hybrid search *)

(** The inner dictionary [{"text": ..., "image": ...}]. *)
Record ScoreDict : Type := { text : Q; image : Q }.

Definition truthy (image_id : string) : bool :=
  match image_id with EmptyString => false | _ => true end.

Definition ensure_entry (image_id : string) (scores : PyDict.t (K:=string) (V:=ScoreDict))
  : PyDict.t (K:=string) (V:=ScoreDict) :=
  if negb (PyDict.mem image_id scores)
  then PyDict.set image_id {| text := 0; image := 0 |} scores
  else scores.

Definition add_text_scores (self : FAISSStore Q) (text_results : list SearchResult)
           (scores : PyDict.t) : PyDict.t :=
  fold_left
    (fun scores result =>
       match get_image_id_from_text_vector self (vector_id result) with
       | Some image_id =>
           if truthy image_id then
             PyDict.alter (fun sd => {| text := score result; image := image sd |})
                          image_id (ensure_entry image_id scores)
           else scores
       | None => scores
       end)
    text_results scores.

Definition add_image_scores (self : FAISSStore Q) (image_results : list SearchResult)
           (scores : PyDict.t) : PyDict.t :=
  fold_left
    (fun scores result =>
       match get_image_id_from_image_vector self (vector_id result) with
       | Some image_id =>
           if truthy image_id then
             PyDict.alter (fun sd => {| text := text sd; image := score result |})
                          image_id (ensure_entry image_id scores)
           else scores
       | None => scores
       end)
    image_results scores.

Definition final_score (text_weight image_weight : Q) (score_dict : ScoreDict) : Q :=
  let text_score := text score_dict in
  let image_score := image score_dict in
  if Qlt_b 0 text_score && Qlt_b 0 image_score then
    (text_weight * text_score + image_weight * image_score)%Q
  else if Qlt_b 0 text_score then text_score
  else image_score.

(** From the two result lists to the ranked answer. *)
Definition combine_results (self : FAISSStore Q)
           (text_results image_results : list SearchResult)
           (k : nat) (text_weight image_weight : Q) : list (string * Q) :=
  let scores := add_image_scores self image_results
                  (add_text_scores self text_results []) in
  let combined :=
    map (fun e => (fst e, final_score text_weight image_weight (snd e))) scores in
  take k (sort_desc snd combined).

Definition hybrid_search (disk : Disk Q) (self : FAISSStore Q)
           (query_vector : list Q) (k : nat) (text_weight image_weight : Q)
  : FAISSStore Q * outcome (list (string * Q)) :=
  let search_k := (k * 3)%nat in
  let '(self, rt) := search_text disk self query_vector search_k in
  match rt with
  | Raise e => (self, Raise e)
  | Return text_results =>
      let '(self, ri) := search_image disk self query_vector search_k in
      match ri with
      | Raise e => (self, Raise e)
      | Return image_results =>
          (self, Return (combine_results self text_results image_results
                                         k text_weight image_weight))
      end
  end.

(** *** What the accumulation computes

    The score of the last result of a list that resolves to an identity
    (a later result for the same identity overwrites an earlier one);
    [0] when none does. *)
Definition last_hit (resolve : Z -> option string) (results : list SearchResult)
           (image_id : string) : option Q :=
  fold_left (fun acc result =>
               if decide (resolve (vector_id result) = Some image_id)
               then Some (score result) else acc)
            results None.

Definition side_score (resolve : Z -> option string) (results : list SearchResult)
           (image_id : string) : Q :=
  default 0%Q (last_hit resolve results image_id).

Definition resolves_to (resolve : Z -> option string) (results : list SearchResult)
           (image_id : string) : Prop :=
  exists result, In result results /\ resolve (vector_id result) = Some image_id.

Definition by_score_desc (a b : string * Q) : Prop := (snd b <= snd a)%Q.

(** The defaults of [hybrid_search]. *)
Definition default_text_weight : Q := 0.7.
Definition default_image_weight : Q := 0.3.

Definition desc {A} (key : A -> Q) (a b : A) : Prop := (key b <= key a)%Q.

Definition zero_scores : ScoreDict := {| text := 0; image := 0 |}.

Definition set_text (x : Q) (sd : ScoreDict) : ScoreDict :=
  {| text := x; image := image sd |}.
Definition set_image (x : Q) (sd : ScoreDict) : ScoreDict :=
  {| text := text sd; image := x |}.

(** One step of either accumulation loop: [resolve] is the mapping of the
    kind and [upd] writes the score into its field. *)
Definition side_step (resolve : Z -> option string) (upd : Q -> ScoreDict -> ScoreDict)
           (scores : PyDict.t (K:=string) (V:=ScoreDict)) (result : SearchResult)
  : PyDict.t (K:=string) (V:=ScoreDict) :=
  match resolve (vector_id result) with
  | Some image_id =>
      if truthy image_id then
        PyDict.alter (upd (score result)) image_id (ensure_entry image_id scores)
      else scores
  | None => scores
  end.

Definition accumulated (self : FAISSStore Q) (text_results image_results : list SearchResult)
  : PyDict.t (K:=string) (V:=ScoreDict) :=
  add_image_scores self image_results (add_text_scores self text_results []).

Definition combined (self : FAISSStore Q) (text_results image_results : list SearchResult)
           (tw iw : Q) : list (string * Q) :=
  map (fun e => (fst e, final_score tw iw (snd e)))
      (accumulated self text_results image_results).

(** *** Sample disks, stores and runs *)

Definition disk_empty : Disk Q :=
  {| faiss_importable := true; text_path := Missing; image_path := Missing;
     mapping_path := Missing |}.

Definition disk_no_faiss : Disk Q :=
  {| faiss_importable := false; text_path := Missing; image_path := Missing;
     mapping_path := Missing |}.

Definition fresh_store (dimension : nat) : FAISSStore Q :=
  fst (create_indices disk_empty (init dimension)).

Definition three_calls : list (call (F:=Q)) :=
  [ (Text, [1%Q; 0%Q], "a"%string); (Image, [0%Q; 1%Q], "a"%string);
    (Text, [1%Q; 1%Q], "b"%string) ].

(** Two rows in the text index, one entry in the text mapping. *)
Definition disk_mismatch : Disk Q :=
  {| faiss_importable := true;
     text_path := Stored {| d := 1; xb := [[1%Q]; [2%Q]] |};
     image_path := Stored {| d := 1; xb := [] |};
     mapping_path := Stored {| text_to_image := Some [("0"%string, "a"%string)];
                               image_to_image := Some [] |} |}.

(** The example of the design document: item A has a caption vector
    scoring 0.90 and a pixel vector scoring 0.50 against the query, item B
    a caption vector scoring 0.95 and no pixel vector. *)
Definition ab_calls : list (call (F:=Q)) :=
  [ (Text, [0.90%Q], "A"%string); (Image, [0.50%Q], "A"%string);
    (Text, [0.95%Q], "B"%string) ].

Definition ab_store : FAISSStore Q := run_adds disk_empty ab_calls (fresh_store 1).

Definition ab_query : list Q := [1%Q].

Definition reduced (ranking : list (string * Q)) : list (string * Q) :=
  map (fun e => (fst e, Qred (snd e))) ranking.

End FaissStore.

(** * [app/services/embedder.py] *)

Module Embedder.
Import FaissStore.

(** [np.linalg.norm] of a vector: the root of the sum of the squares. *)
Definition sum_squares (vector : list R) : R :=
  fold_right (fun x acc => (x * x + acc)%R) 0%R vector.

Definition linalg_norm (vector : list R) : R := sqrt (sum_squares vector).

(** [vector / norm].  With a zero divisor numpy answers with entries that
    are no numbers; [None] stands for that. *)
Definition np_divide (vector : list R) (norm : R) : option (list R) :=
  if Req_dec_T norm 0%R then None
  else Some (map (fun x => (x / norm)%R) vector).

(** [normalize_vector], over the real numbers.  The code computes in
    [float32]: there the guard also fires when the squares underflow, and
    the quotient has norm one up to rounding only. *)
Definition normalize_vector (vector : list R) : option (list R) :=
  let norm := linalg_norm vector in
  if Req_dec_T norm 0%R then Some vector
  else np_divide vector norm.

(** The embedding stage: the raw model output is normalised and handed to
    the text index ([embed_text] followed by [add_text_vector]). *)
Definition embed_and_add (disk : Disk R) (self : FAISSStore R)
           (raw : list R) (image_id : string) : FAISSStore R * option Z :=
  match normalize_vector raw with
  | Some embedding => add_text_vector disk self embedding image_id
  | None => (self, None)
  end.

End Embedder.

(** * Further code of the same files *)

(** ** [hashlib.sha256] used as a stream, and [compute_file_hash] *)

Module Sha256Stream.
Import Sha256.

(** The state of a hash object: chaining value, partial block (latest byte
    first), bytes missing to a full block minus one, bytes seen so far. *)
Record hasher : Type := { st_h : regs; st_buf : list Z; st_n : nat; st_len : nat }.

Definition new : hasher := {| st_h := H0; st_buf := []; st_n := 63; st_len := 0 |}.

Fixpoint absorb_st (h : regs) (buf : list Z) (n : nat) (l : list Z) : regs * list Z * nat :=
  match l with
  | [] => (h, buf, n)
  | b :: l' =>
      match n with
      | O => absorb_st (compress h (rev (b :: buf))) [] 63 l'
      | S n' => absorb_st h (b :: buf) n' l'
      end
  end.

Definition to_Z_bytes (l : list byte) : list Z := map (fun b => Z.of_N (Byte.to_N b)) l.

(** [h.update(chunk)] *)
Definition update (o : hasher) (chunk : list byte) : hasher :=
  let '(h, buf, n) :=
    absorb_st (st_h o) (st_buf o) (st_n o) (map (fun b => Z.of_N (Byte.to_N b)) chunk) in
  {| st_h := h; st_buf := buf; st_n := n; st_len := st_len o + length chunk |}.

Definition pad_tail (len : nat) : list Z :=
  0x80 :: repeat 0 (Z.to_nat ((55 - Z.of_nat len) mod 64)) ++ be_bytes 8 (8 * Z.of_nat len).

(** [h.hexdigest()] *)
Definition digest (o : hasher) : regs :=
  fst (fst (absorb_st (st_h o) (st_buf o) (st_n o) (pad_tail (st_len o)))).

(** [iter(lambda: f.read(size), b"")]: the chunks read until the empty
    read.  [fuel] bounds the number of reads. *)
Fixpoint read_chunks (fuel size : nat) (data : list byte) : list (list byte) :=
  match fuel with
  | O => []
  | S fuel' =>
      match take size data with
      | [] => []
      | chunk => chunk :: read_chunks fuel' size (drop size data)
      end
  end.

Definition hash_chunks (size : nat) (data : list byte) : string :=
  hexdigest (digest (fold_left update (read_chunks (S (length data)) size data) new)).

(** [compute_file_hash] on a file that can be opened, given its content. *)
Definition compute_file_hash (content : list byte) : string :=
  hash_chunks (256 * 256) content.

End Sha256Stream.

(** ** [str(k)] and [save_indices] *)

Module Persist.
Import Hashing FaissStore.

Definition digit_char (n : Z) : ascii := ascii_of_N (Z.to_N (48 + n)).

(** The decimal digits of a non-negative number, most significant first. *)
Fixpoint digits_of (fuel : nat) (n : Z) (acc : list ascii) : list ascii :=
  match fuel with
  | O => acc
  | S fuel' =>
      let acc' := digit_char (n mod 10) :: acc in
      if n / 10 =? 0 then acc' else digits_of fuel' (n / 10) acc'
  end.

Definition digits (n : Z) : list ascii := digits_of (S (Z.to_nat (Z.log2 n))) n [].

(** Reading decimal digits back. *)
Definition is_dec_digit (c : ascii) : bool := (48 <=? code c) && (code c <=? 57).

Definition dec_step (a : Z) (c : ascii) : Z := a * 10 + digit_value c.

(** [str(k)] of an [int]. *)
Definition py_str (z : Z) : string :=
  string_of_list_ascii (if z <? 0 then "-"%char :: digits (- z) else digits z).

Section Save.
Context {F : Type}.
Implicit Types (self : FAISSStore F) (disk : Disk F).

(** [{str(k): v for k, v in m.items()}].  The file lists the items in the
    insertion order of the dictionary, which a [gmap] does not keep;
    [map_to_list] stands for it, and what is proved of saved files holds
    for every order of the items. *)
Definition dump_items (m : gmap Z string) : list (string * string) :=
  map (fun kv => (py_str (fst kv), snd kv)) (map_to_list m).

(** [save_indices]: the disk after the call and the returned flag.  The
    text index is written before the image index. *)
Definition save_indices disk self : Disk F * bool :=
  if negb (_is_loaded self) then (disk, false)
  else if negb (faiss_importable disk) then (disk, false)
  else
    match _text_index self with
    | None => (disk, false)
    | Some ti =>
        match _image_index self with
        | None =>
            ({| faiss_importable := faiss_importable disk;
                text_path := Stored ti;
                image_path := image_path disk;
                mapping_path := mapping_path disk |}, false)
        | Some ii =>
            ({| faiss_importable := faiss_importable disk;
                text_path := Stored ti;
                image_path := Stored ii;
                mapping_path :=
                  Stored {| text_to_image := Some (dump_items (_text_id_to_image_id self));
                            image_to_image := Some (dump_items (_image_id_to_image_id self)) |}
             |}, true)
        end
    end.

(** A disk that holds the store, the items of the two objects in any
    order. *)
Definition holds disk self : Prop :=
  faiss_importable disk = true /\
  exists ti ii t_items i_items,
    _text_index self = Some ti /\ _image_index self = Some ii /\
    text_path disk = Stored ti /\ image_path disk = Stored ii /\
    mapping_path disk = Stored {| text_to_image := Some t_items;
                                  image_to_image := Some i_items |} /\
    Permutation t_items (dump_items (_text_id_to_image_id self)) /\
    Permutation i_items (dump_items (_image_id_to_image_id self)).

(** The two dictionaries of each kind are inverse to each other. *)
Definition inverse_maps (fwd : gmap Z string) (rev : gmap string Z) : Prop :=
  forall (vector_id : Z) (image_id : string),
    fwd !! vector_id = Some image_id <-> rev !! image_id = Some vector_id.

Definition mappings_inverse self : Prop :=
  inverse_maps (_text_id_to_image_id self) (_image_id_to_text_vector self) /\
  inverse_maps (_image_id_to_image_id self) (_image_id_to_image_vector self).

End Save.
End Persist.

(** * [app/api/ingest.py] *)

Module Ingest.
Import Hashing Dedup.

(** What a collaborator of the loop answers: a value, or an exception. *)
Inductive answer (A : Type) : Type :=
| Answers (a : A)
| Raises.
Arguments Answers {A} a.
Arguments Raises {A}.

(** [ProcessingResult], as far as the loop reads it. *)
Record ProcessingResult : Type := {
  success : bool;
  image_bytes : option (list byte) }.

(** One downloaded file with what the loop is told about it: the result
    of [process_media_file], the result of the upload, and whether
    building the entry and [save_image_metadata] run through. *)
Record download_result : Type := {
  proc_answer : answer ProcessingResult;
  upload_answer : answer (option string);
  save_runs : bool }.

Inductive error : Type :=
| ProcessingFailed
| UploadFailed (image_id : string)
| Raised.

(** The variables of the loop, the registry, and the rows handed to
    [save_image_metadata] (identity and URL), oldest first. *)
Record loop_state : Type := {
  dedup_service : DeduplicationService;
  processed : Z;
  duplicates : Z;
  uploaded : Z;
  errors : list error;
  saved : list (string * string) }.

Definition initial (dedup : DeduplicationService) : loop_state :=
  {| dedup_service := dedup; processed := 0; duplicates := 0; uploaded := 0;
     errors := []; saved := [] |}.

(** [errors.append(...)] followed by [continue], or the [except] branch. *)
Definition failed (st : loop_state) (dedup : DeduplicationService) (e : error) : loop_state :=
  {| dedup_service := dedup; processed := processed st; duplicates := duplicates st;
     uploaded := uploaded st; errors := errors st ++ [e]; saved := saved st |}.

(** [check_and_register(proc_result.image_bytes)]: [None] is falsy, so
    [compute_image_id] raises on it as on the empty bytes. *)
Definition check_bytes (dedup : DeduplicationService) (image_bytes : option (list byte))
  : DeduplicationService * outcome (string * bool) :=
  match image_bytes with
  | None => (dedup, Raise ValueError)
  | Some b => check_and_register dedup b
  end.

(** [if not firebase_url] *)
Definition no_url (firebase_url : option string) : bool :=
  match firebase_url with
  | None => true
  | Some EmptyString => true
  | Some _ => false
  end.

(** The body of the loop over [successful_downloads]. *)
Definition loop_body (st : loop_state) (download : download_result) : loop_state :=
  match proc_answer download with
  | Raises => failed st (dedup_service st) Raised
  | Answers proc_result =>
      if negb (success proc_result) then failed st (dedup_service st) ProcessingFailed
      else
        let '(dedup, r) := check_bytes (dedup_service st) (image_bytes proc_result) in
        match r with
        | Raise _ => failed st dedup Raised
        | Return (image_id, is_duplicate) =>
            if is_duplicate then
              {| dedup_service := dedup; processed := processed st;
                 duplicates := duplicates st + 1; uploaded := uploaded st;
                 errors := errors st; saved := saved st |}
            else
              match upload_answer download with
              | Raises => failed st dedup Raised
              | Answers firebase_url =>
                  if no_url firebase_url then failed st dedup (UploadFailed image_id)
                  else if save_runs download then
                    {| dedup_service := dedup; processed := processed st + 1;
                       duplicates := duplicates st; uploaded := uploaded st + 1;
                       errors := errors st;
                       saved := saved st ++ [(image_id, default EmptyString firebase_url)] |}
                  else failed st dedup Raised
              end
        end
  end.

Definition run_loop (st : loop_state) (downloads : list download_result) : loop_state :=
  fold_left loop_body downloads st.

(** The identity the loop computes for a file, when it gets that far. *)
Definition file_id (download : download_result) : option string :=
  match proc_answer download with
  | Answers proc_result =>
      if success proc_result then
        match image_bytes proc_result with
        | Some b =>
            match get_image_id b with
            | Return image_id => Some image_id
            | Raise _ => None
            end
        | None => None
        end
      else None
  | Raises => None
  end.

Definition file_ids (downloads : list download_result) : gset string :=
  list_to_set (omap file_id downloads).

(** What the loop keeps true of its variables; [known] is the registry
    before the loop. *)
Definition loop_inv (known : gset string) (st : loop_state) : Prop :=
  processed st = uploaded st /\
  uploaded st = Z.of_nat (length (saved st)) /\
  NoDup (map fst (saved st)) /\
  (forall id, In id (map fst (saved st)) ->
              (id ∉ known) /\ (id ∈ _known_ids (dedup_service st))) /\
  known ⊆ _known_ids (dedup_service st).

Definition handled (st : loop_state) : Z :=
  uploaded st + duplicates st + Z.of_nat (length (errors st)).

(** A file that was processed, whose upload raised. *)
Definition abc_upload_down : download_result :=
  {| proc_answer := Answers {| success := true;
                               image_bytes := Some (bytes_of_string "abc") |};
     upload_answer := Raises; save_runs := true |}.

(** The same file with the storage back. *)
Definition abc_upload_up : download_result :=
  {| proc_answer := Answers {| success := true;
                               image_bytes := Some (bytes_of_string "abc") |};
     upload_answer := Answers (Some "file:///mock/abc.jpg"%string); save_runs := true |}.

End Ingest.

(** * [app/services/indexer.py] *)

Module Indexer.

(** A row of the table [images], without its primary key [image_id];
    NULL is [None].  The table is a map from the key to the row. *)
Record Row : Type := {
  firebase_url : option string;
  original_date : string;
  location : option string;
  user_id : string;
  caption : option string;
  text_vector_id : option Z;
  image_vector_id : option Z;
  created_at : string;
  updated_at : string }.

(** [COALESCE(?, column)] *)
Definition coalesce {A} (value column : option A) : option A :=
  match value with
  | Some _ => value
  | None => column
  end.

(** [update_vector_ids]: the table after the statement and
    [cursor.rowcount > 0]. *)
Definition update_vector_ids (now : string) (table : gmap string Row) (image_id : string)
           (text_id image_id' : option Z) : gmap string Row * bool :=
  match table !! image_id with
  | Some row =>
      (<[ image_id :=
            {| firebase_url := firebase_url row; original_date := original_date row;
               location := location row; user_id := user_id row; caption := caption row;
               text_vector_id := coalesce text_id (text_vector_id row);
               image_vector_id := coalesce image_id' (image_vector_id row);
               created_at := created_at row; updated_at := now |} ]> table, true)
  | None => (table, false)
  end.

(** [SELECT COUNT( * ) FROM images WHERE ...] *)
Definition count_where (p : Row -> bool) (table : gmap string Row) : Z :=
  Z.of_nat (length (List.filter p (map snd (map_to_list table)))).

Definition not_null {A} (column : option A) : bool :=
  match column with Some _ => true | None => false end.

Record EmbeddingStats : Type := {
  total_images : Z;
  with_captions : Z;
  without_captions : Z;
  with_text_embeddings : Z;
  with_image_embeddings : Z;
  fully_processed : Z;
  pending_captions : Z;
  pending_embeddings : Z }.

Definition get_embedding_stats (table : gmap string Row) : EmbeddingStats :=
  let total := count_where (fun _ => true) table in
  let with_captions := count_where (fun row => not_null (caption row)) table in
  let with_text_emb := count_where (fun row => not_null (text_vector_id row)) table in
  let with_image_emb := count_where (fun row => not_null (image_vector_id row)) table in
  let fully_processed :=
    count_where (fun row => not_null (text_vector_id row) && not_null (image_vector_id row))
                table in
  {| total_images := total;
     with_captions := with_captions;
     without_captions := total - with_captions;
     with_text_embeddings := with_text_emb;
     with_image_embeddings := with_image_emb;
     fully_processed := fully_processed;
     pending_captions := total - with_captions;
     pending_embeddings := with_captions - fully_processed |}.

(** The [WHERE] clause of [get_images_with_captions_without_embeddings]. *)
Definition captioned_without_embeddings (row : Row) : bool :=
  not_null (caption row)
  && (negb (not_null (text_vector_id row)) || negb (not_null (image_vector_id row))).

(** Rows that hold both vector ids and no caption. *)
Definition embedded_without_caption (row : Row) : bool :=
  negb (not_null (caption row))
  && (not_null (text_vector_id row) && not_null (image_vector_id row)).

End Indexer.

(** * [app/api/embeddings.py] *)

Module Embeddings.
Import FaissStore Persist Indexer.

Inductive embed_error : Type :=
| LoadFailed (image_id : string)
| TextEmbedFailed
| ImageEmbedFailed.

Inductive status : Type := FAILED | COMPLETED.

Section Pipeline.
Context {F : Type}.
Implicit Types (disk : Disk F) (table : gmap string Row).

(** One image of the loop: the identity and caption of the entry read
    from the database, what [_load_image_bytes], [embed_text] and
    [embed_image] answer for it ([None]: no success), and the clock at the
    update of its row. *)
Record image_item : Type := {
  image_id : string;
  item_caption : option string;
  bytes_loaded : bool;
  text_embedding : option (list F);
  image_embedding : option (list F);
  now : string }.

Record loop_state : Type := {
  faiss_store : FAISSStore F;
  images_table : gmap string Row;
  embedded : Z;
  errors : list embed_error }.

(** [if not image.caption] *)
Definition no_caption (c : option string) : bool :=
  match c with
  | None => true
  | Some EmptyString => true
  | Some _ => false
  end.

Definition with_errors (st : loop_state) (es : list embed_error) : loop_state :=
  {| faiss_store := faiss_store st; images_table := images_table st;
     embedded := embedded st; errors := errors st ++ es |}.

(** The body of the loop of [run_embedding_pipeline]. *)
Definition loop_body disk (st : loop_state) (image : image_item) : loop_state :=
  if no_caption (item_caption image) then st
  else if negb (bytes_loaded image) then with_errors st [LoadFailed (image_id image)]
  else
    match text_embedding image, image_embedding image with
    | Some text_vector, Some image_vector =>
        let '(store1, text_id) :=
          add_text_vector disk (faiss_store st) text_vector (image_id image) in
        let '(store2, image_id') :=
          add_image_vector disk store1 image_vector (image_id image) in
        match text_id, image_id' with
        | Some t, Some i =>
            {| faiss_store := store2;
               images_table :=
                 fst (update_vector_ids (now image) (images_table st) (image_id image)
                                        (Some t) (Some i));
               embedded := embedded st + 1;
               errors := errors st |}
        | _, _ =>
            {| faiss_store := store2; images_table := images_table st;
               embedded := embedded st; errors := errors st |}
        end
    | text_result, image_result =>
        with_errors st
          ((match text_result with None => [TextEmbedFailed] | Some _ => [] end)
             ++ (match image_result with None => [ImageEmbedFailed] | Some _ => [] end))
    end.

Definition run_loop disk (st : loop_state) (images : list image_item) : loop_state :=
  fold_left (loop_body disk) images st.

(** What [run_embedding_pipeline] leaves behind: the files, the store, the
    table and the fields of the job. *)
Record pipeline_result : Type := {
  disk_after : Disk F;
  store_after : FAISSStore F;
  table_after : gmap string Row;
  job_status : status;
  job_embedded : Z;
  job_errors : list embed_error }.

Definition run_embedding_pipeline disk (store : FAISSStore F) table
           (model_loads : bool) (images : list image_item) : pipeline_result :=
  if negb model_loads then
    {| disk_after := disk; store_after := store; table_after := table;
       job_status := FAILED; job_embedded := 0; job_errors := [] |}
  else
    let '(store, ok) := load_indices disk store in
    if negb ok then
      {| disk_after := disk; store_after := store; table_after := table;
         job_status := FAILED; job_embedded := 0; job_errors := [] |}
    else
      match images with
      | [] =>
          {| disk_after := disk; store_after := store; table_after := table;
             job_status := COMPLETED; job_embedded := 0; job_errors := [] |}
      | _ =>
          let st := run_loop disk {| faiss_store := store; images_table := table;
                                     embedded := 0; errors := [] |} images in
          {| disk_after := fst (save_indices disk (faiss_store st));
             store_after := faiss_store st;
             table_after := images_table st;
             job_status := COMPLETED;
             job_embedded := embedded st;
             job_errors := take 10 (errors st) |}
      end.

(** The vector ids of every row are the ones the store holds for the
    identity of the row. *)
Definition consistent table (store : FAISSStore F) : Prop :=
  forall (id : string) (row : Row),
    table !! id = Some row ->
    (forall v, text_vector_id row = Some v -> _image_id_to_text_vector store !! id = Some v) /\
    (forall v, image_vector_id row = Some v -> _image_id_to_image_vector store !! id = Some v).

(** A row that holds both vector ids. *)
Definition has_both_ids table (id : string) : Prop :=
  exists row t i,
    table !! id = Some row /\ text_vector_id row = Some t /\ image_vector_id row = Some i.

(** An image the loop can embed in a store of dimension [dim]. *)
Definition embeddable (dim : nat) (image : image_item) : Prop :=
  no_caption (item_caption image) = false /\ bytes_loaded image = true /\
  exists text_vector image_vector,
    text_embedding image = Some text_vector /\ image_embedding image = Some image_vector /\
    length text_vector = dim /\ length image_vector = dim /\ dim <> 0%nat.

End Pipeline.

(** One captioned row and the image the pipeline is given for it. *)
Definition sunset_table : gmap string Row :=
  {[ "sunset"%string :=
       {| firebase_url := Some "file:///mock/sunset.jpg"%string;
          original_date := "2021-07-04T18:30:00"%string; location := None;
          user_id := "me"%string; caption := Some "a sunset"%string;
          text_vector_id := None; image_vector_id := None;
          created_at := "2024-01-01T00:00:00"%string;
          updated_at := "2024-01-01T00:00:00"%string |} ]}.

Definition sunset_item : image_item (F:=Q) :=
  {| image_id := "sunset"%string; item_caption := Some "a sunset"%string;
     bytes_loaded := true; text_embedding := Some [1%Q; 0%Q];
     image_embedding := Some [0%Q; 1%Q]; now := "2024-01-02T00:00:00"%string |}.

End Embeddings.

(** * [app/api/query.py] *)

Module Query.
Import FaissStore Indexer.

Record ImageResult : Type := {
  res_image_id : string;
  res_firebase_url : string;
  res_original_date : string;
  res_location : option string;
  res_caption : option string;
  res_score : Q }.

(** What [search_images] answers: a [QueryResponse] (without the clock
    reading), or the [HTTPException] with status 500. *)
Inductive response : Type :=
| QueryResponse (results : list ImageResult) (total_results : Z)
| HTTPException500.

(** The body of the loop over the search results: [get_image_metadata],
    and the result when there is a row with a URL.  The dates of a row are
    texts written by [isoformat] and are taken to read back. *)
Definition image_result (table : gmap string Row) (hit : string * Q) : option ImageResult :=
  match table !! fst hit with
  | Some image_meta =>
      match firebase_url image_meta with
      | Some url =>
          if truthy url then
            Some {| res_image_id := fst hit; res_firebase_url := url;
                    res_original_date := original_date image_meta;
                    res_location := location image_meta;
                    res_caption := caption image_meta;
                    res_score := snd hit |}
          else None
      | None => None
      end
  | None => None
  end.

(** [search_images]; [embed_result] is the embedding of the query when
    [embed_text] succeeds. *)
Definition search_images (disk : Disk Q) (faiss_store : FAISSStore Q)
           (table : gmap string Row) (embed_result : option (list Q)) (top_k : nat)
  : FAISSStore Q * response :=
  let text_count := get_text_vector_count faiss_store in
  let image_count := get_image_vector_count faiss_store in
  if (text_count =? 0) && (image_count =? 0) then (faiss_store, QueryResponse [] 0)
  else
    match embed_result with
    | None => (faiss_store, HTTPException500)
    | Some query_vector =>
        let '(faiss_store, r) :=
          hybrid_search disk faiss_store query_vector top_k
                        default_text_weight default_image_weight in
        match r with
        | Raise _ => (faiss_store, HTTPException500)
        | Return search_results =>
            let results := omap (image_result table) search_results in
            (faiss_store, QueryResponse results (Z.of_nat (length results)))
        end
    end.

End Query.

(** * Runs of adds with what they return *)

Module Runs.
Import FaissStore.
Section Returned.
Context {F : Type}.

(** The calls of a sequence, in program order, each with the
    [Optional[int]] it returned; the store they end in is
    [run_adds disk calls self]. *)
Fixpoint returned (disk : Disk F) (calls : list call) (self : FAISSStore F)
  : list (call * option Z) :=
  match calls with
  | [] => []
  | c :: calls' =>
      (c, snd (add_vector disk (fst (fst c)) self (snd (fst c)) (snd c)))
        :: returned disk calls' (fst (add_vector disk (fst (fst c)) self (snd (fst c)) (snd c)))
  end.

End Returned.
End Runs.

(** * Sample files and indices *)

Module Samples.
Import FaissStore.

(** Two empty indices beside a mapping file that names a text vector 0. *)
Definition disk_stale : Disk Q :=
  {| faiss_importable := true;
     text_path := Stored {| d := 1; xb := [] |};
     image_path := Stored {| d := 1; xb := [] |};
     mapping_path := Stored {| text_to_image := Some [("0"%string, "old"%string)];
                               image_to_image := Some [] |} |}.

Definition stale_store : FAISSStore Q := fst (load_indices disk_stale (init 1)).


(** The files written from the store of the A/B example. *)
Definition disk_ab : Disk Q := fst (Persist.save_indices disk_empty ab_store).

(** A table with a row for item A only. *)
Definition ab_table : gmap string Indexer.Row :=
  {[ "A"%string :=
       {| Indexer.firebase_url := Some "file:///mock/A.jpg"%string;
          Indexer.original_date := "2021-07-04T18:30:00"%string;
          Indexer.location := None; Indexer.user_id := "me"%string;
          Indexer.caption := Some "item A"%string;
          Indexer.text_vector_id := Some 0; Indexer.image_vector_id := Some 0;
          Indexer.created_at := "2024-01-01T00:00:00"%string;
          Indexer.updated_at := "2024-01-02T00:00:00"%string |} ]}.

Definition three_rows : Index Q :=
  {| d := 2; xb := [[1%Q; 0%Q]; [0%Q; 1%Q]; [1%Q; 1%Q]] |}.

End Samples.

(** * Properties *)

(** ** Identity hashing *)

Section HashingFacts.
Import Sha256 Hashing.

(** The derived constants are the published ones. *)
Example round_constants :
  length K = 64%nat /\ nth 0 K 0 = 0x428a2f98 /\ nth 63 K 0 = 0xc67178f2.
Proof. vm_compute. repeat split. Qed.

Example initial_hash : ra H0 = 0x6a09e667 /\ rh H0 = 0x5be0cd19.
Proof. vm_compute. repeat split. Qed.

(** The implementation agrees with the published test vectors. *)
Example sha256_abc :
  hexdigest (sha256 (bytes_of_string "abc"))
  = "ba7816bf8f01cfea414140de5dae2223b00361a396177a9cb410ff61f20015ad"%string.
Proof. vm_compute. reflexivity. Qed.

Example sha256_empty :
  hexdigest (sha256 [])
  = "e3b0c44298fc1c149afbf4c8996fb92427ae41e4649b934ca495991b7852b855"%string.
Proof. vm_compute. reflexivity. Qed.

Example sha256_two_blocks :
  hexdigest (sha256 (bytes_of_string
                       "abcdbcdecdefdefgefghfghighijhijkijkljklmklmnlmnomnopnopq"))
  = "248d6a61d20638b8e5c026930c3e6039a33ce45964ff2167f6ecedd419db06c1"%string.
Proof. vm_compute. reflexivity. Qed.

Lemma land_15_range (x : Z) : 0 <= Z.land x 0xF < 16.
Proof.
  change 0xF with (Z.ones 4). rewrite Z.land_ones by lia.
  apply Z.mod_pos_bound. reflexivity.
Qed.

Lemma hex_digit_lower (n : Z) : 0 <= n < 16 -> is_lower_hex_digit (hex_digit n) = true.
Proof.
  intros Hn.
  assert (Hall : forallb (fun i => is_lower_hex_digit (hex_digit (Z.of_nat i))) (seq 0 16)
                 = true) by reflexivity.
  rewrite forallb_forall in Hall.
  rewrite <- (Z2Nat.id n) by lia. apply Hall, in_seq. lia.
Qed.

Lemma hex_word_length (x : Z) : length (hex_word x) = 8%nat.
Proof. unfold hex_word. rewrite length_map. reflexivity. Qed.

Lemma hex_word_lower (x : Z) : forallb is_lower_hex_digit (hex_word x) = true.
Proof.
  unfold hex_word. apply forallb_forall. intros c Hc.
  apply in_map_iff in Hc as (i & <- & _).
  apply hex_digit_lower, land_15_range.
Qed.

Lemma string_of_list_length (l : list ascii) :
  String.length (string_of_list_ascii l) = length l.
Proof. induction l as [| c l IH]; simpl; congruence. Qed.

Lemma hexdigest_length (h : regs) : String.length (hexdigest h) = 64%nat.
Proof.
  unfold hexdigest. rewrite string_of_list_length.
  rewrite !length_app, !hex_word_length. reflexivity.
Qed.

Lemma hexdigest_lower (h : regs) :
  forallb is_lower_hex_digit (list_ascii_of_string (hexdigest h)) = true.
Proof.
  unfold hexdigest. rewrite list_ascii_of_string_of_list_ascii.
  rewrite !forallb_app, !hex_word_lower. reflexivity.
Qed.

Lemma add32_ok (a b : Z) : word_ok (add32 a b).
Proof.
  unfold word_ok, add32, w32, mask32. change 0xFFFFFFFF with (Z.ones 32).
  rewrite Z.land_ones by lia. apply Z.mod_pos_bound. reflexivity.
Qed.

Lemma compress_ok (h : regs) (block : list Z) : regs_ok (compress h block).
Proof. unfold compress, regs_ok; cbn [ra rb rc rd re rf rg rh]. repeat split; apply add32_ok. Qed.

Lemma absorb_ok (l : list Z) :
  forall h buf n, regs_ok h -> regs_ok (absorb h buf n l).
Proof.
  induction l as [| b l IH]; intros h buf n Hh; simpl; [exact Hh |].
  destruct n; apply IH; [apply compress_ok | exact Hh].
Qed.

Lemma sha256_ok (msg : list byte) : regs_ok (sha256 msg).
Proof.
  apply absorb_ok. unfold regs_ok, word_ok, H0; cbn [ra rb rc rd re rf rg rh].
  repeat split; by vm_compute.
Qed.

(** C6.  [compute_image_id] raises exactly on the empty byte string; on
    every other input it returns the hexadecimal rendering of the SHA-256
    digest (eight 32-bit words, 256 bits), a string of 64 characters taken
    from [0-9a-f]; equal inputs give equal identities. *)
Theorem compute_image_id_spec (image_bytes : list byte) :
  ((exists e, compute_image_id image_bytes = Raise e) <-> image_bytes = []) /\
  (image_bytes = [] -> compute_image_id image_bytes = Raise ValueError) /\
  (image_bytes <> [] ->
     exists image_id,
       compute_image_id image_bytes = Return image_id /\
       image_id = hexdigest (sha256 image_bytes) /\
       regs_ok (sha256 image_bytes) /\
       String.length image_id = 64%nat /\
       forallb is_lower_hex_digit (list_ascii_of_string image_id) = true) /\
  (forall other, image_bytes = other ->
     compute_image_id image_bytes = compute_image_id other).
Proof.
  repeat split.
  - intros [e He]. destruct image_bytes; [reflexivity | discriminate He].
  - intros ->. exists ValueError. reflexivity.
  - intros ->. reflexivity.
  - intros Hne. exists (hexdigest (sha256 image_bytes)).
    destruct image_bytes as [| b l]; [congruence |].
    split; [reflexivity |]. split; [reflexivity |].
    split; [apply sha256_ok |].
    split; [apply hexdigest_length | apply hexdigest_lower].
  - intros other ->. reflexivity.
Qed.

Lemma compute_image_id_spec_witness :
  bytes_of_string "abc" <> [] /\
  compute_image_id (bytes_of_string "abc")
  = Return "ba7816bf8f01cfea414140de5dae2223b00361a396177a9cb410ff61f20015ad"%string.
Proof.
  split; [discriminate |].
  destruct (compute_image_id_spec (bytes_of_string "abc")) as (_ & _ & H & _).
  destruct H as (image_id & -> & -> & _); [discriminate |].
  vm_compute. reflexivity.
Defined.

(** *** [is_valid_image_id] *)

(** C8.  [int(s, 16)] also reads a sign, a [0x] prefix, surrounding
    blanks and underscores between digits, so [is_valid_image_id] answers
    [True] on strings of 64 characters that are not all hexadecimal
    digits. *)
Theorem is_valid_image_id_accepts_non_hex :
  (String.length prefixed_id = 64%nat /\ hex_shape prefixed_id = false /\
   is_valid_image_id prefixed_id = true) /\
  (String.length signed_id = 64%nat /\ hex_shape signed_id = false /\
   is_valid_image_id signed_id = true) /\
  (String.length spaced_id = 64%nat /\ hex_shape spaced_id = false /\
   is_valid_image_id spaced_id = true) /\
  (String.length underscored_id = 64%nat /\ hex_shape underscored_id = false /\
   is_valid_image_id underscored_id = true).
Proof. vm_compute. repeat split. Qed.

(** The other direction holds: 64 hexadecimal digits are accepted, and a
    string of another length is rejected. *)
Lemma digit_value_hex (c : ascii) : is_hex_digit c = true -> 0 <= digit_value c < 16.
Proof. unfold is_hex_digit, digit_value. intros H. repeat case_match; lia. Qed.

Lemma scan_digits_hex (l : list ascii) :
  forallb is_hex_digit l = true ->
  forall acc n, exists v, scan_digits 16 false acc n l = Some (v, (n + length l)%nat, []).
Proof.
  induction l as [| c l IH]; intros Hall acc n; simpl in *.
  - exists acc. do 3 f_equal. lia.
  - apply andb_true_iff in Hall as [Hc Hl].
    pose proof (digit_value_hex c Hc) as Hd.
    assert (Hus : is_underscore c = false).
    { unfold is_underscore, is_hex_digit in *. lia. }
    rewrite Hus. destruct (Z.ltb_spec (digit_value c) 16); [| lia].
    destruct (IH Hl (acc * 16 + digit_value c) (S n)) as [v Hv].
    exists v. rewrite Hv. do 3 f_equal. lia.
Qed.

Lemma hex_shape_accepted (s : string) : hex_shape s = true -> is_valid_image_id s = true.
Proof.
  unfold hex_shape, is_valid_image_id, py_int. intros H.
  apply andb_true_iff in H as [Hlen Hall]. rewrite Hlen. simpl negb. cbv iota.
  assert (Hmap : map to_ascii_space (list_ascii_of_string s) = list_ascii_of_string s).
  { rewrite forallb_forall in Hall. rewrite <- (map_id (list_ascii_of_string s)) at 2.
    apply map_ext_in. intros c Hc. specialize (Hall c Hc).
    unfold to_ascii_space, is_hex_digit in *.
    destruct (code c =? 133) eqn:E1; [lia |]. destruct (code c =? 160) eqn:E2; [lia |].
    reflexivity. }
  rewrite Hmap. clear Hmap.
  apply Nat.eqb_eq in Hlen. rewrite <- (string_of_list_ascii_of_string s) in Hlen.
  rewrite string_of_list_length in Hlen.
  destruct (list_ascii_of_string s) as [| c0 [| c1 l]]; [discriminate | discriminate |].
  pose proof Hall as Hall'. simpl in Hall.
  apply andb_true_iff in Hall as [H0 Hall]. apply andb_true_iff in Hall as [H1 _].
  assert (Hsp : py_isspace c0 = false) by (unfold py_isspace, is_hex_digit in *; lia).
  assert (Hx : ((code c1 =? 120) || (code c1 =? 88)) = false)
    by (unfold is_hex_digit in *; lia).
  assert (Hus : is_underscore c0 = false) by (unfold is_underscore, is_hex_digit in *; lia).
  assert (Hp : (code c0 =? 43) = false) by (unfold is_hex_digit in *; lia).
  assert (Hm : (code c0 =? 45) = false) by (unfold is_hex_digit in *; lia).
  cbn [skip_spaces]. rewrite Hsp. cbn [skip_sign]. rewrite Hp, Hm.
  cbn [skip_prefix]. rewrite Hx, andb_false_r. rewrite Hus.
  destruct (scan_digits_hex _ Hall' 0 0%nat) as [v ->].
  reflexivity.
Qed.

Lemma wrong_length_rejected (s : string) :
  String.length s <> 64%nat -> is_valid_image_id s = false.
Proof.
  intros H. unfold is_valid_image_id.
  destruct (Nat.eqb_spec (String.length s) 64); [contradiction | reflexivity].
Qed.

End HashingFacts.

(** ** Deduplication registry *)

Section DedupFacts.
Import Hashing Dedup.
Implicit Types (self : DeduplicationService) (image_id : string).

Lemma is_duplicate_known self image_id :
  image_id ∈ _known_ids self -> is_duplicate self image_id = true.
Proof. intros H. unfold is_duplicate. by apply bool_decide_eq_true. Qed.

Lemma is_duplicate_unknown self image_id :
  image_id ∉ _known_ids self -> is_duplicate self image_id = false.
Proof. intros H. unfold is_duplicate. by apply bool_decide_eq_false. Qed.

Lemma known_count_insert self image_id :
  image_id ∉ _known_ids self ->
  get_known_count {| _known_ids := _known_ids self ∪ {[ image_id ]} |}
  = get_known_count self + 1.
Proof.
  intros H. unfold get_known_count. cbn [_known_ids].
  rewrite size_union by set_solver. rewrite size_singleton. lia.
Qed.

Lemma check_and_register_new self image_bytes image_id :
  get_image_id image_bytes = Return image_id ->
  image_id ∉ _known_ids self ->
  check_and_register self image_bytes
  = ({| _known_ids := _known_ids self ∪ {[ image_id ]} |}, Return (image_id, false)).
Proof.
  intros Hid Hnew. unfold check_and_register.
  rewrite Hid, (is_duplicate_unknown _ _ Hnew). reflexivity.
Qed.

Lemma check_and_register_dup self image_bytes image_id :
  get_image_id image_bytes = Return image_id ->
  image_id ∈ _known_ids self ->
  check_and_register self image_bytes = (self, Return (image_id, true)).
Proof.
  intros Hid Hold. unfold check_and_register.
  rewrite Hid, (is_duplicate_known _ _ Hold). reflexivity.
Qed.

(** C5.  When the identity of [image_bytes] is not registered, a first
    call answers [(image_id, False)], a second call with the same bytes
    answers [(image_id, True)] and leaves the registry as the first call
    left it, and the known count went up by one. *)
Theorem check_and_register_twice self image_bytes image_id :
  get_image_id image_bytes = Return image_id ->
  image_id ∉ _known_ids self ->
  exists self1,
    check_and_register self image_bytes = (self1, Return (image_id, false)) /\
    check_and_register self1 image_bytes = (self1, Return (image_id, true)) /\
    get_known_count self1 = get_known_count self + 1.
Proof.
  intros Hid Hnew.
  exists {| _known_ids := _known_ids self ∪ {[ image_id ]} |}.
  split; [by apply check_and_register_new |].
  split; [| by apply known_count_insert].
  apply check_and_register_dup; [done |]. cbn [_known_ids]. set_solver.
Qed.

Lemma get_image_id_abc : get_image_id (bytes_of_string "abc") = Return abc_id.
Proof. vm_compute. reflexivity. Qed.

Lemma check_and_register_twice_witness :
  exists self1,
    check_and_register {| _known_ids := ∅ |} (bytes_of_string "abc")
    = (self1, Return (abc_id, false)) /\
    check_and_register self1 (bytes_of_string "abc") = (self1, Return (abc_id, true)) /\
    get_known_count self1 = get_known_count {| _known_ids := ∅ |} + 1.
Proof.
  apply (check_and_register_twice {| _known_ids := ∅ |} (bytes_of_string "abc") abc_id).
  - vm_compute. reflexivity.
  - cbn [_known_ids]. apply not_elem_of_empty.
Defined.

(** *** Calls one after the other *)

Lemma call_n_known (n : nat) self image_bytes image_id :
  get_image_id image_bytes = Return image_id ->
  image_id ∈ _known_ids self ->
  call_n n self image_bytes = (self, replicate n (Return (image_id, true))).
Proof.
  intros Hid Hold. induction n as [| n IH]; [reflexivity |].
  cbn [call_n]. rewrite (check_and_register_dup _ _ _ Hid Hold), IH. reflexivity.
Qed.

(** The three statements of one caller, run without interruption, are
    the method. *)
Lemma step_thrice self image_bytes :
  let '(self1, c1) := step self (AtHash image_bytes) in
  let '(self2, c2) := step self1 c1 in
  let '(self3, c3) := step self2 c2 in
  (self3, c3) = (fst (check_and_register self image_bytes),
                 Finished (snd (check_and_register self image_bytes))).
Proof.
  unfold check_and_register. cbn [step].
  destruct (get_image_id image_bytes) as [image_id | e]; cbn [step]; [| reflexivity].
  destruct (is_duplicate self image_id); reflexivity.
Qed.

Lemma step_caller_middle self (before after : list caller) (c : caller) :
  step_caller (length before) (self, before ++ c :: after)
  = (fst (step self c), before ++ snd (step self c) :: after).
Proof.
  unfold step_caller. cbn [fst snd].
  rewrite list_lookup_middle by done. destruct (step self c) as [self' c'].
  cbn [fst snd]. f_equal.
  rewrite insert_app_r_alt by lia. by rewrite Nat.sub_diag.
Qed.

Lemma run_three_steps self (before after : list caller) image_bytes :
  run_schedule [length before; length before; length before]
               (self, before ++ AtHash image_bytes :: after)
  = (fst (check_and_register self image_bytes),
     before ++ Finished (snd (check_and_register self image_bytes)) :: after).
Proof.
  unfold run_schedule. cbn [fold_left]. rewrite !step_caller_middle.
  unfold check_and_register. cbn [step].
  destruct (get_image_id image_bytes) as [image_id | e]; cbn [step fst snd]; [| done].
  destruct (is_duplicate self image_id); done.
Qed.

Lemma run_serial_from (m : nat) image_bytes :
  forall self (before : list caller),
    run_schedule (flat_map (fun i => [i; i; i]) (seq (length before) m))
                 (self, before ++ replicate m (AtHash image_bytes))
    = (fst (call_n m self image_bytes),
       before ++ map Finished (snd (call_n m self image_bytes))).
Proof.
  induction m as [| m IH]; intros self before; [done |].
  cbn [seq flat_map replicate call_n]. unfold run_schedule in *.
  rewrite fold_left_app.
  pose proof (run_three_steps self before (replicate m (AtHash image_bytes)) image_bytes)
    as H3.
  unfold run_schedule in H3. rewrite H3. clear H3.
  destruct (check_and_register self image_bytes) as [self1 r]. cbn [fst snd].
  rewrite cons_middle, app_assoc.
  replace (S (length before)) with (length (before ++ [Finished r]))
    by (rewrite length_app; simpl; lia).
  rewrite IH. destruct (call_n m self1 image_bytes) as [self2 rs]. cbn [fst snd map].
  by rewrite <- app_assoc.
Qed.

(** The interleaving semantics under the serial schedule is the sequence
    of calls. *)
Lemma run_serial (n : nat) self image_bytes :
  run_schedule (serial_schedule n) (start n self image_bytes)
  = (fst (call_n n self image_bytes), map Finished (snd (call_n n self image_bytes))).
Proof. apply (run_serial_from n image_bytes self []). Qed.

Lemma map_finished_replicate (n : nat) (r : outcome (string * bool)) :
  map Finished (replicate n r) = replicate n (Finished r).
Proof. induction n as [| n IH]; [done | cbn; by f_equal]. Qed.

Lemma new_results_dups (n : nat) image_id :
  new_results (replicate n (Finished (Return (image_id, true)))) = 0%nat.
Proof. induction n as [| n IH]; [done | exact IH]. Qed.

(** *** Every schedule *)

Lemma new_results_insert (cs : list caller) (i : nat) (c c' : caller) :
  cs !! i = Some c -> got_new c = false ->
  new_results (<[ i := c' ]> cs)
  = (new_results cs + (if got_new c' then 1 else 0))%nat.
Proof.
  unfold new_results. revert i. induction cs as [| c0 cs IH]; intros [| i] Hi Hc; try done.
  - injection Hi as ->. cbn [List.filter]. unfold insert; cbn. rewrite Hc.
    destruct (got_new c'); cbn; lia.
  - cbn in Hi. change (<[S i := c']> (c0 :: cs)) with (c0 :: <[i := c']> cs).
    cbn [List.filter]. destruct (got_new c0); cbn [length]; rewrite (IH i Hi Hc); lia.
Qed.

Lemma caller_ok_mono image_bytes image_id (known known' : gset string) (c : caller) :
  known ⊆ known' -> caller_ok image_bytes image_id known c ->
  caller_ok image_bytes image_id known' c.
Proof.
  intros Hsub. destruct c as [| | | [[i b] | e]]; cbn; try done.
  intros [-> Hin]. split; [done | by apply Hsub].
Qed.

Lemma race_inv_start (n : nat) self image_bytes image_id :
  image_id ∉ _known_ids self ->
  race_inv (_known_ids self) image_bytes image_id n (start n self image_bytes).
Proof.
  intros Hnew. unfold race_inv, start. cbn [fst snd].
  split; [apply length_replicate |].
  split; [apply Forall_replicate; done |].
  split; [by left | done].
Qed.

Lemma race_inv_step (old : gset string) image_bytes image_id (n i : nat) (cfg : config) :
  get_image_id image_bytes = Return image_id ->
  race_inv old image_bytes image_id n cfg ->
  race_inv old image_bytes image_id n (step_caller i cfg).
Proof.
  intros Hid (Hlen & Hall & Hreg & Hone). destruct cfg as [self cs]. cbn [fst snd] in *.
  unfold step_caller. cbn [fst snd].
  destruct (cs !! i) as [c |] eqn:Hi; [| done].
  pose proof (Forall_lookup_1 _ _ _ _ Hall Hi) as Hc.
  destruct c as [b | id1 | id1 | r]; cbn [step caller_ok] in *.
  - subst b. rewrite Hid. unfold race_inv. cbn [fst snd].
    split; [by rewrite length_insert |].
    split; [by apply Forall_insert |].
    split; [done |]. intros Hin. rewrite (new_results_insert _ _ _ _ Hi) by done.
    cbn. specialize (Hone Hin). lia.
  - subst id1. unfold is_duplicate.
    destruct (bool_decide_reflect (image_id ∈ _known_ids self)) as [Hin | Hnin];
      unfold race_inv; cbn [fst snd].
    + split; [by rewrite length_insert |].
      split; [by apply Forall_insert |].
      split; [done |]. intros _. rewrite (new_results_insert _ _ _ _ Hi) by done.
      cbn. specialize (Hone Hin). lia.
    + split; [by rewrite length_insert |].
      split; [by apply Forall_insert |].
      split; [done |]. intros Hin. done.
  - subst id1. unfold race_inv. cbn [fst snd _known_ids].
    split; [by rewrite length_insert |].
    split.
    { apply Forall_insert.
      - eapply Forall_impl; [exact Hall |]. intros c. apply caller_ok_mono.
        apply union_subseteq_l.
      - cbn. split; [done |]. apply elem_of_union_r. by apply elem_of_singleton. }
    split.
    { right. destruct Hreg as [-> | ->]; [done |].
      by rewrite <- (assoc_L (∪)), (idemp_L (∪)). }
    intros _. rewrite (new_results_insert _ _ _ _ Hi) by done. cbn. lia.
  - rewrite list_insert_id by done. done.
Qed.

Lemma race_inv_run (old : gset string) image_bytes image_id (n : nat) (sched : list nat) :
  get_image_id image_bytes = Return image_id ->
  forall cfg, race_inv old image_bytes image_id n cfg ->
              race_inv old image_bytes image_id n (run_schedule sched cfg).
Proof.
  intros Hid. unfold run_schedule.
  induction sched as [| i sched IH]; intros cfg Hinv; [done |].
  cbn [fold_left]. apply IH. by apply race_inv_step.
Qed.

Lemma race_inv_finished (old : gset string) image_bytes image_id (n : nat) (cfg : config) :
  image_id ∉ old ->
  race_inv old image_bytes image_id (S n) cfg ->
  forallb is_finished (snd cfg) = true ->
  (1 <= new_results (snd cfg))%nat /\ _known_ids (fst cfg) = old ∪ {[ image_id ]}.
Proof.
  intros Hnew (Hlen & Hall & Hreg & Hone) Hfin.
  destruct (snd cfg) as [| c cs] eqn:Hcs; [done |].
  cbn in Hfin. apply andb_true_iff in Hfin as [Hc _].
  apply Forall_cons in Hall as [Hok _].
  destruct c as [| | | [[i b] | e]]; try done.
  destruct Hok as [_ Hin]. split; [by apply Hone |].
  destruct Hreg as [Hreg | Hreg]; [| done]. rewrite Hreg in Hin. done.
Qed.

(** C9, as the code has it.  [check_and_register] holds no lock.  Of
    [n + 1] callers with the same bytes, from a registry that does not
    know the identity, at least one is answered [False] under every
    schedule, and the registry ends as the old one with that identity
    added.  When the calls run one after the other, the schedule in which
    no caller is interrupted, exactly the first is answered [False] and the
    [n] others [True], and the known count is one higher. *)
Theorem check_and_register_serial (n : nat) self image_bytes image_id :
  get_image_id image_bytes = Return image_id ->
  image_id ∉ _known_ids self ->
  (forall sched : list nat,
      let cfg := run_schedule sched (start (S n) self image_bytes) in
      forallb is_finished (snd cfg) = true ->
      (1 <= new_results (snd cfg))%nat /\
      _known_ids (fst cfg) = _known_ids self ∪ {[ image_id ]}) /\
  call_n (S n) self image_bytes
  = ({| _known_ids := _known_ids self ∪ {[ image_id ]} |},
     Return (image_id, false) :: replicate n (Return (image_id, true))) /\
  get_known_count (fst (call_n (S n) self image_bytes)) = get_known_count self + 1 /\
  run_schedule (serial_schedule (S n)) (start (S n) self image_bytes)
  = ({| _known_ids := _known_ids self ∪ {[ image_id ]} |},
     Finished (Return (image_id, false))
       :: replicate n (Finished (Return (image_id, true)))) /\
  new_results (snd (run_schedule (serial_schedule (S n)) (start (S n) self image_bytes)))
  = 1%nat.
Proof.
  intros Hid Hnew.
  assert (Hcalls : call_n (S n) self image_bytes
                   = ({| _known_ids := _known_ids self ∪ {[ image_id ]} |},
                      Return (image_id, false) :: replicate n (Return (image_id, true)))).
  { cbn [call_n]. rewrite (check_and_register_new _ _ _ Hid Hnew).
    rewrite (call_n_known n _ _ image_id Hid); [reflexivity |].
    cbn [_known_ids]. set_solver. }
  assert (Hrun : run_schedule (serial_schedule (S n)) (start (S n) self image_bytes)
                 = ({| _known_ids := _known_ids self ∪ {[ image_id ]} |},
                    Finished (Return (image_id, false))
                      :: replicate n (Finished (Return (image_id, true))))).
  { rewrite run_serial, Hcalls. cbn [fst snd map]. by rewrite map_finished_replicate. }
  split.
  { intros sched cfg Hfin. apply (race_inv_finished _ image_bytes image_id n); [done | | done].
    apply race_inv_run; [done |]. by apply race_inv_start. }
  split; [exact Hcalls |].
  split; [rewrite Hcalls; cbn [fst]; by apply known_count_insert |].
  split; [exact Hrun |].
  rewrite Hrun. cbn [snd]. unfold new_results. cbn [List.filter got_new length].
  f_equal. apply new_results_dups.
Qed.

Lemma check_and_register_serial_witness :
  call_n 3 {| _known_ids := ∅ |} (bytes_of_string "abc")
  = ({| _known_ids := ∅ ∪ {[ abc_id ]} |},
     [Return (abc_id, false); Return (abc_id, true); Return (abc_id, true)]) /\
  new_results (snd (run_schedule (serial_schedule 3)
                                 (start 3 {| _known_ids := ∅ |} (bytes_of_string "abc"))))
  = 1%nat.
Proof.
  destruct (check_and_register_serial 2 {| _known_ids := ∅ |} (bytes_of_string "abc") abc_id)
    as (_ & Hc & _ & _ & Hn).
  - vm_compute. reflexivity.
  - cbn [_known_ids]. apply not_elem_of_empty.
  - split; [exact Hc | exact Hn].
Defined.

(** C9, as stated, fails: two callers whose membership tests both run
    before either insertion are both told that the content is new. *)
Lemma check_and_register_race :
  let cfg := run_schedule racy_schedule
               (start 2 {| _known_ids := ∅ |} (bytes_of_string "abc")) in
  snd cfg = [Finished (Return (abc_id, false)); Finished (Return (abc_id, false))] /\
  forallb is_finished (snd cfg) = true /\
  new_results (snd cfg) = 2%nat /\
  new_results (snd cfg) <> 1%nat.
Proof. vm_compute. repeat split; discriminate. Qed.

End DedupFacts.

(** ** Vector store: adding vectors *)

Section StoreFacts.
Import FaissStore.
Context {F : Type}.
Implicit Types (self : FAISSStore F) (disk : Disk F) (k : kind)
         (vector : list F) (image_id : string).

Lemma ensure_loaded_loaded disk self :
  _is_loaded self = true -> _ensure_loaded disk self = (self, true).
Proof. intros H. unfold _ensure_loaded. rewrite H. reflexivity. Qed.

Lemma reshape_row_nonempty vector : vector <> [] -> reshape_row vector = Some vector.
Proof. reflexivity. Qed.

Lemma reshape_row_some vector vec : reshape_row vector = Some vec -> vec = vector.
Proof. unfold reshape_row. congruence. Qed.

Lemma index_add_ok (index : Index F) vector :
  length vector = d index ->
  index_add index vector = Some {| d := d index; xb := xb index ++ [vector] |}.
Proof. intros H. unfold index_add. rewrite H, Nat.eqb_refl. reflexivity. Qed.

Lemma index_add_mismatch (index : Index F) vector :
  length vector <> d index -> index_add index vector = None.
Proof.
  intros H. unfold index_add.
  destruct (Nat.eqb_spec (length vector) (d index)); [contradiction | reflexivity].
Qed.

Lemma ntotal_add (index : Index F) vector :
  ntotal {| d := d index; xb := xb index ++ [vector] |} = ntotal index + 1.
Proof. unfold ntotal. cbn [xb]. rewrite length_app. simpl. lia. Qed.

(** The step of [add_vector] on a loaded store, case by case. *)
Lemma add_vector_existing disk k self vector image_id vector_id :
  _is_loaded self = true ->
  image_id_to_vector k self !! image_id = Some vector_id ->
  add_vector disk k self vector image_id = (self, Some vector_id).
Proof.
  intros Hl Hin. destruct k; cbn [add_vector image_id_to_vector] in *.
  - unfold add_text_vector. rewrite (ensure_loaded_loaded _ _ Hl). cbn.
    rewrite Hin. reflexivity.
  - unfold add_image_vector. rewrite (ensure_loaded_loaded _ _ Hl). cbn.
    rewrite Hin. reflexivity.
Qed.

Lemma add_vector_fresh disk k self vector image_id index :
  _is_loaded self = true ->
  image_id_to_vector k self !! image_id = None ->
  index_of k self = Some index ->
  length vector = d index ->
  vector <> [] ->
  add_vector disk k self vector image_id
  = (appended k self {| d := d index; xb := xb index ++ [vector] |} image_id (ntotal index),
     Some (ntotal index)).
Proof.
  intros Hl Hin Hidx Hlen Hne.
  destruct k; cbn [add_vector image_id_to_vector index_of appended] in *.
  - unfold add_text_vector. rewrite (ensure_loaded_loaded _ _ Hl). cbn.
    rewrite Hin, (reshape_row_nonempty _ Hne), Hidx, (index_add_ok _ _ Hlen). reflexivity.
  - unfold add_image_vector. rewrite (ensure_loaded_loaded _ _ Hl). cbn.
    rewrite Hin, (reshape_row_nonempty _ Hne), Hidx, (index_add_ok _ _ Hlen). reflexivity.
Qed.

Lemma add_vector_cases disk k self vector image_id :
  _is_loaded self = true ->
  (exists vector_id, add_vector disk k self vector image_id = (self, Some vector_id) /\
                     image_id_to_vector k self !! image_id = Some vector_id) \/
  add_vector disk k self vector image_id = (self, None) \/
  (exists index, index_of k self = Some index /\
                 image_id_to_vector k self !! image_id = None /\
                 add_vector disk k self vector image_id
                 = (appended k self {| d := d index; xb := xb index ++ [vector] |}
                             image_id (ntotal index), Some (ntotal index))).
Proof.
  intros Hl.
  destruct (image_id_to_vector k self !! image_id) as [vector_id |] eqn:Hin.
  { left. exists vector_id. split; [by apply add_vector_existing | done]. }
  right.
  destruct k; cbn [add_vector image_id_to_vector index_of appended] in *.
  - unfold add_text_vector. rewrite (ensure_loaded_loaded _ _ Hl). cbn. rewrite Hin.
    destruct (reshape_row vector) as [vec |] eqn:Hr; [| by left].
    apply reshape_row_some in Hr as ->.
    destruct (_text_index self) as [index |]; [| by left].
    unfold index_add. destruct (length vector =? d index)%nat; [| by left].
    right. exists index. done.
  - unfold add_image_vector. rewrite (ensure_loaded_loaded _ _ Hl). cbn. rewrite Hin.
    destruct (reshape_row vector) as [vec |] eqn:Hr; [| by left].
    apply reshape_row_some in Hr as ->.
    destruct (_image_index self) as [index |]; [| by left].
    unfold index_add. destruct (length vector =? d index)%nat; [| by left].
    right. exists index. done.
Qed.

Lemma appended_loaded k self index' image_id vector_id :
  _is_loaded (appended k self index' image_id vector_id) = _is_loaded self.
Proof. by destruct k. Qed.

Lemma appended_lookup k self index' image_id vector_id :
  image_id_to_vector k (appended k self index' image_id vector_id) !! image_id
  = Some vector_id.
Proof. destruct k; cbn; apply lookup_insert_eq. Qed.

Lemma vector_count_loaded k self index :
  _is_loaded self = true -> index_of k self = Some index ->
  vector_count k self = ntotal index.
Proof.
  intros Hl Hidx. destruct k; cbn in *;
    [unfold get_text_vector_count | unfold get_image_vector_count];
    rewrite Hl, Hidx; reflexivity.
Qed.

Lemma appended_index k self index' image_id vector_id :
  index_of k (appended k self index' image_id vector_id) = Some index'.
Proof. by destruct k. Qed.

(** *** Stores that are not loaded *)

Lemma store_wf_init (dimension : nat) : store_wf (init (F:=F) dimension).
Proof. intros _. done. Qed.

Lemma create_indices_outcome disk self :
  _is_loaded (fst (create_indices disk self)) = true \/
  create_indices disk self = (self, false).
Proof. unfold create_indices. destruct (faiss_importable disk); [by left | by right]. Qed.

Lemma load_indices_outcome disk self :
  _is_loaded (fst (load_indices disk self)) = true \/
  load_indices disk self = (self, false).
Proof.
  unfold load_indices, create_indices.
  destruct (faiss_importable disk) eqn:Hf; cbn [negb]; [| by right].
  destruct (negb (exists_ (text_path disk)) || negb (exists_ (image_path disk)));
    [by left |].
  destruct (load_body disk self) as [self' ok] eqn:Hb.
  destruct ok; [| by left].
  left. cbn [fst]. unfold load_body in Hb.
  destruct (text_path disk); try by inversion Hb.
  destruct (image_path disk); try by inversion Hb.
  destruct (mapping_path disk) as [| | mappings]; try by inversion Hb.
  destruct (forward_items (text_to_image mappings)); [| by inversion Hb].
  destruct (forward_items (image_to_image mappings)); by inversion Hb.
Qed.

Lemma store_wf_loaded self : _is_loaded self = true -> store_wf self.
Proof. intros H H'. congruence. Qed.

Lemma store_wf_create disk self : store_wf self -> store_wf (fst (create_indices disk self)).
Proof.
  intros Hwf. destruct (create_indices_outcome disk self) as [H | ->];
    [by apply store_wf_loaded | done].
Qed.

Lemma store_wf_load disk self : store_wf self -> store_wf (fst (load_indices disk self)).
Proof.
  intros Hwf. destruct (load_indices_outcome disk self) as [H | ->];
    [by apply store_wf_loaded | done].
Qed.

Lemma add_vector_outcome disk k self vector image_id :
  _is_loaded (fst (add_vector disk k self vector image_id)) = true \/
  add_vector disk k self vector image_id = (self, None).
Proof.
  destruct (_is_loaded self) eqn:Hl.
  - left. destruct (add_vector_cases disk k self vector image_id Hl)
      as [(vector_id & -> & _) | [-> | (index & _ & _ & ->)]]; cbn [fst];
      [done | done | by rewrite appended_loaded].
  - destruct (load_indices_outcome disk self) as [H | H].
    + left. destruct (load_indices disk self) as [self' ok] eqn:Hload. cbn [fst] in H.
      assert (Hstep : add_vector disk k self vector image_id
                      = if ok then add_vector disk k self' vector image_id else (self', None)).
      { destruct k; cbn [add_vector]; [unfold add_text_vector | unfold add_image_vector];
          unfold _ensure_loaded; rewrite Hl, H; cbn [negb]; rewrite Hload;
          destruct ok; cbn [negb]; reflexivity. }
      rewrite Hstep. destruct ok; [| done].
      destruct (add_vector_cases disk k self' vector image_id H)
        as [(vector_id & -> & _) | [-> | (index & _ & _ & ->)]]; cbn [fst];
        [done | done | by rewrite appended_loaded].
    + right. destruct k; cbn [add_vector]; [unfold add_text_vector | unfold add_image_vector];
        unfold _ensure_loaded; rewrite Hl; cbn [negb]; rewrite H; reflexivity.
Qed.

Lemma store_wf_add disk k self vector image_id :
  store_wf self -> store_wf (fst (add_vector disk k self vector image_id)).
Proof.
  intros Hwf. destruct (add_vector_outcome disk k self vector image_id) as [H | ->];
    [by apply store_wf_loaded | done].
Qed.



(** The first call on a store that is not loaded loads it. *)
Lemma add_vector_loads disk k self self' vector image_id (ok : bool) :
  _is_loaded self = false ->
  load_indices disk self = (self', ok) ->
  add_vector disk k self vector image_id
  = (if ok then add_vector disk k self' vector image_id else (self', None)) /\
  (ok = true -> _is_loaded self' = true).
Proof.
  intros Hl Hload.
  assert (Hl' : ok = true -> _is_loaded self' = true).
  { intros ->. destruct (load_indices_outcome disk self) as [H | H];
      rewrite Hload in H; [exact H | congruence]. }
  split; [| exact Hl'].
  destruct ok.
  - specialize (Hl' eq_refl).
    destruct k; cbn [add_vector]; [unfold add_text_vector | unfold add_image_vector];
      unfold _ensure_loaded; rewrite Hl, Hl'; cbn [negb]; rewrite Hload; reflexivity.
  - destruct k; cbn [add_vector]; [unfold add_text_vector | unfold add_image_vector];
      unfold _ensure_loaded; rewrite Hl; cbn [negb]; rewrite Hload; reflexivity.
Qed.

(** A call that returns an id leaves a loaded store that maps the
    identity to that id. *)
Lemma add_vector_returned disk k self self1 vector image_id vector_id :
  add_vector disk k self vector image_id = (self1, Some vector_id) ->
  _is_loaded self1 = true /\ image_id_to_vector k self1 !! image_id = Some vector_id.
Proof.
  assert (Hgen : forall s, _is_loaded s = true ->
                           add_vector disk k s vector image_id = (self1, Some vector_id) ->
                           _is_loaded self1 = true /\
                           image_id_to_vector k self1 !! image_id = Some vector_id).
  { intros s Hl Hadd.
    destruct (add_vector_cases disk k s vector image_id Hl)
      as [(v & Hc & Hin) | [Hc | (index & _ & _ & Hc)]];
      rewrite Hc in Hadd; simplify_eq; [done | ].
    split; [by rewrite appended_loaded | apply appended_lookup]. }
  destruct (_is_loaded self) eqn:Hl; [by apply Hgen |].
  destruct (load_indices disk self) as [self' ok] eqn:Hload.
  destruct (add_vector_loads disk k self self' vector image_id ok Hl Hload) as [-> Hl'].
  destruct ok; [| discriminate]. by apply Hgen, Hl'.
Qed.


(** *** Density *)

Lemma maps_dense_empty : maps_dense (∅ : gmap Z string) (∅ : gmap string Z) 0.
Proof.
  split; [| split].
  - intros vector_id. rewrite lookup_empty. split; [intros [x Hx]; discriminate | lia].
  - apply map_size_empty.
  - intros vector_id image_id. rewrite !lookup_empty. split; discriminate.
Qed.

Lemma maps_dense_insert (fwd : gmap Z string) (rev : gmap string Z) (n : nat) image_id :
  maps_dense fwd rev n ->
  rev !! image_id = None ->
  maps_dense (<[ Z.of_nat n := image_id ]> fwd) (<[ image_id := Z.of_nat n ]> rev) (S n).
Proof.
  intros (Hdom & Hsize & Hbij) Hnew.
  assert (Hn : fwd !! Z.of_nat n = None).
  { destruct (fwd !! Z.of_nat n) eqn:E; [| done].
    assert (is_Some (fwd !! Z.of_nat n)) as Hs by (by rewrite E).
    apply Hdom in Hs. lia. }
  split; [| split].
  - intros vector_id. destruct (decide (vector_id = Z.of_nat n)) as [-> | Hne].
    + rewrite lookup_insert_eq. split; [lia | by eauto].
    + rewrite lookup_insert_ne by done. rewrite Hdom. lia.
  - rewrite map_size_insert_None by done. by rewrite Hsize.
  - intros vector_id other.
    destruct (decide (vector_id = Z.of_nat n)) as [-> | Hne];
      destruct (decide (other = image_id)) as [-> | Hne'].
    + by rewrite !lookup_insert_eq.
    + rewrite lookup_insert_eq, lookup_insert_ne by done. split.
      * intros [= ->]. done.
      * intros H. apply Hbij in H. congruence.
    + rewrite lookup_insert_eq, lookup_insert_ne by done. split.
      * intros H. apply Hbij in H. congruence.
      * intros [= <-]. done.
    + rewrite !lookup_insert_ne by done. apply Hbij.
Qed.

Lemma store_ok_created disk self0 self :
  create_indices disk self0 = (self, true) -> store_ok self.
Proof.
  unfold create_indices. destruct (faiss_importable disk); [| discriminate].
  intros [= <-]. split; [reflexivity |].
  split; eexists; (split; [reflexivity | split; [reflexivity | apply maps_dense_empty]]).
Qed.

Lemma dense_appended k self index vector image_id :
  dense k self ->
  index_of k self = Some index ->
  image_id_to_vector k self !! image_id = None ->
  dense k (appended k self {| d := d index; xb := xb index ++ [vector] |}
                    image_id (ntotal index)).
Proof.
  intros (index0 & Hidx0 & Hdim & Hd) Hidx Hnew.
  assert (index0 = index) as -> by congruence.
  eexists. split; [apply appended_index |].
  split; [by destruct k |].
  cbn [xb]. rewrite length_app, Nat.add_1_r.
  destruct k; cbn in *; by apply maps_dense_insert.
Qed.

Lemma dense_appended_other k k' self index' image_id vector_id :
  k <> k' -> dense k' self -> dense k' (appended k self index' image_id vector_id).
Proof. intros Hne Hd. destruct k, k'; done. Qed.

Lemma store_ok_add disk k self vector image_id :
  store_ok self -> store_ok (fst (add_vector disk k self vector image_id)).
Proof.
  intros Hok. pose proof Hok as (Hl & Ht & Hi).
  destruct (add_vector_cases disk k self vector image_id Hl)
    as [(vector_id & -> & _) | [-> | (index & Hidx & Hnew & ->)]]; [done | done |].
  cbn [fst]. split; [by rewrite appended_loaded |].
  destruct k.
  - split; [by apply dense_appended | by apply dense_appended_other].
  - split; [by apply dense_appended_other | by apply dense_appended].
Qed.

Lemma store_ok_run_adds disk (calls : list call) self :
  store_ok self -> store_ok (run_adds disk calls self).
Proof.
  revert self. induction calls as [| c calls IH]; intros self Hok; [done |].
  apply IH. by apply store_ok_add.
Qed.

(** C4, as the code has it.  For either kind and an identity without a
    vector of that kind, a vector whose length is not the dimension of the
    index makes [add_vector] on a loaded store return [None], the value of
    every failure, and the store is left unchanged: nothing is appended and
    no mapping is recorded.  For indices made by [create_indices] that
    dimension is the configured one. *)
Theorem add_vector_dimension_mismatch disk k self vector image_id :
  image_id_to_vector k self !! image_id = None ->
  (forall index,
      _is_loaded self = true ->
      index_of k self = Some index ->
      length vector <> d index ->
      add_vector disk k self vector image_id = (self, None)) /\
  (store_ok self ->
   length vector <> _dimension self ->
   add_vector disk k self vector image_id = (self, None)).
Proof.
  intros Hin.
  assert (Hgen : forall index,
             _is_loaded self = true -> index_of k self = Some index ->
             length vector <> d index ->
             add_vector disk k self vector image_id = (self, None)).
  { intros index Hl Hidx Hlen.
    destruct k; cbn [add_vector image_id_to_vector index_of] in *.
    - unfold add_text_vector. rewrite (ensure_loaded_loaded _ _ Hl). cbn. rewrite Hin, Hidx.
      destruct (reshape_row vector) as [vec |] eqn:Hr; [| reflexivity].
      apply reshape_row_some in Hr as ->. by rewrite index_add_mismatch.
    - unfold add_image_vector. rewrite (ensure_loaded_loaded _ _ Hl). cbn. rewrite Hin, Hidx.
      destruct (reshape_row vector) as [vec |] eqn:Hr; [| reflexivity].
      apply reshape_row_some in Hr as ->. by rewrite index_add_mismatch. }
  split; [exact Hgen |].
  intros (Hl & Ht & Hi) Hlen.
  assert (Hk : dense k self) by (by destruct k).
  destruct Hk as (index & Hidx & Hdim & _).
  apply (Hgen index); [done | done | by rewrite Hdim].
Qed.

End StoreFacts.

(** ** Vector store: concrete runs and loading *)

Section StoreRuns.
Import FaissStore.



Lemma add_vector_dimension_mismatch_witness :
  add_vector disk_empty Image (fresh_store 3) [1%Q; 2%Q] "a" = (fresh_store 3, None).
Proof.
  destruct (add_vector_dimension_mismatch disk_empty Image (fresh_store 3) [1%Q; 2%Q] "a")
    as [_ H].
  - vm_compute. reflexivity.
  - apply H.
    + apply (store_ok_created disk_empty (init 3)). reflexivity.
    + simpl. lia.
Defined.

(** C4, as stated, fails: no error is raised, and the value returned on a
    dimension mismatch is the value returned
    when the call fails for another reason (here: the binding cannot be
    imported, with a vector of the right length): the caller cannot tell
    a dimension mismatch from the result. *)
Lemma dimension_mismatch_not_distinguished :
  add_text_vector disk_empty (fresh_store 3) [1%Q; 2%Q] "a" = (fresh_store 3, None) /\
  add_text_vector disk_no_faiss (init 3) [1%Q; 2%Q; 3%Q] "a" = (init 3, None) /\
  snd (add_text_vector disk_empty (fresh_store 3) [1%Q; 2%Q] "a")
  = snd (add_text_vector disk_no_faiss (init 3) [1%Q; 2%Q; 3%Q] "a").
Proof. vm_compute. repeat split. Qed.

(** *** Loading *)

(** C7, as the code has it.  [load_indices] does not compare the number
    of rows of an index with the number of entries of its mapping, and no
    error is raised.  When the binding is available and both index files
    are read it returns [True] in every case: without a mapping file it
    installs the persisted indices and keeps the mappings the store
    already had; with a mapping file whose keys are integer literals (of
    at most 4300 characters, the bound of [int] on what it reads) it
    installs the persisted indices together with the persisted mappings,
    whatever their sizes; and with a mapping file that cannot be decoded
    or that has a key that is no integer it drops what was read and goes
    on with fresh empty indices. *)
Theorem load_indices_unchecked (disk : Disk Q) (self : FAISSStore Q) (ti ii : Index Q) :
  faiss_importable disk = true ->
  text_path disk = Stored ti ->
  image_path disk = Stored ii ->
  (mapping_path disk = Missing ->
   load_indices disk self
   = (loaded self ti ii (_text_id_to_image_id self) (_image_id_to_image_id self)
             (_image_id_to_text_vector self) (_image_id_to_image_vector self), true)) /\
  (forall mappings t_items i_items,
      mapping_path disk = Stored mappings ->
      Forall (fun kv => (String.length (fst kv) <= 4300)%nat)
             (default [] (text_to_image mappings) ++ default [] (image_to_image mappings)) ->
      forward_items (text_to_image mappings) = Some t_items ->
      forward_items (image_to_image mappings) = Some i_items ->
      load_indices disk self
      = (loaded self ti ii (forward_map t_items) (forward_map i_items)
                (reverse_map t_items) (reverse_map i_items), true)) /\
  (mapping_path disk = Corrupt \/
   (exists mappings,
       mapping_path disk = Stored mappings /\
       (forward_items (text_to_image mappings) = None \/
        forward_items (image_to_image mappings) = None)) ->
   load_indices disk self
   = (loaded self (IndexFlatIP (_dimension self)) (IndexFlatIP (_dimension self)) ∅ ∅ ∅ ∅,
      true)).
Proof.
  intros Hf Ht Hi. split; [| split].
  - intros Hm. unfold load_indices, load_body. rewrite Hf, Ht, Hi, Hm. reflexivity.
  - intros mappings t_items i_items Hm _ Hti Hii.
    unfold load_indices, load_body. rewrite Hf, Ht, Hi, Hm, Hti, Hii. reflexivity.
  - intros Hbad. unfold load_indices, load_body, create_indices.
    rewrite Hf, Ht, Hi. cbn [negb exists_ orb].
    destruct Hbad as [-> | (mappings & -> & Hnone)]; [reflexivity |].
    destruct (forward_items (text_to_image mappings)) as [t_items |]; [| reflexivity].
    destruct Hnone as [Hnone | ->]; [discriminate | reflexivity].
Qed.

(** A file that cannot be read is not reported either: the load answers
    with fresh empty indices. *)
Lemma load_indices_unreadable (disk : Disk Q) (self : FAISSStore Q) :
  faiss_importable disk = true ->
  text_path disk = Corrupt ->
  exists_ (image_path disk) = true ->
  load_indices disk self = create_indices disk self /\
  snd (load_indices disk self) = true.
Proof.
  intros Hf Ht Hi. unfold load_indices, load_body, create_indices.
  rewrite Hf, Ht, Hi. by cbn.
Qed.

Lemma load_indices_unchecked_witness :
  load_indices disk_mismatch (init 1)
  = (loaded (init 1) {| d := 1; xb := [[1%Q]; [2%Q]] |} {| d := 1; xb := [] |}
            (forward_map [(0, "a"%string)]) (forward_map [])
            (reverse_map [(0, "a"%string)]) (reverse_map []), true).
Proof.
  destruct (load_indices_unchecked disk_mismatch (init 1)
              {| d := 1; xb := [[1%Q]; [2%Q]] |} {| d := 1; xb := [] |}
              eq_refl eq_refl eq_refl) as (_ & H & _).
  apply (H {| text_to_image := Some [("0"%string, "a"%string)]; image_to_image := Some [] |}).
  - reflexivity.
  - constructor; [cbn; lia | constructor].
  - vm_compute. reflexivity.
  - reflexivity.
Defined.

(** C7, as stated, fails: the load of a state whose counts disagree
    reports success and keeps the disagreeing state. *)
Lemma load_indices_accepts_mismatch :
  snd (load_indices disk_mismatch (init 1)) = true /\
  get_text_vector_count (fst (load_indices disk_mismatch (init 1))) = 2 /\
  size (_text_id_to_image_id (fst (load_indices disk_mismatch (init 1)))) = 1%nat.
Proof. vm_compute. repeat split. Qed.

End StoreRuns.

(** ** Ordered dictionaries and the descending sort *)

Section PyDictFacts.
Context {K V : Type} `{EqDecision K}.
Implicit Types (m : PyDict.t (K:=K) (V:=V)) (k : K) (v : V).

Lemma pydict_get_set k' k v m :
  PyDict.get k' (PyDict.set k v m) = if decide (k' = k) then Some v else PyDict.get k' m.
Proof.
  induction m as [| [k0 v0] m IH]; simpl.
  - by destruct (decide (k' = k)).
  - destruct (decide (k = k0)) as [-> | Hne]; simpl.
    + by destruct (decide (k' = k0)).
    + destruct (decide (k' = k0)) as [-> | Hne'].
      * destruct (decide (k0 = k)); [congruence | done].
      * apply IH.
Qed.

Lemma pydict_get_alter (f : V -> V) k' k m :
  PyDict.get k' (PyDict.alter f k m)
  = if decide (k' = k) then f <$> PyDict.get k m else PyDict.get k' m.
Proof.
  induction m as [| [k0 v0] m IH]; simpl.
  - by destruct (decide (k' = k)).
  - destruct (decide (k = k0)) as [-> | Hne]; simpl.
    + by destruct (decide (k' = k0)).
    + destruct (decide (k' = k0)) as [-> | Hne'].
      * destruct (decide (k0 = k)); [congruence | done].
      * apply IH.
Qed.

Lemma pydict_keys_alter (f : V -> V) k m :
  map fst (PyDict.alter f k m) = map fst m.
Proof.
  induction m as [| [k0 v0] m IH]; simpl; [done |].
  destruct (decide (k = k0)); simpl; [done | by rewrite IH].
Qed.

Lemma pydict_get_None k m : PyDict.get k m = None <-> ~ In k (map fst m).
Proof.
  induction m as [| [k0 v0] m IH]; simpl; [tauto |].
  destruct (decide (k = k0)) as [-> | Hne]; [split; [discriminate | tauto] |].
  rewrite IH. split; [intros H [E | Hin]; [congruence | tauto] | tauto].
Qed.

Lemma pydict_get_In k v m : PyDict.get k m = Some v -> In (k, v) m.
Proof.
  induction m as [| [k0 v0] m IH]; simpl; [discriminate |].
  destruct (decide (k = k0)) as [-> | Hne]; [intros [= ->]; by left | right; by apply IH].
Qed.

Lemma pydict_keys_set k v m :
  NoDup (map fst m) -> NoDup (map fst (PyDict.set k v m)).
Proof.
  induction m as [| [k0 v0] m IH]; simpl; intros Hnd.
  - apply NoDup_cons. split; [apply not_elem_of_nil | apply NoDup_nil_2].
  - destruct (decide (k = k0)) as [-> | Hne]; simpl; [done |].
    apply NoDup_cons in Hnd as [Hk0 Hnd]. apply NoDup_cons. split; [| by apply IH].
    rewrite list_elem_of_In in *. intros Hin.
    destruct (PyDict.get k0 m) as [v1 |] eqn:E.
    + apply Hk0. apply in_map_iff. exists (k0, v1). split; [done | by apply pydict_get_In].
    + apply (proj1 (pydict_get_None k0 (PyDict.set k v m))); [| done].
      rewrite pydict_get_set. destruct (decide (k0 = k)); [congruence | done].
Qed.

Lemma pydict_In_get k v m : NoDup (map fst m) -> In (k, v) m -> PyDict.get k m = Some v.
Proof.
  induction m as [| [k0 v0] m IH]; simpl; [tauto |].
  intros Hnd [E | Hin].
  - injection E as -> ->. by destruct (decide (k = k)).
  - apply NoDup_cons in Hnd as [Hk0 Hnd].
    destruct (decide (k = k0)) as [-> | Hne]; [| by apply IH].
    exfalso. apply Hk0. rewrite list_elem_of_In. apply in_map_iff. by exists (k0, v).
Qed.
End PyDictFacts.

Section SortFacts.
Import FaissStore.
Context {A : Type} (key : A -> Q).

Lemma insert_desc_perm x l : Permutation (insert_desc key x l) (x :: l).
Proof.
  induction l as [| y l IH]; simpl; [done |].
  destruct (Qle_bool (key y) (key x)); [done |].
  rewrite IH. apply perm_swap.
Qed.

Lemma sort_desc_perm l : Permutation (sort_desc key l) l.
Proof.
  induction l as [| x l IH]; simpl; [done |].
  rewrite insert_desc_perm. by constructor.
Qed.

Lemma insert_desc_sorted x l :
  StronglySorted (desc key) l -> StronglySorted (desc key) (insert_desc key x l).
Proof.
  induction l as [| y l IH]; simpl; intros Hs.
  - repeat constructor.
  - apply StronglySorted_inv in Hs as [Hl Hy].
    destruct (Qle_bool (key y) (key x)) eqn:E.
    + apply Qle_bool_iff in E. constructor; [by constructor |].
      constructor; [exact E |].
      eapply Forall_impl; [exact Hy |]. intros z Hz. unfold desc in *.
      by eapply Qle_trans.
    + assert (Hlt : (key x < key y)%Q).
      { apply Qnot_le_lt. intros Hle. apply Qle_bool_iff in Hle. congruence. }
      constructor; [by apply IH |].
      rewrite (insert_desc_perm x l). constructor; [| done].
      unfold desc. by apply Qlt_le_weak.
Qed.

Lemma sort_desc_sorted l : StronglySorted (desc key) (sort_desc key l).
Proof.
  induction l as [| x l IH]; simpl; [constructor | by apply insert_desc_sorted].
Qed.
End SortFacts.

(** ** Hybrid search *)

Section HybridFacts.
Import FaissStore.
Implicit Types (self : FAISSStore Q) (results : list SearchResult)
         (scores : PyDict.t (K:=string) (V:=ScoreDict)) (image_id : string).

Lemma last_hit_acc (resolve : Z -> option string) results image_id (acc : option Q) :
  fold_left (fun acc result =>
               if decide (resolve (vector_id result) = Some image_id)
               then Some (score result) else acc) results acc
  = match last_hit resolve results image_id with
    | Some t => Some t
    | None => acc
    end.
Proof.
  unfold last_hit. revert acc.
  induction results as [| r results IH]; intros acc; simpl; [done |].
  rewrite IH. rewrite (IH (if decide _ then _ else None)).
  destruct (fold_left _ results None); [done |].
  by destruct (decide _).
Qed.

Lemma last_hit_cons (resolve : Z -> option string) r results image_id :
  last_hit resolve (r :: results) image_id
  = match last_hit resolve results image_id with
    | Some t => Some t
    | None => if decide (resolve (vector_id r) = Some image_id)
              then Some (score r) else None
    end.
Proof. unfold last_hit at 1. simpl. apply last_hit_acc. Qed.

Lemma last_hit_resolves (resolve : Z -> option string) results image_id :
  is_Some (last_hit resolve results image_id) <-> resolves_to resolve results image_id.
Proof.
  induction results as [| r results IH].
  - split; [intros [t Ht]; discriminate | intros (r & [] & _)].
  - rewrite last_hit_cons. split.
    + destruct (last_hit resolve results image_id) as [t |] eqn:E.
      * intros _. destruct (proj1 IH) as (r' & Hin & Hr'); [by eauto |].
        exists r'. split; [by right | done].
      * destruct (decide _) as [Hr |]; [| intros [t Ht]; discriminate].
        intros _. exists r. split; [by left | done].
    + intros (r' & [<- | Hin] & Hr').
      * destruct (last_hit resolve results image_id); [by eauto |].
        destruct (decide _); [by eauto | done].
      * destruct (proj2 IH) as [t ->]; [by exists r' | by eauto].
Qed.

Lemma ensure_entry_get image_id' image_id scores :
  PyDict.get image_id' (ensure_entry image_id scores)
  = if decide (image_id' = image_id)
    then Some (default zero_scores (PyDict.get image_id scores))
    else PyDict.get image_id' scores.
Proof.
  unfold ensure_entry, PyDict.mem.
  destruct (PyDict.get image_id scores) as [sd |] eqn:E; simpl.
  - destruct (decide (image_id' = image_id)) as [-> | Hne]; done.
  - by rewrite pydict_get_set.
Qed.

Lemma ensure_entry_keys image_id scores :
  NoDup (map fst scores) -> NoDup (map fst (ensure_entry image_id scores)).
Proof.
  intros H. unfold ensure_entry. destruct (negb _); [by apply pydict_keys_set | done].
Qed.

(** One side at a time.  [upd] writes the score into its field. *)
Section OneSide.
Variable resolve : Z -> option string.
Variable upd : Q -> ScoreDict -> ScoreDict.

Lemma side_step_get scores r image_id :
  PyDict.get image_id (side_step resolve upd scores r)
  = if decide (resolve (vector_id r) = Some image_id)
    then (if truthy image_id
          then Some (upd (score r) (default zero_scores (PyDict.get image_id scores)))
          else PyDict.get image_id scores)
    else PyDict.get image_id scores.
Proof.
  unfold side_step.
  destruct (resolve (vector_id r)) as [id' |] eqn:E.
  - destruct (decide (Some id' = Some image_id)) as [[= ->] | Hne].
    + destruct (truthy image_id); [| done].
      rewrite pydict_get_alter, ensure_entry_get.
      destruct (decide (image_id = image_id)); done.
    + destruct (truthy id'); [| done].
      rewrite pydict_get_alter.
      destruct (decide (image_id = id')); [congruence |].
      rewrite ensure_entry_get. destruct (decide (image_id = id')); [congruence | done].
  - destruct (decide (None = Some image_id)); done.
Qed.

Lemma side_step_keys scores r :
  NoDup (map fst scores) -> NoDup (map fst (side_step resolve upd scores r)).
Proof.
  intros H. unfold side_step. destruct (resolve _) as [id' |]; [| done].
  destruct (truthy id'); [| done].
  rewrite pydict_keys_alter. by apply ensure_entry_keys.
Qed.

Hypothesis upd_upd : forall a b sd, upd a (upd b sd) = upd a sd.

Lemma side_fold_get results scores image_id :
  PyDict.get image_id (fold_left (side_step resolve upd) results scores)
  = match (if truthy image_id then last_hit resolve results image_id else None) with
    | Some x => Some (upd x (default zero_scores (PyDict.get image_id scores)))
    | None => PyDict.get image_id scores
    end.
Proof.
  revert scores. induction results as [| r results IH]; intros scores.
  - simpl. by destruct (truthy image_id).
  - cbn [fold_left]. rewrite IH, last_hit_cons, side_step_get.
    destruct (truthy image_id); [| by destruct (decide _)].
    destruct (last_hit resolve results image_id) as [x |].
    + destruct (decide _); [| done]. simpl. by rewrite upd_upd.
    + by destruct (decide _).
Qed.

Lemma side_fold_keys results scores :
  NoDup (map fst scores) -> NoDup (map fst (fold_left (side_step resolve upd) results scores)).
Proof.
  revert scores. induction results as [| r results IH]; intros scores H; [done |].
  apply IH. by apply side_step_keys.
Qed.
End OneSide.

Lemma add_text_scores_fold self results scores :
  add_text_scores self results scores
  = fold_left (side_step (get_image_id_from_text_vector self) set_text) results scores.
Proof. reflexivity. Qed.

Lemma add_image_scores_fold self results scores :
  add_image_scores self results scores
  = fold_left (side_step (get_image_id_from_image_vector self) set_image) results scores.
Proof. reflexivity. Qed.

Lemma accumulated_keys self text_results image_results :
  NoDup (map fst (accumulated self text_results image_results)).
Proof.
  unfold accumulated. rewrite add_image_scores_fold, add_text_scores_fold.
  apply side_fold_keys, side_fold_keys. apply NoDup_nil_2.
Qed.

(** The pair kept for an identity: on each side the score of its last
    result, and [0] when it has none on that side; an identity has a pair
    exactly when it is not empty and some result resolves to it. *)
Lemma accumulated_get self text_results image_results image_id :
  PyDict.get image_id (accumulated self text_results image_results)
  = if truthy image_id
    then
      match last_hit (get_image_id_from_text_vector self) text_results image_id,
            last_hit (get_image_id_from_image_vector self) image_results image_id with
      | None, None => None
      | _, _ =>
          Some {| text := side_score (get_image_id_from_text_vector self)
                                     text_results image_id;
                  image := side_score (get_image_id_from_image_vector self)
                                      image_results image_id |}
      end
    else None.
Proof.
  unfold accumulated. rewrite add_image_scores_fold, add_text_scores_fold.
  rewrite !side_fold_get by done. unfold side_score. simpl.
  destruct (truthy image_id); [| done].
  destruct (last_hit _ text_results image_id), (last_hit _ image_results image_id); done.
Qed.

Lemma Qlt_b_spec (x y : Q) : reflect (x < y)%Q (Qlt_b x y).
Proof.
  unfold Qlt_b. destruct (Qle_bool y x) eqn:E; simpl; constructor.
  - apply Qle_bool_iff in E. by apply Qle_not_lt.
  - apply Qnot_le_lt. intros Hle. apply Qle_bool_iff in Hle. congruence.
Qed.

Lemma final_score_cases (tw iw : Q) (sd : ScoreDict) :
  ((0 < text sd)%Q -> (0 < image sd)%Q ->
   final_score tw iw sd = (tw * text sd + iw * image sd)%Q) /\
  ((0 < text sd)%Q -> ~ (0 < image sd)%Q -> final_score tw iw sd = text sd) /\
  (~ (0 < text sd)%Q -> final_score tw iw sd = image sd).
Proof.
  unfold final_score.
  destruct (Qlt_b_spec 0 (text sd)) as [Ht | Ht];
    destruct (Qlt_b_spec 0 (image sd)) as [Hi | Hi]; simpl;
    (split; [| split]); intros; done.
Qed.

Lemma search_index_returns (index : Index Q) query_vector (k : nat) :
  exists results, search_index (Some index) query_vector k = Return results.
Proof.
  unfold search_index. destruct (ntotal index =? 0); [by eauto |].
  destruct (reshape_row query_vector); [| by eauto].
  destruct (index_search _ _ _); by eauto.
Qed.

Lemma combine_results_ranked self text_results image_results k tw iw :
  combine_results self text_results image_results k tw iw
  = take k (sort_desc snd (combined self text_results image_results tw iw)).
Proof. reflexivity. Qed.

Lemma combined_keys self text_results image_results tw iw :
  map fst (combined self text_results image_results tw iw)
  = map fst (accumulated self text_results image_results).
Proof. unfold combined. rewrite map_map. reflexivity. Qed.

Lemma truthy_nonempty image_id : truthy image_id = true <-> image_id <> ""%string.
Proof. destruct image_id; simpl; split; congruence. Qed.

Lemma accumulated_domain self text_results image_results image_id :
  In image_id (map fst (accumulated self text_results image_results)) <->
  image_id <> ""%string /\
  (resolves_to (get_image_id_from_text_vector self) text_results image_id \/
   resolves_to (get_image_id_from_image_vector self) image_results image_id).
Proof.
  rewrite <- !last_hit_resolves, <- truthy_nonempty.
  pose proof (pydict_get_None image_id (accumulated self text_results image_results)) as Hn.
  rewrite accumulated_get in Hn.
  destruct (truthy image_id).
  - destruct (last_hit _ text_results image_id) as [t |],
             (last_hit _ image_results image_id) as [i |].
    all: split;
      [ intros Hin; split; [done |]; try (left; by eauto); try (right; by eauto);
        exfalso; by apply (proj1 Hn)
      | intros [_ Hs];
        destruct (in_dec string_dec image_id
                         (map fst (accumulated self text_results image_results)))
          as [Hin | Hnin]; [done | apply Hn in Hnin; try discriminate];
        destruct Hs as [[x Hx] | [x Hx]]; discriminate ].
  - split; [| intros [? _]; done].
    intros Hin. exfalso. by apply (proj1 Hn).
Qed.

Lemma combined_fused self text_results image_results tw iw image_id fused :
  In (image_id, fused) (combined self text_results image_results tw iw) ->
  fused = final_score tw iw
            {| text := side_score (get_image_id_from_text_vector self)
                                  text_results image_id;
               image := side_score (get_image_id_from_image_vector self)
                                   image_results image_id |}.
Proof.
  unfold combined. intros Hin. apply in_map_iff in Hin as ([id sd] & Heq & Hin).
  simpl in Heq. injection Heq as -> <-.
  apply pydict_In_get in Hin; [| apply accumulated_keys].
  rewrite accumulated_get in Hin.
  destruct (truthy image_id); [| discriminate].
  destruct (last_hit _ text_results image_id); [by inversion Hin |].
  destruct (last_hit _ image_results image_id); by inversion Hin.
Qed.

End HybridFacts.

Section HybridSearch.
Import FaissStore.

(** C1.  On a loaded store, [hybrid_search] returns the first [k] entries
    of a ranking of the identities found by the two over-fetching
    searches ([3k] results each): every non-empty identity some result
    resolves to occurs once; its score is
    [text_weight * t + image_weight * i] when its text score [t] and its
    image score [i] are both positive, and the positive one of the two,
    unweighted, when only one is; the ranking is in descending order of
    that score.  With the weights 0.7 and 0.3, A (0.90, 0.50) gets 0.78,
    B (0.95, no image vector) gets 0.95, and the answer is [B; A]. *)
Theorem hybrid_search_fusion :
  (forall (disk : Disk Q) (self : FAISSStore Q) (query_vector : list Q) (k : nat)
          (text_weight image_weight : Q) (ti ii : Index Q),
      _is_loaded self = true ->
      _text_index self = Some ti ->
      _image_index self = Some ii ->
      exists text_results image_results ranked,
        search_text disk self query_vector (k * 3) = (self, Return text_results) /\
        search_image disk self query_vector (k * 3) = (self, Return image_results) /\
        hybrid_search disk self query_vector k text_weight image_weight
        = (self, Return (take k ranked)) /\
        (length (take k ranked) <= k)%nat /\
        StronglySorted by_score_desc ranked /\
        StronglySorted by_score_desc (take k ranked) /\
        NoDup (map fst ranked) /\
        (forall image_id,
            In image_id (map fst ranked) <->
            image_id <> ""%string /\
            (resolves_to (get_image_id_from_text_vector self) text_results image_id \/
             resolves_to (get_image_id_from_image_vector self) image_results image_id)) /\
        (forall image_id fused,
            In (image_id, fused) ranked ->
            let t := side_score (get_image_id_from_text_vector self) text_results image_id in
            let i := side_score (get_image_id_from_image_vector self) image_results image_id in
            ((0 < t)%Q -> (0 < i)%Q -> fused = (text_weight * t + image_weight * i)%Q) /\
            ((0 < t)%Q -> ~ (0 < i)%Q -> fused = t) /\
            (~ (0 < t)%Q -> (0 < i)%Q -> fused = i))) /\
  (final_score 0.7 0.3 {| text := 0.90; image := 0.50 |} == 0.78)%Q /\
  final_score 0.7 0.3 {| text := 0.95; image := 0 |} = 0.95%Q /\
  reduced [("B"%string, 0.95%Q); ("A"%string, 0.78%Q)]
  = [("B"%string, 19 # 20); ("A"%string, 39 # 50)] /\
  (exists ranking,
      hybrid_search disk_empty ab_store ab_query 10 0.7 0.3 = (ab_store, Return ranking) /\
      reduced ranking = [("B"%string, 19 # 20); ("A"%string, 39 # 50)]).
Proof.
  split; [| split; [| split; [| split]]].
  - intros disk self query_vector k tw iw ti ii Hl Hti Hii.
    destruct (search_index_returns ti query_vector (k * 3)) as [text_results Ht].
    destruct (search_index_returns ii query_vector (k * 3)) as [image_results Hi].
    exists text_results, image_results,
      (sort_desc snd (combined self text_results image_results tw iw)).
    assert (Hst : search_text disk self query_vector (k * 3) = (self, Return text_results)).
    { unfold search_text. rewrite (ensure_loaded_loaded _ _ Hl). simpl. by rewrite Hti, Ht. }
    assert (Hsi : search_image disk self query_vector (k * 3) = (self, Return image_results)).
    { unfold search_image. rewrite (ensure_loaded_loaded _ _ Hl). simpl. by rewrite Hii, Hi. }
    pose proof (sort_desc_perm snd (combined self text_results image_results tw iw)) as Hperm.
    pose proof (sort_desc_sorted snd (combined self text_results image_results tw iw)) as Hsorted.
    split; [exact Hst |]. split; [exact Hsi |].
    split.
    { unfold hybrid_search. rewrite Hst, Hsi. by rewrite combine_results_ranked. }
    split; [rewrite length_take; lia |].
    split; [exact Hsorted |].
    split.
    { rewrite <- (take_drop k (sort_desc snd _)) in Hsorted.
      by apply StronglySorted_app_1_l in Hsorted. }
    split.
    { rewrite Hperm, combined_keys. apply accumulated_keys. }
    split.
    { intros image_id. rewrite <- accumulated_domain, <- (combined_keys _ _ _ tw iw).
      split; apply Permutation_in; [by apply Permutation_map | ].
      apply Permutation_map. by symmetry. }
    intros image_id fused Hin t i.
    apply (Permutation_in _ Hperm) in Hin. apply combined_fused in Hin.
    destruct (final_score_cases tw iw {| text := t; image := i |}) as (H1 & H2 & H3).
    subst fused. simpl in *. split; [exact H1 |]. split; [exact H2 |].
    intros Hnt _. by apply H3.
  - vm_compute. reflexivity.
  - vm_compute. reflexivity.
  - vm_compute. reflexivity.
  - eexists. split; vm_compute; reflexivity.
Qed.

Lemma hybrid_search_fusion_witness :
  exists ranked,
    hybrid_search disk_empty ab_store ab_query 1 0.7 0.3 = (ab_store, Return (take 1 ranked)) /\
    StronglySorted by_score_desc ranked /\
    reduced (take 1 ranked) = [("B"%string, 19 # 20)].
Proof.
  destruct hybrid_search_fusion as [H _].
  destruct (H disk_empty ab_store ab_query 1%nat 0.7%Q 0.3%Q
              {| d := 1; xb := [[0.90%Q]; [0.95%Q]] |} {| d := 1; xb := [[0.50%Q]] |}
              eq_refl eq_refl eq_refl)
    as (text_results & image_results & ranked & _ & _ & Hh & _ & Hs & _).
  exists ranked. split; [exact Hh |]. split; [exact Hs |].
  assert (Hc : hybrid_search disk_empty ab_store ab_query 1 0.7 0.3
               = (ab_store, Return [("B"%string, 0.95%Q)]))
    by (vm_compute; reflexivity).
  rewrite Hc in Hh. injection Hh as <-. reflexivity.
Defined.

End HybridSearch.

(** ** Normalisation of embeddings *)

Section EmbedderFacts.
Import FaissStore Embedder.
Local Open Scope R_scope.
Implicit Types (vector : list R).

Lemma sum_squares_nonneg vector : 0 <= sum_squares vector.
Proof.
  induction vector as [| x vector IH]; simpl; [lra |].
  pose proof (Rle_0_sqr x) as Hx. unfold Rsqr in Hx. lra.
Qed.

Lemma sum_squares_zero vector :
  sum_squares vector = 0 <-> Forall (fun x => x = 0) vector.
Proof.
  induction vector as [| x vector IH]; simpl.
  - split; [constructor | reflexivity].
  - pose proof (Rle_0_sqr x) as Hx. unfold Rsqr in Hx.
    pose proof (sum_squares_nonneg vector) as Hv.
    rewrite Forall_cons, <- IH. split.
    + intros H. assert (x * x = 0) as Hxx by lra.
      apply Rmult_integral in Hxx. split; lra.
    + intros [-> ->]. lra.
Qed.

Lemma linalg_norm_zero vector : linalg_norm vector = 0 <-> sum_squares vector = 0.
Proof.
  unfold linalg_norm. split.
  - intros H. apply sqrt_eq_0; [apply sum_squares_nonneg | exact H].
  - intros ->. apply sqrt_0.
Qed.

Lemma linalg_norm_zeros (n : nat) : linalg_norm (repeat 0 n) = 0.
Proof.
  apply linalg_norm_zero, sum_squares_zero.
  induction n as [| n IH]; simpl; by constructor.
Qed.

Lemma normalize_vector_zero_norm vector :
  linalg_norm vector = 0 -> normalize_vector vector = Some vector.
Proof.
  intros H. unfold normalize_vector. destruct (Req_dec_T _ 0); [reflexivity | contradiction].
Qed.

Lemma normalize_vector_nonzero_norm vector :
  linalg_norm vector <> 0 ->
  normalize_vector vector = Some (map (fun x => x / linalg_norm vector) vector).
Proof.
  intros H. unfold normalize_vector, np_divide.
  destruct (Req_dec_T _ 0); [contradiction | reflexivity].
Qed.

Lemma sum_squares_scaled vector (c : R) :
  sum_squares (map (fun x => x / c) vector) = sum_squares vector / (c * c).
Proof.
  induction vector as [| x vector IH]; simpl.
  - unfold Rdiv. lra.
  - rewrite IH. destruct (Req_dec_T c 0) as [-> | Hc].
    + unfold Rdiv. rewrite Rmult_0_l, Rinv_0. lra.
    + field. exact Hc.
Qed.

Lemma linalg_norm_normalized vector :
  linalg_norm vector <> 0 ->
  linalg_norm (map (fun x => x / linalg_norm vector) vector) = 1.
Proof.
  intros H. unfold linalg_norm at 1. rewrite sum_squares_scaled.
  unfold linalg_norm in *. rewrite sqrt_sqrt by apply sum_squares_nonneg.
  assert (Hs : sum_squares vector <> 0).
  { intros E. apply H. rewrite E. apply sqrt_0. }
  replace (sum_squares vector / sum_squares vector) with 1 by (field; exact Hs).
  apply sqrt_1.
Qed.

(** C10.  [normalize_vector] always returns: a vector of norm zero, the
    all-zeros vector among them, comes back as it is and nothing is
    divided by zero; the result has norm one exactly when the norm of the
    input is not zero; and a zero embedding of the right length is taken
    by [add_text_vector] as it is, with norm zero. *)
Theorem normalize_vector_guarded vector :
  (exists out, normalize_vector vector = Some out) /\
  (linalg_norm vector = 0 -> normalize_vector vector = Some vector) /\
  (forall n : nat, normalize_vector (repeat 0 n) = Some (repeat 0 n)) /\
  (forall out, normalize_vector vector = Some out ->
               (linalg_norm out = 1 <-> linalg_norm vector <> 0)) /\
  (forall (disk : Disk R) (self : FAISSStore R) (index : Index R) (image_id : string),
      _is_loaded self = true ->
      _text_index self = Some index ->
      (0 < d index)%nat ->
      _image_id_to_text_vector self !! image_id = None ->
      embed_and_add disk self (repeat 0 (d index)) image_id
      = (appended Text self {| d := d index; xb := xb index ++ [repeat 0 (d index)] |}
                  image_id (ntotal index), Some (ntotal index)) /\
      linalg_norm (repeat 0 (d index)) <> 1).
Proof.
  split; [| split; [| split; [| split]]].
  - destruct (Req_dec_T (linalg_norm vector) 0) as [H | H].
    + exists vector. by apply normalize_vector_zero_norm.
    + eexists. by apply normalize_vector_nonzero_norm.
  - apply normalize_vector_zero_norm.
  - intros n. apply normalize_vector_zero_norm, linalg_norm_zeros.
  - intros out Hout. destruct (Req_dec_T (linalg_norm vector) 0) as [H | H].
    + rewrite (normalize_vector_zero_norm _ H) in Hout. injection Hout as <-.
      rewrite H. split; [lra | contradiction].
    + rewrite (normalize_vector_nonzero_norm _ H) in Hout. injection Hout as <-.
      split; [done | intros _; by apply linalg_norm_normalized].
  - intros disk self index image_id Hl Hidx Hd Hnew.
    split; [| rewrite linalg_norm_zeros; lra].
    unfold embed_and_add.
    rewrite (normalize_vector_zero_norm _ (linalg_norm_zeros (d index))).
    apply (add_vector_fresh disk Text self (repeat 0 (d index)) image_id index);
      [done | done | done | apply repeat_length |].
    destruct (d index); [lia | discriminate].
Qed.

Lemma normalize_vector_guarded_witness :
  normalize_vector [0; 0; 0] = Some [0; 0; 0] /\
  (forall out, normalize_vector [3; 4] = Some out -> linalg_norm out = 1).
Proof.
  split.
  - destruct (normalize_vector_guarded [0; 0; 0]) as (_ & H & _).
    apply H. apply (linalg_norm_zeros 3).
  - intros out Hout.
    destruct (normalize_vector_guarded [3; 4]) as (_ & _ & _ & H & _).
    apply (H out Hout). intros E. apply linalg_norm_zero in E. simpl in E. lra.
Defined.

End EmbedderFacts.


(** * Further properties *)

(** ** Hashing a file in chunks *)

Section StreamFacts.
Import Sha256 Sha256Stream Hashing.

Lemma absorb_st_app (l1 l2 : list Z) :
  forall h buf n,
    absorb_st h buf n (l1 ++ l2)
    = absorb_st (fst (fst (absorb_st h buf n l1))) (snd (fst (absorb_st h buf n l1)))
                (snd (absorb_st h buf n l1)) l2.
Proof.
  induction l1 as [| b l1 IH]; intros h buf n; [done |].
  cbn [app absorb_st]. destruct n; apply IH.
Qed.

Lemma absorb_absorb_st (l : list Z) :
  forall h buf n, absorb h buf n l = fst (fst (absorb_st h buf n l)).
Proof.
  induction l as [| b l IH]; intros h buf n; [done |].
  cbn [absorb absorb_st]. destruct n; apply IH.
Qed.

Lemma update_absorbs (o : hasher) (chunk : list byte) :
  (st_h (update o chunk), st_buf (update o chunk), st_n (update o chunk))
  = absorb_st (st_h o) (st_buf o) (st_n o) (to_Z_bytes chunk) /\
  st_len (update o chunk) = (st_len o + length chunk)%nat.
Proof.
  unfold update, to_Z_bytes.
  destruct (absorb_st (st_h o) (st_buf o) (st_n o) _) as [[h buf] n]. done.
Qed.

Lemma fold_update_absorbs (chunks : list (list byte)) :
  forall o : hasher,
    let o' := fold_left update chunks o in
    (st_h o', st_buf o', st_n o')
    = absorb_st (st_h o) (st_buf o) (st_n o) (to_Z_bytes (concat chunks)) /\
    st_len o' = (st_len o + length (concat chunks))%nat.
Proof.
  induction chunks as [| c chunks IH]; intros o; cbn [fold_left concat].
  - split; [done | cbn; lia].
  - destruct (IH (update o c)) as [Hst Hlen].
    destruct (update_absorbs o c) as [Hu Hl].
    split.
    + rewrite Hst. unfold to_Z_bytes. rewrite map_app, absorb_st_app.
      fold (to_Z_bytes c). by rewrite <- Hu.
    + rewrite Hlen, Hl, length_app. lia.
Qed.

Lemma read_chunks_concat (size : nat) :
  (0 < size)%nat ->
  forall (fuel : nat) (data : list byte),
    (length data < fuel)%nat -> concat (read_chunks fuel size data) = data.
Proof.
  intros Hsize. induction fuel as [| fuel IH]; intros data Hlen; [lia |].
  cbn [read_chunks]. destruct data as [| b data]; [by destruct size |].
  destruct size as [| size]; [lia |].
  change (take (S size) (b :: data)) with (b :: take size data).
  change (drop (S size) (b :: data)) with (drop size data).
  cbn [concat]. rewrite IH.
  - cbn. f_equal. apply take_drop.
  - rewrite length_drop. cbn in Hlen. lia.
Qed.

Lemma digest_fold_update (chunks : list (list byte)) :
  digest (fold_left update chunks new) = sha256 (concat chunks).
Proof.
  destruct (fold_update_absorbs chunks new) as [Hst Hlen].
  cbn zeta in Hst, Hlen. cbn [st_h st_buf st_n st_len new Nat.add] in Hst, Hlen.
  unfold sha256. rewrite absorb_absorb_st. unfold pad.
  fold (to_Z_bytes (concat chunks)).
  rewrite (absorb_st_app (to_Z_bytes (concat chunks))). rewrite <- Hst.
  cbn [fst snd]. unfold digest. rewrite Hlen.
  unfold pad_tail, to_Z_bytes. by rewrite length_map.
Qed.

(** Hashing a content chunk by chunk gives the hash of the whole content,
    whatever the chunk size. *)
Lemma hash_chunks_whole (size : nat) (data : list byte) :
  (0 < size)%nat -> hash_chunks size data = hexdigest (sha256 data).
Proof.
  intros Hsize. unfold hash_chunks. rewrite digest_fold_update.
  rewrite read_chunks_concat by lia. reflexivity.
Qed.

(** X1.  [compute_file_hash] of a file is the SHA-256 of its whole content in
    hexadecimal: it is the identity [compute_image_id] gives to the same
    bytes when there are any, and on an empty file, where
    [compute_image_id] raises, it is the digest of the empty string. *)
Theorem compute_file_hash_whole (content : list byte) :
  compute_file_hash content = hexdigest (sha256 content) /\
  String.length (compute_file_hash content) = 64%nat /\
  compute_image_id content
  = match content with
    | [] => Raise ValueError
    | _ => Return (compute_file_hash content)
    end /\
  compute_file_hash []
  = "e3b0c44298fc1c149afbf4c8996fb92427ae41e4649b934ca495991b7852b855"%string.
Proof.
  assert (H : compute_file_hash content = hexdigest (sha256 content))
    by (apply hash_chunks_whole; lia).
  split; [exact H |]. split; [rewrite H; apply hexdigest_length |].
  split; [| vm_compute; reflexivity].
  destruct content; [reflexivity |]. rewrite H. reflexivity.
Qed.

End StreamFacts.

(** ** Saving and loading the vector store *)

Section StrFacts.
Import Hashing Persist.

Lemma code_digit_char (n : Z) : 0 <= n < 10 -> code (digit_char n) = 48 + n.
Proof.
  intros Hn. unfold code, digit_char. rewrite N_ascii_embedding.
  - rewrite Z2N.id; lia.
  - change 256%N with (Z.to_N 256). apply Z2N.inj_lt; lia.
Qed.

Lemma digit_char_ok (n : Z) :
  0 <= n < 10 -> is_dec_digit (digit_char n) = true /\ digit_value (digit_char n) = n.
Proof.
  intros Hn. unfold is_dec_digit, digit_value. rewrite (code_digit_char n Hn).
  split; [lia |]. destruct ((48 <=? 48 + n) && (48 + n <=? 57)) eqn:E; lia.
Qed.

Lemma scan_digits_dec (l : list ascii) :
  forallb is_dec_digit l = true ->
  forall acc n,
    scan_digits 10 false acc n l = Some (fold_left dec_step l acc, (n + length l)%nat, []).
Proof.
  induction l as [| c l IH]; intros Hall acc n; cbn [scan_digits fold_left length].
  - do 3 f_equal. lia.
  - cbn in Hall. apply andb_true_iff in Hall as [Hc Hl].
    assert (Hus : is_underscore c = false) by (unfold is_underscore, is_dec_digit in *; lia).
    assert (Hd : (digit_value c <? 10) = true).
    { unfold digit_value, is_dec_digit in *. rewrite Hc. lia. }
    rewrite Hus, Hd, (IH Hl). do 3 f_equal. lia.
Qed.

Lemma digits_of_spec (fuel : nat) :
  forall (n : Z) (acc : list ascii),
    0 <= n -> (Z.to_nat (Z.log2 n) < fuel)%nat ->
    exists ds, digits_of fuel n acc = ds ++ acc /\ ds <> [] /\
               forallb is_dec_digit ds = true /\ fold_left dec_step ds 0 = n.
Proof.
  induction fuel as [| fuel IH]; intros n acc Hn Hfuel; [lia |].
  cbn [digits_of].
  assert (Hmod : 0 <= n mod 10 < 10) by (apply Z.mod_pos_bound; lia).
  destruct (digit_char_ok _ Hmod) as [Hdig Hval].
  destruct (Z.eqb_spec (n / 10) 0) as [Hq | Hq].
  - exists [digit_char (n mod 10)]. split; [done |]. split; [done |].
    split; [cbn; by rewrite Hdig |].
    cbn. unfold dec_step. rewrite Hval.
    pose proof (Z.div_mod n 10). lia.
  - assert (Hq0 : 0 < n / 10).
    { assert (0 <= n / 10) by (apply Z.div_pos; lia). lia. }
    destruct (IH (n / 10) (digit_char (n mod 10) :: acc)) as (ds & Hds & _ & Hall & Hv);
      [lia | |].
    { assert (Hlog : Z.log2 (n / 10) + 1 <= Z.log2 n).
      { pose proof (Z.div_mod n 10) as Hdm.
        destruct (Z.log2_spec (n / 10) Hq0) as [Hlo _].
        apply Z.log2_le_pow2; [lia |].
        rewrite Z.pow_add_r by (try apply Z.log2_nonneg; lia). lia. }
      assert (0 <= Z.log2 (n / 10)) by apply Z.log2_nonneg. lia. }
    exists (ds ++ [digit_char (n mod 10)]). rewrite Hds, <- app_assoc.
    split; [done |]. split; [by destruct ds |].
    split; [rewrite forallb_app, Hall; cbn; by rewrite Hdig |].
    rewrite fold_left_app, Hv. cbn. unfold dec_step. rewrite Hval.
    pose proof (Z.div_mod n 10). lia.
Qed.

Lemma digits_spec (n : Z) :
  0 <= n ->
  digits n <> [] /\ forallb is_dec_digit (digits n) = true /\
  fold_left dec_step (digits n) 0 = n.
Proof.
  intros Hn. unfold digits.
  destruct (digits_of_spec (S (Z.to_nat (Z.log2 n))) n [] Hn) as (ds & -> & H); [lia |].
  by rewrite app_nil_r.
Qed.

Lemma py_int_digits (sign : Z) (ds : list ascii) :
  ds <> [] -> forallb is_dec_digit ds = true ->
  match ds with
  | c :: _ => if is_underscore c then None else
      match scan_digits 10 false 0 0 ds with
      | Some (v, n, rest) =>
          match n, skip_spaces rest with
          | S _, [] => Some (sign * v)
          | _, _ => None
          end
      | None => None
      end
  | [] => None
  end = Some (sign * fold_left dec_step ds 0).
Proof.
  intros Hne Hall. destruct ds as [| c ds]; [done |].
  rewrite (scan_digits_dec _ Hall). cbn in Hall. apply andb_true_iff in Hall as [Hc _].
  assert (Hus : is_underscore c = false) by (unfold is_underscore, is_dec_digit in *; lia).
  rewrite Hus. reflexivity.
Qed.

Lemma dec_digit_plain (c : ascii) :
  is_dec_digit c = true ->
  to_ascii_space c = c /\ py_isspace c = false /\
  (code c =? 43) = false /\ (code c =? 45) = false.
Proof.
  unfold is_dec_digit, to_ascii_space, py_isspace. intros H.
  destruct (code c =? 133) eqn:E1; [lia |]. destruct (code c =? 160) eqn:E2; [lia |].
  repeat split; lia.
Qed.

Lemma map_to_ascii_space_digits (ds : list ascii) :
  forallb is_dec_digit ds = true -> map to_ascii_space ds = ds.
Proof.
  induction ds as [| c ds IH]; [done |]. cbn. intros H.
  apply andb_true_iff in H as [Hc Hds].
  destruct (dec_digit_plain c Hc) as (-> & _). by rewrite IH.
Qed.

Lemma skip_prefix_10 (l : list ascii) : skip_prefix 10 l = l.
Proof. by destruct l as [| c0 [| c1 l]]. Qed.

(** [int(str(k)) == k] for every integer. *)
Lemma py_int_py_str (z : Z) : py_int 10 (py_str z) = Some z.
Proof.
  unfold py_int, py_str. rewrite list_ascii_of_string_of_list_ascii.
  destruct (Z.ltb_spec z 0) as [Hneg | Hpos].
  - destruct (digits_spec (- z)) as (Hne & Hall & Hv); [lia |].
    cbn [map]. rewrite (map_to_ascii_space_digits _ Hall).
    change (to_ascii_space "-") with "-"%char.
    cbn [skip_spaces]. change (py_isspace "-") with false. cbn iota.
    cbn [skip_sign]. change (code "-" =? 43) with false. change (code "-" =? 45) with true.
    cbn iota. rewrite skip_prefix_10, (py_int_digits (-1) _ Hne Hall), Hv. f_equal. lia.
  - destruct (digits_spec z Hpos) as (Hne & Hall & Hv).
    rewrite (map_to_ascii_space_digits _ Hall).
    destruct (digits z) as [| c ds] eqn:Hd; [done |].
    pose proof Hall as Hall'. cbn in Hall. apply andb_true_iff in Hall as [Hc _].
    destruct (dec_digit_plain c Hc) as (_ & Hsp & Hp & Hm).
    cbn [skip_spaces]. rewrite Hsp. cbn [skip_sign]. rewrite Hp, Hm.
    rewrite skip_prefix_10, (py_int_digits 1 _ Hne Hall'), Hv. f_equal. lia.
Qed.

End StrFacts.

Section PersistFacts.
Import Hashing FaissStore Persist.
Context {F : Type}.
Implicit Types (self : FAISSStore F) (disk : Disk F).

Lemma int_keys_dump (l : list (Z * string)) :
  int_keys (map (fun kv => (py_str (fst kv), snd kv)) l) = Some l.
Proof.
  induction l as [| [k v] l IH]; [done |].
  cbn [map int_keys fst snd]. by rewrite py_int_py_str, IH.
Qed.

Lemma pydict_set_fresh {K V} `{EqDecision K} (k : K) (v : V) (m : list (K * V)) :
  ~ In k (map fst m) -> PyDict.set k v m = m ++ [(k, v)].
Proof.
  induction m as [| [k0 v0] m IH]; [done |]. cbn [map fst PyDict.set]. intros Hk.
  destruct (decide (k = k0)) as [-> | Hne]; [exfalso; apply Hk; by left |].
  cbn. f_equal. apply IH. intros Hin. apply Hk. by right.
Qed.

Lemma pydict_of_items_nodup {K V} `{EqDecision K} (l : list (K * V)) :
  NoDup (map fst l) -> PyDict.of_items l = l.
Proof.
  unfold PyDict.of_items.
  assert (Hgen : forall acc, NoDup (map fst (acc ++ l)) ->
                             fold_left (fun m kv => PyDict.set (fst kv) (snd kv) m) l acc
                             = acc ++ l).
  { induction l as [| [k v] l IH]; intros acc Hnd; cbn [fold_left].
    - by rewrite app_nil_r.
    - rewrite pydict_set_fresh.
      + rewrite IH; [by rewrite <- app_assoc | by rewrite <- app_assoc].
      + rewrite map_app in Hnd. apply NoDup_app in Hnd as (_ & Hdisj & _).
        intros Hin. apply (Hdisj k); [by apply list_elem_of_In | cbn; left]. }
  intros Hnd. by apply (Hgen []).
Qed.

Lemma fold_insert_list_to_map {K V} `{Countable K} (l : list (K * V)) :
  fold_left (fun (m : gmap K V) kv => <[ fst kv := snd kv ]> m) l ∅ = list_to_map (rev l).
Proof. unfold list_to_map. by rewrite fold_left_rev_right. Qed.

Lemma forward_map_of_items (m : gmap Z string) (l : list (Z * string)) :
  Permutation (map_to_list m) l -> forward_map l = m.
Proof.
  intros Hperm. unfold forward_map. rewrite fold_insert_list_to_map.
  rewrite <- (list_to_map_to_list m). symmetry. apply list_to_map_proper.
  - apply NoDup_fst_map_to_list.
  - by rewrite Hperm, <- Permutation_rev.
Qed.

Lemma reverse_map_of_items (m : gmap Z string) (r : gmap string Z) (l : list (Z * string)) :
  inverse_maps m r -> Permutation (map_to_list m) l -> reverse_map l = r.
Proof.
  intros Hinv Hperm. unfold reverse_map.
  assert (Hswap : forall (l : list (Z * string)) (acc : gmap string Z),
             fold_left (fun m kv => <[ snd kv := fst kv ]> m) l acc
             = fold_left (fun m kv => <[ fst kv := snd kv ]> m)
                         (map (fun kv => (snd kv, fst kv)) l) acc).
  { induction l0 as [| kv l0 IH]; intros acc; [done | apply IH]. }
  rewrite Hswap, fold_insert_list_to_map.
  set (sw := map (fun kv : Z * string => (snd kv, fst kv)) l).
  assert (Hmem : forall i x, (i, x) ∈ rev sw <-> r !! i = Some x).
  { intros i x. rewrite list_elem_of_In, <- in_rev, <- list_elem_of_In.
    unfold sw. change (map ?f l) with (f <$> l). rewrite list_elem_of_fmap.
    split.
    - intros ([k v] & Heq & Hin). cbn in Heq. injection Heq as -> ->.
      apply Hinv, elem_of_map_to_list. by rewrite Hperm.
    - intros Hr. apply Hinv, elem_of_map_to_list in Hr.
      exists (x, i). split; [done | by rewrite <- Hperm]. }
  assert (Huniq : forall i x x', (i, x) ∈ rev sw -> (i, x') ∈ rev sw -> x = x').
  { intros i x x' H1 H2. apply Hmem in H1, H2. congruence. }
  apply map_eq. intros i. apply option_eq. intros x.
  rewrite <- Hmem. symmetry. apply elem_of_list_to_map'. intros x' H1 H2. by eapply Huniq.
Qed.

Lemma forward_items_dump (m : gmap Z string) (items : list (string * string)) :
  Permutation items (dump_items m) ->
  exists l, forward_items (Some items) = Some l /\ Permutation (map_to_list m) l.
Proof.
  unfold dump_items. intros Hperm.
  apply Permutation_map_inv in Hperm as (l & -> & Hl).
  exists l. split; [| done]. unfold forward_items.
  change (default [] (Some ?x)) with x.
  rewrite int_keys_dump. cbn [option_map]. f_equal. apply pydict_of_items_nodup.
  rewrite <- Hl. pose proof (NoDup_fst_map_to_list m) as Hnd. exact Hnd.
Qed.

(** Loading a disk that holds a store gives that store back. *)
Lemma load_indices_holds disk self self0 :
  holds disk self ->
  _is_loaded self = true ->
  mappings_inverse self ->
  _dimension self0 = _dimension self ->
  load_indices disk self0 = (self, true).
Proof.
  intros (Hf & ti & ii & t_items & i_items & Hti & Hii & Htp & Hip & Hmp & Hpt & Hpi)
         Hl [Hinv_t Hinv_i] Hdim.
  destruct (forward_items_dump _ _ Hpt) as (lt & Hlt & Hplt).
  destruct (forward_items_dump _ _ Hpi) as (li & Hli & Hpli).
  unfold load_indices, load_body. rewrite Hf, Htp, Hip, Hmp. cbn.
  rewrite Hlt, Hli. f_equal.
  rewrite (forward_map_of_items _ _ Hplt), (forward_map_of_items _ _ Hpli).
  rewrite (reverse_map_of_items _ _ _ Hinv_t Hplt), (reverse_map_of_items _ _ _ Hinv_i Hpli).
  destruct self; cbn in *. congruence.
Qed.

Lemma store_ok_mappings_inverse self : store_ok self -> mappings_inverse self.
Proof.
  intros (_ & (ti & _ & _ & _ & _ & Ht) & (ii & _ & _ & _ & _ & Hi)). split; assumption.
Qed.

(** X2.  [save_indices] followed by [load_indices]: on a loaded store with both
    indices whose mappings are inverse to each other (as they are after
    [create_indices] and any number of adds), the save succeeds, and a load
    from the saved files, into any store of the same dimension, gives back
    the saved store: the same indices, mappings and vector counts.  This
    holds for every order in which the items are written. *)
Theorem save_then_load disk self (ti ii : Index F) :
  faiss_importable disk = true ->
  _is_loaded self = true ->
  _text_index self = Some ti ->
  _image_index self = Some ii ->
  mappings_inverse self ->
  snd (save_indices disk self) = true /\
  holds (fst (save_indices disk self)) self /\
  (forall disk' self0,
      holds disk' self -> _dimension self0 = _dimension self ->
      load_indices disk' self0 = (self, true)).
Proof.
  intros Hf Hl Hti Hii Hinv.
  unfold save_indices. rewrite Hl, Hf, Hti, Hii. cbn [negb fst snd].
  split; [done |]. split.
  - split; [done |].
    exists ti, ii, (dump_items (_text_id_to_image_id self)),
      (dump_items (_image_id_to_image_id self)).
    cbn. repeat split; done.
  - intros disk' self0 Hh Hdim. by apply load_indices_holds.
Qed.

End PersistFacts.

(** ** More on adding and loading *)

Section StoreMoreFacts.
Import FaissStore Persist.
Context {F : Type}.
Implicit Types (self : FAISSStore F) (disk : Disk F) (k : kind)
         (vector : list F) (image_id : string).

Lemma appended_forward k self index' image_id vector_id :
  id_to_image_id k (appended k self index' image_id vector_id) !! vector_id = Some image_id.
Proof. destruct k; cbn; apply lookup_insert_eq. Qed.

Lemma store_ok_dense k self : store_ok self -> dense k self.
Proof. intros (_ & Ht & Hi). by destruct k. Qed.

(** X4.  The id that [add_vector] returns resolves back to the identity: on a
    store made by [create_indices] and adds, after a call that returns an
    id, both mappings of the kind relate that id and the identity,
    [has_vectors_for_image] reports the vector, and the id is below the
    vector count; a call that returns [None] leaves the store unchanged. *)
Theorem add_vector_resolves disk k self vector image_id :
  store_ok self ->
  let self' := fst (add_vector disk k self vector image_id) in
  match snd (add_vector disk k self vector image_id) with
  | Some vector_id =>
      id_to_image_id k self' !! vector_id = Some image_id /\
      image_id_to_vector k self' !! image_id = Some vector_id /\
      0 <= vector_id < vector_count k self' /\
      (match k with Text => fst | Image => snd end) (has_vectors_for_image self' image_id)
      = true
  | None => self' = self
  end.
Proof.
  intros Hok self'.
  assert (Hok' : store_ok self') by (by apply store_ok_add).
  pose proof Hok as (Hl & _).
  destruct (add_vector_cases disk k self vector image_id Hl)
    as [(vector_id & Hadd & Hin) | [Hadd | (index & Hidx & Hnew & Hadd)]];
    subst self'; rewrite Hadd in *; cbn [fst snd] in *; [| done |].
  - destruct (store_ok_dense k _ Hok) as (index & Hidx & _ & Hdom & _ & Hbij).
    split; [by apply Hbij |]. split; [done |].
    split.
    + rewrite (vector_count_loaded k self index Hl Hidx). apply Hdom.
      exists image_id. by apply Hbij.
    + unfold has_vectors_for_image. destruct k; cbn [fst snd image_id_to_vector] in *;
        apply bool_decide_eq_true; by rewrite Hin.
  - split; [apply appended_forward |]. split; [apply appended_lookup |].
    split.
    + erewrite vector_count_loaded;
        [| by rewrite appended_loaded | apply appended_index].
      rewrite ntotal_add. unfold ntotal. lia.
    + pose proof (appended_lookup k self {| d := d index; xb := xb index ++ [vector] |}
                                  image_id (ntotal index)) as Hlk.
      unfold has_vectors_for_image. destruct k; cbn [fst snd image_id_to_vector] in *;
        apply bool_decide_eq_true; by rewrite Hlk.
Qed.

(** X5.  When the mapping read from disk has an entry at the next free vector
    id (the counts disagreed and the load did not check), the next add
    reuses that id: the old identity and the new one then both claim the
    same vector, and the id resolves to the new identity only. *)
Theorem add_after_mismatch disk k self (index : Index F) vector (old_id new_id : string) :
  _is_loaded self = true ->
  index_of k self = Some index ->
  id_to_image_id k self !! ntotal index = Some old_id ->
  image_id_to_vector k self !! old_id = Some (ntotal index) ->
  image_id_to_vector k self !! new_id = None ->
  length vector = d index ->
  vector <> [] ->
  let self' := fst (add_vector disk k self vector new_id) in
  snd (add_vector disk k self vector new_id) = Some (ntotal index) /\
  image_id_to_vector k self' !! old_id = Some (ntotal index) /\
  image_id_to_vector k self' !! new_id = Some (ntotal index) /\
  id_to_image_id k self' !! ntotal index = Some new_id /\
  old_id <> new_id.
Proof.
  intros Hl Hidx Hfwd Hold Hnew Hlen Hne self'. subst self'.
  assert (Hdiff : old_id <> new_id) by congruence.
  rewrite (add_vector_fresh disk k self vector new_id index Hl Hnew Hidx Hlen Hne).
  cbn [fst snd]. split; [done |].
  split; [| split; [apply appended_lookup | split; [apply appended_forward | done]]].
  destruct k; cbn in *; by rewrite lookup_insert_ne.
Qed.

(** *** The two kinds do not interfere *)

(** X6.  On a loaded store, adding a text vector and adding an image vector
    commute: either order ends in the same store and each call returns the
    id it returns when run alone. *)
Theorem add_kinds_commute disk self (v1 v2 : list F) (id1 id2 : string) :
  _is_loaded self = true ->
  snd (add_image_vector disk (fst (add_text_vector disk self v1 id1)) v2 id2)
  = snd (add_image_vector disk self v2 id2) /\
  snd (add_text_vector disk (fst (add_image_vector disk self v2 id2)) v1 id1)
  = snd (add_text_vector disk self v1 id1) /\
  fst (add_image_vector disk (fst (add_text_vector disk self v1 id1)) v2 id2)
  = fst (add_text_vector disk (fst (add_image_vector disk self v2 id2)) v1 id1).
Proof.
  intros Hl. unfold add_text_vector, add_image_vector, _ensure_loaded.
  rewrite Hl. cbn [negb].
  destruct (_image_id_to_text_vector self !! id1) as [vid1 |] eqn:H1;
    destruct (_image_id_to_image_vector self !! id2) as [vid2 |] eqn:H2;
    destruct (reshape_row v1) as [r1 |] eqn:Hr1;
    destruct (reshape_row v2) as [r2 |] eqn:Hr2;
    destruct (_text_index self) as [ti |] eqn:Hti;
    destruct (_image_index self) as [ii |] eqn:Hii;
    cbn; rewrite ?Hl; cbn; rewrite ?H1, ?H2, ?Hti, ?Hii; cbn; try done.
  all: repeat match goal with
         | |- context [index_add ?i ?v] =>
             let E := fresh "Ha" in
             destruct (index_add i v) eqn:E; cbn; rewrite ?Hl; cbn;
             rewrite ?H1, ?H2, ?Hti, ?Hii; cbn
         end; simplify_eq; try done.
Qed.

End StoreMoreFacts.

Section StoreLoadFacts.
Import FaissStore Persist.
Context {F : Type}.
Implicit Types (self : FAISSStore F) (disk : Disk F) (k : kind).

Lemma create_indices_dimension disk self :
  _dimension (fst (create_indices disk self)) = _dimension self.
Proof. unfold create_indices. by destruct (faiss_importable disk). Qed.

Lemma load_body_dimension disk self :
  _dimension (fst (load_body disk self)) = _dimension self.
Proof.
  unfold load_body. destruct (text_path disk); try done.
  destruct (image_path disk); try done.
  destruct (mapping_path disk) as [| | mappings]; try done.
  destruct (forward_items (text_to_image mappings)); [| done].
  by destruct (forward_items (image_to_image mappings)).
Qed.

Lemma load_indices_dimension disk self :
  _dimension (fst (load_indices disk self)) = _dimension self.
Proof.
  unfold load_indices. destruct (negb (faiss_importable disk));
    [apply create_indices_dimension |].
  destruct (_ || _); [apply create_indices_dimension |].
  pose proof (load_body_dimension disk self) as Hb.
  destruct (load_body disk self) as [self' ok]. cbn [fst] in Hb.
  destruct ok; [done |]. by rewrite create_indices_dimension.
Qed.

Lemma add_vector_dimension disk k self (vector : list F) (image_id : string) :
  _dimension (fst (add_vector disk k self vector image_id)) = _dimension self.
Proof.
  pose proof (load_indices_dimension disk self) as Hload.
  destruct k; cbn [add_vector]; [unfold add_text_vector | unfold add_image_vector];
    unfold _ensure_loaded; destruct (negb (_is_loaded self)).
  all: try (destruct (load_indices disk self) as [self' ok]; cbn [fst] in Hload;
            rewrite <- Hload; destruct ok; cbn [negb]; [| done]).
  all: repeat case_match; done.
Qed.

Lemma run_adds_dimension disk (calls : list call) self :
  _dimension (run_adds disk calls self) = _dimension self.
Proof.
  revert self. induction calls as [| c calls IH]; intros self; [done |].
  cbn [run_adds fold_left]. unfold run_adds in IH. rewrite IH.
  apply add_vector_dimension.
Qed.

(** X3.  [load_indices] starts from the disk, not from the store: whenever the
    mapping file exists or an index file cannot be used, the result depends
    on the store only through its dimension.  So vectors added since the
    last save are gone after a reload, as at the start of each embedding
    run. *)
Theorem load_indices_forgets disk self1 self2 :
  faiss_importable disk = true ->
  (mapping_path disk <> Missing \/
   (forall ti, text_path disk <> Stored ti) \/ (forall ii, image_path disk <> Stored ii)) ->
  _dimension self1 = _dimension self2 ->
  load_indices disk self1 = load_indices disk self2 /\
  (forall calls : list call,
      load_indices disk (run_adds disk calls self1) = load_indices disk self1).
Proof.
  intros Hf Hfiles.
  assert (Hgen : forall s1 s2, _dimension s1 = _dimension s2 ->
                               load_indices disk s1 = load_indices disk s2).
  { intros s1 s2 Hdim. unfold load_indices, load_body, create_indices.
    rewrite Hf. cbn [negb]. destruct (_ || _); [by rewrite Hdim |].
    destruct (text_path disk) as [| | ti] eqn:Ht; cbn; try by rewrite Hdim.
    destruct (image_path disk) as [| | ii] eqn:Hi; cbn; try by rewrite Hdim.
    destruct (mapping_path disk) as [| | mappings] eqn:Hm; cbn; try by rewrite Hdim.
    - destruct Hfiles as [H | [H | H]]; [done | by destruct (H ti) | by destruct (H ii)].
    - destruct (forward_items (text_to_image mappings)); cbn; [| by rewrite Hdim].
      destruct (forward_items (image_to_image mappings)); cbn; by rewrite Hdim. }
  intros Hdim. split; [by apply Hgen |].
  intros calls. apply Hgen, run_adds_dimension.
Qed.

End StoreLoadFacts.

Section SearchFacts.
Import FaissStore.
Implicit Types (index : Index Q) (query : list Q).

Lemma in_take_In {A} (n : nat) (l : list A) (x : A) : In x (take n l) -> In x l.
Proof.
  intros Hin. rewrite <- (take_drop n l). apply in_or_app. by left.
Qed.

Lemma index_hits_lookup index query (s : Q) (z : Z) :
  In (s, z) (imap (fun i v => (inner_product query v, Z.of_nat i)) (xb index)) <->
  exists (i : nat) row, xb index !! i = Some row /\ s = inner_product query row /\ z = Z.of_nat i.
Proof.
  rewrite <- list_elem_of_In, elem_of_lookup_imap. split.
  - intros (i & row & Heq & Hrow). exists i, row. by simplify_eq.
  - intros (i & row & Hrow & -> & ->). by exists i, row.
Qed.

Lemma index_hits_ids index query :
  NoDup (map snd (imap (fun i v => (inner_product query v, Z.of_nat i)) (xb index))).
Proof.
  change (map snd ?l) with (snd <$> l). apply NoDup_alt. intros i j z Hi Hj.
  rewrite list_lookup_fmap, list_lookup_imap in Hi, Hj.
  destruct (xb index !! i); destruct (xb index !! j); simplify_eq/=. lia.
Qed.

Lemma collect_results_all (hits : list (Q * Z)) :
  Forall (fun h => 0 <= snd h) hits ->
  collect_results hits = map (fun h => {| vector_id := snd h; score := fst h |}) hits.
Proof.
  intros Hall. unfold collect_results. f_equal.
  induction Hall as [| h hits Hh _ IH]; [done |].
  simpl. replace (0 <=? snd h) with true by (symmetry; by apply Z.leb_le).
  by rewrite IH.
Qed.

Lemma search_index_hits index query (k : nat) :
  query <> [] -> length query = d index ->
  search_index (Some index) query k
  = Return (map (fun h => {| vector_id := snd h; score := fst h |})
                (take (Nat.min k (length (xb index)))
                      (sort_desc fst (imap (fun i v => (inner_product query v, Z.of_nat i))
                                           (xb index))))).
Proof.
  intros Hq Hlen. unfold search_index, ntotal.
  destruct (Z.of_nat (length (xb index)) =? 0) eqn:E.
  - apply Z.eqb_eq in E. assert (Hn : length (xb index) = 0%nat) by lia.
    by rewrite Hn, Nat.min_0_r.
  - destruct query as [| x query]; [done |]. unfold reshape_row.
    unfold index_search. rewrite (proj2 (Nat.eqb_eq _ _) Hlen).
    rewrite collect_results_all; [done |].
    apply Forall_forall. intros [s z] Hin. apply list_elem_of_In in Hin.
    apply in_take_In, (Permutation_in _ (sort_desc_perm _ _)) in Hin.
    apply index_hits_lookup in Hin as (i & row & _ & _ & ->). simpl. lia.
Qed.

Lemma sorted_results (hits : list (Q * Z)) :
  StronglySorted (desc fst) hits ->
  StronglySorted (desc score)
                 (map (fun h => {| vector_id := snd h; score := fst h |}) hits).
Proof.
  induction 1 as [| h hits _ IH Hall]; simpl; constructor; [done |].
  apply Forall_forall. intros r Hr. apply list_elem_of_In, in_map_iff in Hr as (h' & <- & Hin).
  rewrite Forall_forall in Hall. apply Hall. by apply list_elem_of_In.
Qed.

(** X8.  A search with a query of the index's dimension returns the
    [min k ntotal] rows of largest inner product: best first, each row at
    most once, each score the inner product of the query with the row the
    id names, and no row left out scores higher than a row returned.  A
    loaded store is left as it was. *)
Theorem search_index_topk index query (k : nat) :
  query <> [] -> length query = d index ->
  exists results,
    search_index (Some index) query k = Return results /\
    (forall disk self, _is_loaded self = true ->
       (_text_index self = Some index ->
        search_text disk self query k = (self, Return results)) /\
       (_image_index self = Some index ->
        search_image disk self query k = (self, Return results))) /\
    length results = Nat.min k (length (xb index)) /\
    StronglySorted (desc score) results /\
    NoDup (map vector_id results) /\
    (forall r, In r results ->
       0 <= vector_id r /\
       exists row, xb index !! Z.to_nat (vector_id r) = Some row /\
                   score r = inner_product query row) /\
    (forall (i : nat) row, xb index !! i = Some row ->
       ~ In (Z.of_nat i) (map vector_id results) ->
       forall r, In r results -> (inner_product query row <= score r)%Q).
Proof.
  intros Hq Hlen. eexists. split; [by apply search_index_hits |].
  set (hits := imap (fun i v => (inner_product query v, Z.of_nat i)) (xb index)).
  set (n := Nat.min k (length (xb index))).
  pose proof (sort_desc_perm fst hits) as Hperm.
  pose proof (sort_desc_sorted fst hits) as Hsorted.
  assert (Hids : forall l : list (Q * Z),
             map vector_id (map (fun h => {| vector_id := snd h; score := fst h |}) l)
             = map snd l).
  { intros l. rewrite map_map. by apply map_ext. }
  split.
  { intros disk self Hl. split; intros Hidx.
    - unfold search_text. rewrite (ensure_loaded_loaded _ _ Hl). cbn.
      by rewrite Hidx, (search_index_hits _ _ _ Hq Hlen).
    - unfold search_image. rewrite (ensure_loaded_loaded _ _ Hl). cbn.
      by rewrite Hidx, (search_index_hits _ _ _ Hq Hlen). }
  split.
  { rewrite length_map, length_take, (Permutation_length Hperm).
    unfold hits. rewrite length_imap. subst n. lia. }
  split.
  { apply sorted_results. rewrite <- (take_drop n (sort_desc fst hits)) in Hsorted.
    by apply StronglySorted_app_1_l in Hsorted. }
  split.
  { rewrite Hids. pose proof (index_hits_ids index query) as Hnd. fold hits in Hnd.
    apply NoDup_ListNoDup in Hnd.
    apply (Permutation_NoDup (Permutation_map snd (Permutation_sym Hperm))) in Hnd.
    apply NoDup_ListNoDup in Hnd.
    rewrite <- (take_drop n (sort_desc fst hits)), map_app in Hnd.
    by apply NoDup_app in Hnd as (Hnd & _). }
  split.
  { intros r Hr. apply in_map_iff in Hr as ([s z] & <- & Hin). cbn.
    apply in_take_In, (Permutation_in _ Hperm), index_hits_lookup in Hin
      as (i & row & Hrow & -> & ->).
    split; [lia |]. exists row. by rewrite Nat2Z.id. }
  intros i row Hrow Hout r Hr.
  apply in_map_iff in Hr as (h & <- & Hin). cbn.
  assert (Hi : In (inner_product query row, Z.of_nat i) (sort_desc fst hits)).
  { apply (Permutation_in _ (Permutation_sym Hperm)), index_hits_lookup. by exists i, row. }
  rewrite <- (take_drop n (sort_desc fst hits)) in Hi, Hsorted.
  apply in_app_or in Hi as [Hi | Hi].
  - destruct Hout. rewrite Hids. apply in_map_iff.
    by exists (inner_product query row, Z.of_nat i).
  - apply list_elem_of_In in Hin, Hi.
    exact (StronglySorted_app_1_elem_of _ _ _ _ _ Hsorted Hin Hi).
Qed.

(** X9.  A query whose length is not the dimension of the index is answered by
    the empty list: the assertion of the binding is caught and logged.  A
    hybrid search over such indices ranks nothing. *)
Theorem search_wrong_dimension disk (self : FAISSStore Q) ti ii query (k : nat)
        (text_weight image_weight : Q) :
  _is_loaded self = true ->
  _text_index self = Some ti -> _image_index self = Some ii ->
  length query <> d ti -> length query <> d ii ->
  search_text disk self query k = (self, Return []) /\
  search_image disk self query k = (self, Return []) /\
  hybrid_search disk self query k text_weight image_weight = (self, Return []).
Proof.
  intros Hl Hti Hii Ht Hi.
  assert (Hs : forall index n, length query <> d index ->
                               search_index (Some index) query n = Return []).
  { intros index n Hne. unfold search_index.
    destruct (ntotal index =? 0); [done |]. unfold reshape_row.
    unfold index_search. by rewrite (proj2 (Nat.eqb_neq _ _) Hne). }
  assert (Hst : forall n, search_text disk self query n = (self, Return [])).
  { intros n. unfold search_text. rewrite (ensure_loaded_loaded _ _ Hl). cbn.
    by rewrite Hti, Hs. }
  assert (Hsi : forall n, search_image disk self query n = (self, Return [])).
  { intros n. unfold search_image. rewrite (ensure_loaded_loaded _ _ Hl). cbn.
    by rewrite Hii, Hs. }
  split; [done |]. split; [done |].
  unfold hybrid_search. rewrite Hst, Hsi. unfold combine_results. cbn.
  by rewrite take_nil.
Qed.

End SearchFacts.

(** ** The ingestion loop *)

Section IngestFacts.
Import Hashing Dedup Ingest.
Implicit Types (st : loop_state) (download : download_result) (known : gset string).

Lemma known_again (X : gset string) (x : string) : x ∈ X -> X ∪ {[ x ]} = X.
Proof.
  intros Hx. apply set_eq. intros y. rewrite elem_of_union, elem_of_singleton.
  split; [intros [H | ->]; done | by left].
Qed.

Lemma check_bytes_cases dedup (b : option (list byte)) :
  (exists e, check_bytes dedup b = (dedup, Raise e)) \/
  (exists id, check_bytes dedup b = (dedup, Return (id, true)) /\ id ∈ _known_ids dedup) \/
  (exists id, check_bytes dedup b
              = ({| _known_ids := _known_ids dedup ∪ {[ id ]} |}, Return (id, false)) /\
              id ∉ _known_ids dedup).
Proof.
  destruct b as [b |]; cbn [check_bytes]; [| left; by eexists].
  unfold check_and_register. destruct (get_image_id b) as [id | e]; [| left; by eexists].
  right. unfold is_duplicate. destruct (bool_decide_reflect (id ∈ _known_ids dedup)).
  - left. by exists id.
  - right. by exists id.
Qed.

Lemma check_bytes_file_id download proc_result dedup :
  proc_answer download = Answers proc_result ->
  success proc_result = true ->
  match snd (check_bytes dedup (image_bytes proc_result)) with
  | Return (id, _) => file_id download = Some id
  | Raise _ => file_id download = None
  end.
Proof.
  intros Hp Hs. unfold file_id. rewrite Hp, Hs.
  destruct (image_bytes proc_result) as [b |]; cbn [check_bytes snd]; [| done].
  unfold check_and_register. destruct (get_image_id b) as [id | e]; [| done].
  by destruct (is_duplicate dedup id).
Qed.

Lemma loop_body_known st download :
  _known_ids (dedup_service (loop_body st download))
  = _known_ids (dedup_service st)
      ∪ match file_id download with Some id => {[ id ]} | None => ∅ end.
Proof.
  unfold loop_body. destruct (proc_answer download) as [proc_result |] eqn:Hp.
  2:{ unfold file_id. rewrite Hp. cbn. by rewrite union_empty_r_L. }
  destruct (success proc_result) eqn:Hs; cbn [negb].
  2:{ unfold file_id. rewrite Hp, Hs. cbn. by rewrite union_empty_r_L. }
  pose proof (check_bytes_file_id download proc_result (dedup_service st) Hp Hs) as Hid.
  destruct (check_bytes_cases (dedup_service st) (image_bytes proc_result))
    as [(e & Hc) | [(id & Hc & Hin) | (id & Hc & Hout)]];
    rewrite Hc in *; cbn [snd] in Hid; rewrite Hid.
  - cbn. by rewrite union_empty_r_L.
  - cbn. by rewrite known_again.
  - destruct (upload_answer download) as [url |]; [| done].
    destruct (no_url url); [done |]. by destruct (save_runs download).
Qed.

Lemma run_loop_known downloads :
  forall st, _known_ids (dedup_service (run_loop st downloads))
             = _known_ids (dedup_service st) ∪ file_ids downloads.
Proof.
  unfold run_loop, file_ids.
  induction downloads as [| download downloads IH]; intros st; cbn [fold_left].
  - cbn. by rewrite union_empty_r_L.
  - rewrite IH, loop_body_known.
    change (omap file_id (download :: downloads))
      with (match file_id download with
            | Some id => id :: omap file_id downloads
            | None => omap file_id downloads
            end).
    destruct (file_id download) as [id |]; cbn [list_to_set].
    + by rewrite (assoc_L (∪)).
    + by rewrite union_empty_r_L.
Qed.

Lemma loop_body_inv known st download :
  loop_inv known st ->
  loop_inv known (loop_body st download) /\
  handled (loop_body st download) = handled st + 1.
Proof.
  intros (Hp & Hu & Hnd & Hsaved & Hsub). unfold loop_body, handled.
  assert (Hfail : forall e,
             loop_inv known (failed st (dedup_service st) e) /\
             uploaded (failed st (dedup_service st) e)
             + duplicates (failed st (dedup_service st) e)
             + Z.of_nat (length (errors (failed st (dedup_service st) e)))
             = uploaded st + duplicates st + Z.of_nat (length (errors st)) + 1).
  { intros e. split; [| cbn; rewrite length_app; cbn; lia].
    unfold loop_inv, failed; cbn. repeat split; try done; by apply Hsaved. }
  destruct (proc_answer download) as [proc_result |]; [| apply Hfail].
  destruct (success proc_result); cbn [negb]; [| apply Hfail].
  destruct (check_bytes_cases (dedup_service st) (image_bytes proc_result))
    as [(e & Hc) | [(id & Hc & Hin) | (id & Hc & Hout)]]; rewrite Hc.
  - apply Hfail.
  - split; [| cbn; lia]. unfold loop_inv; cbn. repeat split; try done; by apply Hsaved.
  - assert (Hsaved' : forall id', In id' (map fst (saved st)) ->
                                  (id' ∉ known) /\ (id' ∈ _known_ids (dedup_service st) ∪ {[ id ]})).
    { intros id' Hid'. destruct (Hsaved id' Hid') as [H1 H2].
      split; [done |]. apply elem_of_union. by left. }
    assert (Hsub' : known ⊆ _known_ids (dedup_service st) ∪ {[ id ]}).
    { intros x Hx. apply elem_of_union. left. by apply Hsub. }
    assert (Hfail' : forall e,
               loop_inv known (failed st {| _known_ids := _known_ids (dedup_service st) ∪ {[ id ]} |} e) /\
               uploaded st + duplicates st + Z.of_nat (length (errors st ++ [e]))
               = uploaded st + duplicates st + Z.of_nat (length (errors st)) + 1).
    { intros e. split; [| rewrite length_app; cbn; lia].
      unfold loop_inv, failed; cbn. repeat split; try done; by apply Hsaved'. }
    destruct (upload_answer download) as [url |]; [| apply Hfail'].
    destruct (no_url url); [apply Hfail' |].
    destruct (save_runs download); [| apply Hfail'].
    split; [| cbn; lia].
    unfold loop_inv. cbn [processed uploaded saved dedup_service _known_ids].
    rewrite map_app, length_app. cbn [map fst length].
    split; [lia |]. split; [lia |]. split.
    { apply NoDup_app. split; [done |]. split; [| apply NoDup_singleton].
      intros x Hx Hx'. apply list_elem_of_In in Hx. apply list_elem_of_singleton in Hx'.
      subst x. by destruct (Hsaved id Hx). }
    split; [| done].
    intros id' Hid'. apply in_app_or in Hid' as [Hid' | [<- | []]]; [by apply Hsaved' |].
    split; [| apply elem_of_union; right; by apply elem_of_singleton].
    intros Hk. by apply Hout, Hsub.
Qed.

Lemma run_loop_inv known downloads :
  forall st, loop_inv known st ->
             loop_inv known (run_loop st downloads) /\
             handled (run_loop st downloads) = handled st + Z.of_nat (length downloads).
Proof.
  unfold run_loop.
  induction downloads as [| download downloads IH]; intros st Hinv; cbn [fold_left length].
  - split; [done | lia].
  - destruct (loop_body_inv known st download Hinv) as [Hinv' Hh].
    destruct (IH _ Hinv') as [Hinv'' Hh'']. split; [done | lia].
Qed.

(** X12.  Every downloaded file is counted once, as uploaded, as duplicate or as
    error; the loop saves one row per upload, no identity twice and none
    that the registry held before; the registry only grows, and holds
    every identity saved. *)
Theorem ingest_accounting dedup (downloads : list download_result) :
  let st := run_loop (initial dedup) downloads in
  uploaded st + duplicates st + Z.of_nat (length (errors st))
  = Z.of_nat (length downloads) /\
  processed st = uploaded st /\
  uploaded st = Z.of_nat (length (saved st)) /\
  NoDup (map fst (saved st)) /\
  (forall id, In id (map fst (saved st)) ->
              (id ∉ _known_ids dedup) /\ (id ∈ _known_ids (dedup_service st))) /\
  _known_ids dedup ⊆ _known_ids (dedup_service st).
Proof.
  intros st.
  assert (Hinit : loop_inv (_known_ids dedup) (initial dedup)).
  { repeat split; cbn; try done. constructor. }
  destruct (run_loop_inv _ downloads _ Hinit) as [(Hp & Hu & Hnd & Hs & Hsub) Hh].
  fold st in Hp, Hu, Hnd, Hs, Hsub, Hh. unfold handled in Hh. cbn in Hh.
  repeat split; try done; try lia; by apply Hs.
Qed.

Lemma loop_body_known_file st download :
  (forall id, file_id download = Some id -> id ∈ _known_ids (dedup_service st)) ->
  dedup_service (loop_body st download) = dedup_service st /\
  uploaded (loop_body st download) = uploaded st /\
  saved (loop_body st download) = saved st.
Proof.
  intros Hknown. unfold loop_body.
  destruct (proc_answer download) as [proc_result |] eqn:Hp; [| done].
  destruct (success proc_result) eqn:Hs; cbn [negb]; [| done].
  pose proof (check_bytes_file_id download proc_result (dedup_service st) Hp Hs) as Hid.
  destruct (check_bytes_cases (dedup_service st) (image_bytes proc_result))
    as [(e & Hc) | [(id & Hc & Hin) | (id & Hc & Hout)]];
    rewrite Hc in *; cbn [snd] in Hid; [done | done |].
  destruct Hout. by apply Hknown.
Qed.

Lemma run_loop_known_files downloads :
  forall st,
    (forall download id, In download downloads -> file_id download = Some id ->
                         id ∈ _known_ids (dedup_service st)) ->
    dedup_service (run_loop st downloads) = dedup_service st /\
    uploaded (run_loop st downloads) = uploaded st /\
    saved (run_loop st downloads) = saved st.
Proof.
  unfold run_loop.
  induction downloads as [| download downloads IH]; intros st Hknown; cbn [fold_left];
    [done |].
  destruct (loop_body_known_file st download) as (Hd & Hu & Hs).
  { intros id. apply Hknown. by left. }
  destruct (IH (loop_body st download)) as (Hd' & Hu' & Hs').
  { intros d id Hin. rewrite Hd. apply Hknown. by right. }
  by rewrite Hd', Hu', Hs'.
Qed.

(** X13.  The identity of a file is registered before its upload, and stays
    registered when the upload or the save fails.  So after a pass the
    registry holds the identity of every processed file, and a later pass
    over files of the first one uploads and saves nothing, whatever the
    storage answers then. *)
Theorem ingest_never_retries dedup (downloads again : list download_result) :
  (forall download, In download again ->
                    In (proc_answer download) (map proc_answer downloads)) ->
  let st1 := run_loop (initial dedup) downloads in
  let st2 := run_loop (initial (dedup_service st1)) again in
  _known_ids (dedup_service st1) = _known_ids dedup ∪ file_ids downloads /\
  dedup_service st2 = dedup_service st1 /\
  uploaded st2 = 0 /\ saved st2 = [].
Proof.
  intros Hsame st1 st2.
  assert (Hk : _known_ids (dedup_service st1) = _known_ids dedup ∪ file_ids downloads)
    by apply run_loop_known.
  split; [done |].
  apply (run_loop_known_files again (initial (dedup_service st1))).
  intros download id Hin Hid. cbn [initial dedup_service]. rewrite Hk.
  apply elem_of_union. right. unfold file_ids. apply elem_of_list_to_set.
  apply Hsame, in_map_iff in Hin as (download' & Hp & Hin').
  apply list_elem_of_omap. exists download'. split; [by apply list_elem_of_In |].
  rewrite <- Hid. unfold file_id. by rewrite Hp.
Qed.

Lemma ingest_never_retries_witness :
  let st1 := run_loop (initial {| _known_ids := ∅ |}) [abc_upload_down] in
  let st2 := run_loop (initial (dedup_service st1)) [abc_upload_up] in
  _known_ids (dedup_service st1) = ∅ ∪ file_ids [abc_upload_down] /\
  dedup_service st2 = dedup_service st1 /\
  uploaded st2 = 0 /\ saved st2 = [].
Proof.
  apply (ingest_never_retries {| _known_ids := ∅ |} [abc_upload_down] [abc_upload_up]).
  intros download [<- | []]. left. reflexivity.
Defined.

End IngestFacts.

(** ** Maintaining the registry by hand *)

Section RegistryFacts.
Import Sha256 Hashing Dedup.
Implicit Types (self : DeduplicationService).

Lemma lower_hex_is_hex (l : list ascii) :
  forallb is_lower_hex_digit l = true -> forallb is_hex_digit l = true.
Proof.
  rewrite !forallb_forall. intros Hall c Hc. specialize (Hall c Hc).
  unfold is_hex_digit. unfold is_lower_hex_digit in Hall. by rewrite Hall.
Qed.

Lemma hexdigest_valid (h : regs) : is_valid_image_id (hexdigest h) = true.
Proof.
  apply hex_shape_accepted. unfold hex_shape.
  rewrite hexdigest_length. cbn [Nat.eqb andb].
  apply lower_hex_is_hex, hexdigest_lower.
Qed.

(** X11.  Every identity that [compute_image_id] produces passes
    [is_valid_image_id], so [register_id] accepts it, and content whose
    identity was registered by hand is answered as a duplicate; a string
    that has not 64 characters is refused and the registry left alone;
    after [clear] known content is new again. *)
Theorem register_id_then_duplicate self (image_bytes : list byte) :
  image_bytes <> [] ->
  exists image_id,
    get_image_id image_bytes = Return image_id /\
    is_valid_image_id image_id = true /\
    register_id self image_id
    = ({| _known_ids := _known_ids self ∪ {[ image_id ]} |}, Return tt) /\
    check_and_register (fst (register_id self image_id)) image_bytes
    = (fst (register_id self image_id), Return (image_id, true)) /\
    (forall s, String.length s <> 64%nat -> register_id self s = (self, Raise ValueError)) /\
    get_known_count (clear (fst (register_id self image_id))) = 0 /\
    check_and_register (clear (fst (register_id self image_id))) image_bytes
    = ({| _known_ids := ∅ ∪ {[ image_id ]} |}, Return (image_id, false)).
Proof.
  intros Hne. exists (hexdigest (sha256 image_bytes)).
  assert (Hid : get_image_id image_bytes = Return (hexdigest (sha256 image_bytes))).
  { unfold get_image_id, compute_image_id. by destruct image_bytes. }
  pose proof (hexdigest_valid (sha256 image_bytes)) as Hv.
  assert (Hr : register_id self (hexdigest (sha256 image_bytes))
               = ({| _known_ids := _known_ids self ∪ {[ hexdigest (sha256 image_bytes) ]} |},
                  Return tt)).
  { unfold register_id. by rewrite Hv. }
  split; [done |]. split; [done |]. split; [done |]. rewrite Hr. cbn [fst].
  split.
  { apply check_and_register_dup; [done |]. cbn. apply elem_of_union. right.
    by apply elem_of_singleton. }
  split.
  { intros s Hs. unfold register_id. by rewrite (wrong_length_rejected s Hs). }
  split; [done |].
  apply (check_and_register_new (clear _)); [done |]. cbn. apply not_elem_of_empty.
Qed.

Lemma register_id_then_duplicate_witness :
  exists image_id,
    get_image_id (bytes_of_string "abc") = Return image_id /\
    is_valid_image_id image_id = true /\
    register_id {| _known_ids := ∅ |} image_id
    = ({| _known_ids := ∅ ∪ {[ image_id ]} |}, Return tt) /\
    check_and_register (fst (register_id {| _known_ids := ∅ |} image_id))
                       (bytes_of_string "abc")
    = (fst (register_id {| _known_ids := ∅ |} image_id), Return (image_id, true)) /\
    (forall s, String.length s <> 64%nat ->
               register_id {| _known_ids := ∅ |} s = ({| _known_ids := ∅ |}, Raise ValueError)) /\
    get_known_count (clear (fst (register_id {| _known_ids := ∅ |} image_id))) = 0 /\
    check_and_register (clear (fst (register_id {| _known_ids := ∅ |} image_id)))
                       (bytes_of_string "abc")
    = ({| _known_ids := ∅ ∪ {[ image_id ]} |}, Return (image_id, false)).
Proof.
  apply (register_id_then_duplicate {| _known_ids := ∅ |} (bytes_of_string "abc")).
  discriminate.
Defined.

End RegistryFacts.

(** ** The embedding statistics *)

Section IndexerFacts.
Import Indexer.

Lemma count_where_rows (rows : list Row) :
  let count p := Z.of_nat (length (List.filter p rows)) in
  count (fun _ => true) = Z.of_nat (length rows) /\
  0 <= count (fun row => not_null (caption row)) <= Z.of_nat (length rows) /\
  0 <= count (fun row => not_null (text_vector_id row) && not_null (image_vector_id row)) /\
  count (fun row => not_null (text_vector_id row) && not_null (image_vector_id row))
  <= count (fun row => not_null (text_vector_id row)) /\
  count (fun row => not_null (text_vector_id row) && not_null (image_vector_id row))
  <= count (fun row => not_null (image_vector_id row)) /\
  count (fun row => not_null (text_vector_id row))
  + count (fun row => not_null (image_vector_id row))
  - count (fun row => not_null (text_vector_id row) && not_null (image_vector_id row))
  <= Z.of_nat (length rows) /\
  count (fun row => not_null (caption row))
  - count (fun row => not_null (text_vector_id row) && not_null (image_vector_id row))
  = count captioned_without_embeddings - count embedded_without_caption.
Proof.
  induction rows as [| row rows IH]; [cbn; lia |].
  cbn zeta in *. unfold captioned_without_embeddings, embedded_without_caption in *.
  cbn [List.filter].
  destruct (caption row), (text_vector_id row), (image_vector_id row);
    cbn [not_null andb orb negb length]; lia.
Qed.

(** X14.  The figures of [get_embedding_stats] fit together: the captioned and
    the uncaptioned rows make up the table, no figure exceeds the total,
    and [pending_embeddings] is the number of rows the embedding pipeline
    selects less the number of rows that hold both vector ids without a
    caption; it counts the pending rows when there is no such row. *)
Theorem embedding_stats_consistent (table : gmap string Row) :
  let stats := get_embedding_stats table in
  total_images stats = Z.of_nat (size table) /\
  with_captions stats + without_captions stats = total_images stats /\
  pending_captions stats = without_captions stats /\
  0 <= with_captions stats <= total_images stats /\
  0 <= fully_processed stats /\
  fully_processed stats <= with_text_embeddings stats /\
  fully_processed stats <= with_image_embeddings stats /\
  with_text_embeddings stats + with_image_embeddings stats - fully_processed stats
  <= total_images stats /\
  pending_embeddings stats
  = count_where captioned_without_embeddings table
    - count_where embedded_without_caption table.
Proof.
  intros stats. subst stats. unfold get_embedding_stats, count_where.
  cbn [total_images with_captions without_captions with_text_embeddings
       with_image_embeddings fully_processed pending_captions pending_embeddings].
  pose proof (count_where_rows (map snd (map_to_list table))) as H. cbn zeta in H.
  rewrite length_map in H.
  rewrite length_map_to_list in H.
  destruct H as (H1 & H2 & H3 & H4 & H5 & H6 & H7).
  rewrite H1. repeat split; lia.
Qed.

End IndexerFacts.

(** ** The embedding pipeline *)

Section EmbeddingFacts.
Import FaissStore Persist Indexer Embeddings.
Context {F : Type}.
Implicit Types (disk : Disk F) (self store : FAISSStore F) (table : gmap string Row) (k : kind)
         (st : loop_state (F:=F)) (image : image_item (F:=F)).

Lemma load_true_importable disk self self' :
  load_indices disk self = (self', true) -> faiss_importable disk = true.
Proof.
  unfold load_indices, create_indices. destruct (faiss_importable disk); [done |].
  cbn. congruence.
Qed.

Lemma save_indices_holds disk self :
  faiss_importable disk = true -> store_ok self ->
  snd (save_indices disk self) = true /\ holds (fst (save_indices disk self)) self.
Proof.
  intros Hf (Hl & (ti & Hti & _) & (ii & Hii & _)). cbn [index_of] in Hti, Hii.
  unfold save_indices. rewrite Hl, Hf, Hti, Hii. cbn [negb fst snd].
  split; [done |]. split; [done |].
  exists ti, ii, (dump_items (_text_id_to_image_id self)),
    (dump_items (_image_id_to_image_id self)).
  cbn. repeat split; done.
Qed.

Lemma add_vector_summary disk k self (vector : list F) (id : string) :
  store_ok self ->
  store_ok (fst (add_vector disk k self vector id)) /\
  _dimension (fst (add_vector disk k self vector id)) = _dimension self /\
  (forall k' id' v, image_id_to_vector k' self !! id' = Some v ->
                    image_id_to_vector k' (fst (add_vector disk k self vector id)) !! id'
                    = Some v) /\
  (forall v, snd (add_vector disk k self vector id) = Some v ->
             image_id_to_vector k (fst (add_vector disk k self vector id)) !! id = Some v) /\
  (length vector = _dimension self -> vector <> [] ->
   is_Some (snd (add_vector disk k self vector id))).
Proof.
  intros Hok. split; [by apply store_ok_add |].
  split; [apply add_vector_dimension |].
  pose proof Hok as (Hl & _).
  destruct (add_vector_cases disk k self vector id Hl)
    as [(vector_id & Hadd & Hin) | [Hadd | (index & Hidx & Hnew & Hadd)]].
  - rewrite Hadd. cbn [fst snd]. split; [done |]. split; [congruence | by eauto].
  - rewrite Hadd. cbn [fst snd]. split; [done |]. split; [done |].
    intros Hlen Hne.
    destruct (image_id_to_vector k self !! id) as [v |] eqn:Hin.
    { rewrite (add_vector_existing disk k self vector id v Hl Hin) in Hadd. congruence. }
    destruct (store_ok_dense k self Hok) as (index & Hidx & Hd & _).
    rewrite (add_vector_fresh disk k self vector id index Hl Hin Hidx) in Hadd;
      [congruence | congruence | done].
  - rewrite Hadd. cbn [fst snd]. split; [| split; [| by eauto]].
    + intros k' id' v Hv. destruct k, k'; cbn in *; try done;
        (rewrite lookup_insert_ne; [done | congruence]).
    + intros v [= <-]. apply appended_lookup.
Qed.

Lemma consistent_grow table store store' :
  consistent table store ->
  (forall k id v, image_id_to_vector k store !! id = Some v ->
                  image_id_to_vector k store' !! id = Some v) ->
  consistent table store'.
Proof.
  intros Hc Hgrow id row Hrow. destruct (Hc id row Hrow) as [Ht Hi].
  split; intros v Hv.
  - apply (Hgrow Text). by apply Ht.
  - apply (Hgrow Image). by apply Hi.
Qed.

Lemma update_vector_ids_lookup (clock : string) table (id id' : string) (t i : Z) :
  fst (update_vector_ids clock table id (Some t) (Some i)) !! id'
  = match table !! id' with
    | Some row =>
        if decide (id = id') then
          Some {| firebase_url := firebase_url row; original_date := original_date row;
                  location := location row; user_id := user_id row;
                  caption := caption row;
                  text_vector_id := Some t; image_vector_id := Some i;
                  created_at := created_at row; updated_at := clock |}
        else Some row
    | None => None
    end.
Proof.
  unfold update_vector_ids. destruct (decide (id = id')) as [Heq | Hne].
  - subst id'. destruct (table !! id) as [row |] eqn:Hrow; cbn [fst]; [| by rewrite Hrow].
    by rewrite lookup_insert_eq.
  - destruct (table !! id) as [row |] eqn:Hrow; cbn [fst].
    + rewrite lookup_insert_ne by done. by destruct (table !! id').
    + by destruct (table !! id').
Qed.

Lemma consistent_update (clock : string) table store (id : string) (t i : Z) :
  consistent table store ->
  _image_id_to_text_vector store !! id = Some t ->
  _image_id_to_image_vector store !! id = Some i ->
  consistent (fst (update_vector_ids clock table id (Some t) (Some i))) store.
Proof.
  intros Hc Ht Hi id' row'. rewrite update_vector_ids_lookup.
  destruct (table !! id') as [row |] eqn:Hrow; [| done].
  destruct (decide (id = id')) as [<- | Hne]; intros [= <-].
  - cbn. split; intros v [= <-]; done.
  - by apply Hc.
Qed.

Lemma has_both_ids_update (clock : string) table (id id' : string) (t i : Z) :
  (has_both_ids table id' -> 
   has_both_ids (fst (update_vector_ids clock table id (Some t) (Some i))) id') /\
  (is_Some (table !! id) ->
   has_both_ids (fst (update_vector_ids clock table id (Some t) (Some i))) id) /\
  (is_Some (fst (update_vector_ids clock table id (Some t) (Some i)) !! id')
   <-> is_Some (table !! id')).
Proof.
  unfold has_both_ids. split; [| split].
  - intros (row & t' & i' & Hrow & Ht & Hi). rewrite update_vector_ids_lookup, Hrow.
    destruct (decide (id = id')); [by eexists _, t, i | by exists row, t', i'].
  - intros [row Hrow]. rewrite update_vector_ids_lookup, Hrow.
    rewrite decide_True by done. by eexists _, t, i.
  - rewrite update_vector_ids_lookup. destruct (table !! id') as [row |]; [| done].
    destruct (decide (id = id')); split; intros _; by eexists.
Qed.

Ltac unchanged_state :=
  split; [done |]; split; [done |]; split; [done |]; split; [done |];
  split; [done |]; split; [cbn; lia |].

Lemma embed_loop_body disk st image :
  store_ok (faiss_store st) ->
  consistent (images_table st) (faiss_store st) ->
  store_ok (faiss_store (loop_body disk st image)) /\
  consistent (images_table (loop_body disk st image)) (faiss_store (loop_body disk st image)) /\
  _dimension (faiss_store (loop_body disk st image)) = _dimension (faiss_store st) /\
  (forall id, is_Some (images_table (loop_body disk st image) !! id)
              <-> is_Some (images_table st !! id)) /\
  (forall id, has_both_ids (images_table st) id ->
              has_both_ids (images_table (loop_body disk st image)) id) /\
  embedded st <= embedded (loop_body disk st image) <= embedded st + 1 /\
  (embeddable (_dimension (faiss_store st)) image ->
   is_Some (images_table st !! image_id image) ->
   has_both_ids (images_table (loop_body disk st image)) (image_id image)).
Proof.
  intros Hok Hc. unfold loop_body.
  destruct (no_caption (item_caption image)) eqn:Hcap.
  { unchanged_state. intros (? & _). congruence. }
  destruct (bytes_loaded image) eqn:Hb; cbn [negb].
  2:{ unchanged_state. intros (_ & ? & _). congruence. }
  destruct (text_embedding image) as [tv |] eqn:Htv.
  2:{ destruct (image_embedding image); unchanged_state;
        intros (_ & _ & ? & ? & ? & _); congruence. }
  destruct (image_embedding image) as [iv |] eqn:Hiv.
  2:{ unchanged_state. intros (_ & _ & ? & ? & _ & ? & _). congruence. }
  change (add_text_vector disk ?s ?v ?i) with (add_vector disk Text s v i).
  destruct (add_vector_summary disk Text (faiss_store st) tv (image_id image) Hok)
    as (Hok1 & Hd1 & Hg1 & Hr1 & Hs1).
  destruct (add_vector disk Text (faiss_store st) tv (image_id image))
    as [store1 text_id] eqn:Ha1. cbn [fst snd] in *.
  change (add_image_vector disk ?s ?v ?i) with (add_vector disk Image s v i).
  destruct (add_vector_summary disk Image store1 iv (image_id image) Hok1)
    as (Hok2 & Hd2 & Hg2 & Hr2 & Hs2).
  destruct (add_vector disk Image store1 iv (image_id image))
    as [store2 image_id'] eqn:Ha2. cbn [fst snd] in *.
  assert (Hgrow : forall k id v, image_id_to_vector k (faiss_store st) !! id = Some v ->
                                 image_id_to_vector k store2 !! id = Some v).
  { intros k id v Hv. by apply Hg2, Hg1. }
  assert (Hc2 : consistent (images_table st) store2) by (by eapply consistent_grow).
  assert (Hdim : _dimension store2 = _dimension (faiss_store st)) by congruence.
  assert (Hadds : embeddable (_dimension (faiss_store st)) image ->
                  is_Some text_id /\ is_Some image_id').
  { intros (_ & _ & tv' & iv' & ? & ? & Hlt & Hli & Hne). simplify_eq. split.
    - apply Hs1; [done | by intros ->].
    - apply Hs2; [congruence | by intros ->]. }
  destruct text_id as [t |], image_id' as [i |];
    cbn [faiss_store images_table embedded].
  - destruct (has_both_ids_update (now image) (images_table st) (image_id image)
                                  (image_id image) t i) as (_ & Hnew & _).
    split; [done |]. split.
    { apply consistent_update; [done | | by apply Hr2].
      apply (Hg2 Text). by apply Hr1. }
    split; [done |]. split.
    { intros id. apply has_both_ids_update. }
    split.
    { intros id. apply has_both_ids_update. }
    split; [lia |]. intros _. exact Hnew.
  - unchanged_state. intros Hemb. destruct (Hadds Hemb) as [_ [? ?]]. done.
  - unchanged_state. intros Hemb. destruct (Hadds Hemb) as [[? ?] _]. done.
  - unchanged_state. intros Hemb. destruct (Hadds Hemb) as [[? ?] _]. done.
Qed.

Lemma embed_run_loop disk (images : list image_item) :
  forall st,
    store_ok (faiss_store st) ->
    consistent (images_table st) (faiss_store st) ->
    store_ok (faiss_store (run_loop disk st images)) /\
    consistent (images_table (run_loop disk st images))
               (faiss_store (run_loop disk st images)) /\
    _dimension (faiss_store (run_loop disk st images)) = _dimension (faiss_store st) /\
    (forall id, is_Some (images_table (run_loop disk st images) !! id)
                <-> is_Some (images_table st !! id)) /\
    (forall id, has_both_ids (images_table st) id ->
                has_both_ids (images_table (run_loop disk st images)) id) /\
    embedded st <= embedded (run_loop disk st images)
    <= embedded st + Z.of_nat (length images) /\
    (forall image, In image images ->
                   embeddable (_dimension (faiss_store st)) image ->
                   is_Some (images_table st !! image_id image) ->
                   has_both_ids (images_table (run_loop disk st images)) (image_id image)).
Proof.
  unfold run_loop.
  induction images as [| image images IH]; intros st Hok Hc; cbn [fold_left length].
  { unchanged_state. by intros image []. }
  destruct (embed_loop_body disk st image Hok Hc)
    as (Hok1 & Hc1 & Hd1 & Hdom1 & Hboth1 & He1 & Hnew1).
  destruct (IH _ Hok1 Hc1) as (Hok2 & Hc2 & Hd2 & Hdom2 & Hboth2 & He2 & Hnew2).
  split; [done |]. split; [done |]. split; [congruence |].
  split; [intros id; by rewrite Hdom2 |].
  split; [intros id Hid; by apply Hboth2, Hboth1 |].
  split; [lia |].
  intros image' [<- | Hin] Hemb Hrow.
  - by apply Hboth2, Hnew1.
  - apply Hnew2; [done | by rewrite Hd1 | by apply Hdom1].
Qed.

(** X15.  A run of the embedding pipeline from files that load into a dense
    store, with a table whose vector ids are those of the store: the job
    completes; the store stays dense, and the vector ids of every row stay
    those the store holds for the row's identity; no row is added or
    removed; at most one image is counted per entry; when there was an
    image to embed the files written hold the final store, so that the
    next load gives it back; and every image with a caption, loaded bytes
    and two embeddings of the store's dimension that has a row ends with
    both vector ids in its row, each resolving to its identity. *)
Theorem embedding_pipeline_consistent disk store0 store table (images : list image_item) :
  load_indices disk store0 = (store, true) ->
  store_ok store ->
  consistent table store ->
  let r := run_embedding_pipeline disk store0 table true images in
  job_status r = COMPLETED /\
  store_ok (store_after r) /\
  consistent (table_after r) (store_after r) /\
  (forall id, is_Some (table_after r !! id) <-> is_Some (table !! id)) /\
  0 <= job_embedded r <= Z.of_nat (length images) /\
  (images <> [] ->
   holds (disk_after r) (store_after r) /\
   forall self0, _dimension self0 = _dimension store ->
                 load_indices (disk_after r) self0 = (store_after r, true)) /\
  (forall image, In image images ->
     embeddable (_dimension store) image ->
     is_Some (table !! image_id image) ->
     exists row t i,
       table_after r !! image_id image = Some row /\
       text_vector_id row = Some t /\ image_vector_id row = Some i /\
       get_image_id_from_text_vector (store_after r) t = Some (image_id image) /\
       get_image_id_from_image_vector (store_after r) i = Some (image_id image)).
Proof.
  intros Hload Hok Hc r. subst r. unfold run_embedding_pipeline.
  cbn [negb]. rewrite Hload. cbn [negb].
  pose proof (load_true_importable _ _ _ Hload) as Hf.
  destruct images as [| image images].
  { cbn. split; [done |]. split; [done |]. split; [done |]. split; [done |].
    split; [lia |]. split; [done |]. by intros image' []. }
  set (st0 := {| faiss_store := store; images_table := table; embedded := 0; errors := [] |}).
  destruct (embed_run_loop disk (image :: images) st0 Hok Hc)
    as (Hok' & Hc' & Hd' & Hdom' & _ & He' & Hnew').
  set (st := run_loop disk st0 (image :: images)) in *.
  cbn [disk_after store_after table_after job_status job_embedded].
  cbn [faiss_store images_table embedded st0] in *.
  split; [done |]. split; [done |]. split; [done |]. split; [done |].
  split; [done |].
  destruct (save_indices_holds disk (faiss_store st) Hf Hok') as [_ Hholds].
  split.
  { intros _. split; [done |]. intros self0 Hdim.
    apply load_indices_holds; [done | by destruct Hok' | by apply store_ok_mappings_inverse |].
    congruence. }
  intros image' Hin Hemb Hrow.
  destruct (Hnew' image' Hin Hemb Hrow) as (row & t & i & Hr & Ht & Hi).
  exists row, t, i. split; [done |]. split; [done |]. split; [done |].
  destruct (Hc' _ _ Hr) as [Hct Hci].
  destruct Hok' as (_ & (ti & _ & _ & _ & _ & Hbt) & (ii & _ & _ & _ & _ & Hbi)).
  split.
  - apply Hbt. by apply Hct.
  - apply Hbi. by apply Hci.
Qed.

End EmbeddingFacts.

(** ** What a run of adds leaves in the store *)

Section MembersFacts.
Import FaissStore.
Context {F : Type}.
Implicit Types (disk : Disk F) (self : FAISSStore F) (k : kind).

Lemma add_vector_members disk k k' self (vector : list F) (id id' : string) :
  store_ok self -> length vector = _dimension self -> vector <> [] ->
  is_Some (image_id_to_vector k' (fst (add_vector disk k self vector id)) !! id') <->
  is_Some (image_id_to_vector k' self !! id') \/ (k' = k /\ id' = id).
Proof.
  intros Hok Hlen Hne. pose proof Hok as (Hl & _).
  destruct (add_vector_cases disk k self vector id Hl)
    as [(vector_id & Hadd & Hin) | [Hadd | (index & Hidx & Hnew & Hadd)]].
  - rewrite Hadd. cbn [fst]. split; [by left |].
    intros [H | [-> ->]]; [done | by eexists].
  - exfalso. destruct (image_id_to_vector k self !! id) as [v |] eqn:Hin.
    { rewrite (add_vector_existing disk k self vector id v Hl Hin) in Hadd. congruence. }
    destruct Hok as (_ & Ht & Hi).
    assert (Hd : dense k self) by (by destruct k).
    destruct Hd as (index & Hidx & Hd & _).
    rewrite (add_vector_fresh disk k self vector id index Hl Hin Hidx) in Hadd;
      [congruence | congruence | done].
  - rewrite Hadd. cbn [fst].
    destruct k, k'; cbn [appended image_id_to_vector _image_id_to_text_vector
                                  _image_id_to_image_vector];
      try (split; [by left | by intros [H | [? _]]]);
      (destruct (decide (id = id')) as [<- | Hdiff];
       [rewrite lookup_insert_eq; split; [by right | by eexists]
       | rewrite lookup_insert_ne by done;
         split; [by left | intros [H | [_ ?]]; [done | congruence]]]).
Qed.

Lemma run_adds_members_kind disk (calls : list call) k (id : string) :
  forall self,
    store_ok self ->
    Forall (fun c : call => length (snd (fst c)) = _dimension self /\ snd (fst c) <> []) calls ->
    is_Some (image_id_to_vector k (run_adds disk calls self) !! id) <->
    is_Some (image_id_to_vector k self !! id) \/ exists vector, In (k, vector, id) calls.
Proof.
  induction calls as [| [[k0 v0] id0] calls IH]; intros self Hok Hall.
  - cbn. split; [by left | by intros [H | [_ []]]].
  - apply Forall_cons in Hall as [[Hlen Hne] Hall]. cbn [fst snd] in Hlen, Hne.
    change (run_adds disk ((k0, v0, id0) :: calls) self)
      with (run_adds disk calls (fst (add_vector disk k0 self v0 id0))).
    rewrite IH; [| by apply store_ok_add |].
    2:{ eapply Forall_impl; [exact Hall |]. intros c [H1 H2].
        by rewrite add_vector_dimension. }
    rewrite (add_vector_members disk k0 k self v0 id0 id Hok Hlen Hne).
    split.
    + intros [[H | [-> ->]] | [v Hv]].
      * by left.
      * right. exists v0. by left.
      * right. exists v. by right.
    + intros [H | [v [Hv | Hv]]].
      * left. by left.
      * left. right. by simplify_eq.
      * right. by exists v.
Qed.

(** X7.  After a run of adds with vectors of the store's dimension,
    [has_vectors_for_image] answers for an identity and a kind exactly
    when it did before the run or a call of the run added that kind for
    that identity: nothing is dropped and nothing else appears. *)
Theorem run_adds_members disk (calls : list call) self (id : string) :
  store_ok self ->
  Forall (fun c : call => length (snd (fst c)) = _dimension self /\ snd (fst c) <> []) calls ->
  (fst (has_vectors_for_image (run_adds disk calls self) id) = true <->
   fst (has_vectors_for_image self id) = true \/ exists vector, In (Text, vector, id) calls) /\
  (snd (has_vectors_for_image (run_adds disk calls self) id) = true <->
   snd (has_vectors_for_image self id) = true \/ exists vector, In (Image, vector, id) calls).
Proof.
  intros Hok Hall. unfold has_vectors_for_image. cbn [fst snd].
  rewrite !bool_decide_eq_true. split.
  - apply (run_adds_members_kind disk calls Text id self Hok Hall).
  - apply (run_adds_members_kind disk calls Image id self Hok Hall).
Qed.

End MembersFacts.

(** ** Finding what was added *)

Section FindFacts.
Import FaissStore.
Implicit Types (disk : Disk Q) (self : FAISSStore Q) (k : kind).

Lemma search_index_all (index : Index Q) (query : list Q) (n i : nat) row :
  query <> [] -> length query = d index ->
  (length (xb index) <= n)%nat ->
  xb index !! i = Some row ->
  exists results,
    search_index (Some index) query n = Return results /\
    In {| vector_id := Z.of_nat i; score := inner_product query row |} results.
Proof.
  intros Hq Hlen Hn Hrow. eexists. split; [by apply search_index_hits |].
  rewrite Nat.min_r by done.
  rewrite firstn_all2.
  2:{ rewrite (Permutation_length (sort_desc_perm _ _)), length_imap. done. }
  apply in_map_iff. exists (inner_product query row, Z.of_nat i). split; [done |].
  apply (Permutation_in _ (Permutation_sym (sort_desc_perm _ _))).
  apply index_hits_lookup. by exists i, row.
Qed.

(** X10.  What was added can be found: after a vector is added for an identity
    that had none of that kind, a search of that kind for as many results
    as the index holds returns a result that resolves to the identity and
    whose score is the inner product of the query with the added
    vector. *)
Theorem search_finds_added disk k self (vector query : list Q) (id : string) (n : nat) :
  store_ok self ->
  image_id_to_vector k self !! id = None ->
  length vector = _dimension self -> vector <> [] ->
  length query = _dimension self ->
  let self' := fst (add_vector disk k self vector id) in
  vector_count k self' <= Z.of_nat n ->
  exists results r,
    match k with Text => search_text | Image => search_image end disk self' query n
    = (self', Return results) /\
    In r results /\
    id_to_image_id k self' !! vector_id r = Some id /\
    score r = inner_product query vector.
Proof.
  intros Hok Hnew Hlen Hne Hq self' Hn. subst self'.
  pose proof Hok as (Hl & Ht & Hi).
  assert (Hd : dense k self) by (by destruct k).
  destruct Hd as (index & Hidx & Hd & _).
  assert (Hlen' : length vector = d index) by congruence.
  rewrite (add_vector_fresh disk k self vector id index Hl Hnew Hidx Hlen' Hne) in *.
  cbn [fst] in *.
  set (index' := {| d := d index; xb := xb index ++ [vector] |}) in *.
  set (self' := appended k self index' id (ntotal index)) in *.
  assert (Hl' : _is_loaded self' = true) by (subst self'; by rewrite appended_loaded).
  assert (Hidx' : index_of k self' = Some index') by apply appended_index.
  rewrite (vector_count_loaded k self' index' Hl' Hidx') in Hn.
  assert (Hqne : query <> []).
  { intros ->. destruct vector; [done |]. cbn in *. congruence. }
  destruct (search_index_all index' query n (length (xb index)) vector Hqne)
    as (results & Hs & Hin).
  { cbn. congruence. }
  { unfold ntotal in Hn. lia. }
  { subst index'. cbn. by apply list_lookup_middle. }
  exists results, {| vector_id := Z.of_nat (length (xb index));
                     score := inner_product query vector |}.
  split.
  { destruct k; cbn [index_of] in Hidx';
      [unfold search_text | unfold search_image];
      rewrite (ensure_loaded_loaded _ _ Hl'); cbn [negb]; by rewrite Hidx', Hs. }
  split; [done |]. split; [| done].
  cbn [vector_id]. apply appended_forward.
Qed.

End FindFacts.

(** ** The properties on sample stores *)

Section SampleRuns.
Import FaissStore Persist Indexer Embeddings Samples.

Lemma fresh_store_ok (dimension : nat) : store_ok (fresh_store dimension).
Proof. by apply (store_ok_created disk_empty (init dimension)). Qed.

Lemma ab_store_ok : store_ok ab_store.
Proof. apply store_ok_run_adds, fresh_store_ok. Qed.

Lemma sunset_consistent : consistent sunset_table (fresh_store 2).
Proof.
  intros id row Hrow. unfold sunset_table in Hrow.
  apply lookup_singleton_Some in Hrow as [_ <-].
  split; intros v Hv; discriminate.
Qed.

Lemma save_then_load_witness :
  snd (save_indices disk_empty ab_store) = true /\
  holds (fst (save_indices disk_empty ab_store)) ab_store /\
  (forall disk' self0,
      holds disk' ab_store -> _dimension self0 = _dimension ab_store ->
      load_indices disk' self0 = (ab_store, true)).
Proof.
  eapply (save_then_load disk_empty ab_store);
    [reflexivity | reflexivity | reflexivity | reflexivity
     | apply store_ok_mappings_inverse, ab_store_ok].
Defined.

Lemma add_vector_resolves_witness :
  store_ok (fresh_store 2) /\
  let self' := fst (add_vector disk_empty Text (fresh_store 2) [1%Q; 0%Q] "a") in
  match snd (add_vector disk_empty Text (fresh_store 2) [1%Q; 0%Q] "a") with
  | Some vector_id =>
      id_to_image_id Text self' !! vector_id = Some "a"%string /\
      image_id_to_vector Text self' !! "a"%string = Some vector_id /\
      0 <= vector_id < vector_count Text self' /\
      fst (has_vectors_for_image self' "a") = true
  | None => self' = fresh_store 2
  end.
Proof.
  split; [apply fresh_store_ok |].
  apply (add_vector_resolves disk_empty Text (fresh_store 2) [1%Q; 0%Q] "a").
  apply fresh_store_ok.
Defined.

Lemma add_after_mismatch_witness :
  snd (add_vector disk_stale Text stale_store [1%Q] "new") = Some 0 /\
  image_id_to_vector Text (fst (add_vector disk_stale Text stale_store [1%Q] "new"))
    !! "old"%string = Some 0 /\
  image_id_to_vector Text (fst (add_vector disk_stale Text stale_store [1%Q] "new"))
    !! "new"%string = Some 0.
Proof.
  destruct (add_after_mismatch disk_stale Text stale_store {| d := 1; xb := [] |}
                               [1%Q] "old" "new")
    as (H1 & H2 & H3 & _);
    [reflexivity | reflexivity | reflexivity | reflexivity | reflexivity | reflexivity
     | discriminate |].
  exact (conj H1 (conj H2 H3)).
Defined.

Lemma add_kinds_commute_witness :
  snd (add_image_vector disk_empty
         (fst (add_text_vector disk_empty (fresh_store 2) [1%Q; 0%Q] "a")) [0%Q; 1%Q] "b")
  = snd (add_image_vector disk_empty (fresh_store 2) [0%Q; 1%Q] "b") /\
  snd (add_text_vector disk_empty
         (fst (add_image_vector disk_empty (fresh_store 2) [0%Q; 1%Q] "b")) [1%Q; 0%Q] "a")
  = snd (add_text_vector disk_empty (fresh_store 2) [1%Q; 0%Q] "a") /\
  fst (add_image_vector disk_empty
         (fst (add_text_vector disk_empty (fresh_store 2) [1%Q; 0%Q] "a")) [0%Q; 1%Q] "b")
  = fst (add_text_vector disk_empty
           (fst (add_image_vector disk_empty (fresh_store 2) [0%Q; 1%Q] "b")) [1%Q; 0%Q] "a").
Proof.
  apply (add_kinds_commute disk_empty (fresh_store 2) [1%Q; 0%Q] [0%Q; 1%Q] "a" "b").
  reflexivity.
Defined.

Lemma load_indices_forgets_witness :
  load_indices disk_empty ab_store = load_indices disk_empty (fresh_store 1) /\
  (forall calls : list call,
      load_indices disk_empty (run_adds disk_empty calls ab_store)
      = load_indices disk_empty ab_store).
Proof.
  apply (load_indices_forgets disk_empty ab_store (fresh_store 1));
    [reflexivity | right; left; discriminate | reflexivity].
Defined.

Lemma search_index_topk_witness :
  exists results,
    search_index (Some three_rows) [2%Q; 1%Q] 2 = Return results /\
    length results = Nat.min 2 (length (xb three_rows)).
Proof.
  destruct (search_index_topk three_rows [2%Q; 1%Q] 2)
    as (results & H1 & _ & H2 & _); [discriminate | reflexivity |].
  exists results. exact (conj H1 H2).
Defined.

Lemma search_wrong_dimension_witness :
  hybrid_search disk_empty ab_store [1%Q; 0%Q] 5 0.7 0.3 = (ab_store, Return []).
Proof.
  destruct (search_wrong_dimension disk_empty ab_store
                                   {| d := 1; xb := [[0.90%Q]; [0.95%Q]] |}
                                   {| d := 1; xb := [[0.50%Q]] |}
                                   [1%Q; 0%Q] 5%nat 0.7%Q 0.3%Q)
    as (_ & _ & H);
    [reflexivity | reflexivity | reflexivity | discriminate | discriminate |].
  exact H.
Defined.

Lemma search_finds_added_witness :
  exists results r,
    search_text disk_empty (fst (add_vector disk_empty Text (fresh_store 2) [1%Q; 0%Q] "a"))
                [1%Q; 1%Q] 5
    = (fst (add_vector disk_empty Text (fresh_store 2) [1%Q; 0%Q] "a"), Return results) /\
    In r results /\
    id_to_image_id Text (fst (add_vector disk_empty Text (fresh_store 2) [1%Q; 0%Q] "a"))
      !! vector_id r = Some "a"%string /\
    score r = inner_product [1%Q; 1%Q] [1%Q; 0%Q].
Proof.
  apply (search_finds_added disk_empty Text (fresh_store 2) [1%Q; 0%Q] [1%Q; 1%Q] "a" 5);
    [apply fresh_store_ok | reflexivity | reflexivity | discriminate | reflexivity
     | vm_compute; discriminate].
Defined.

Lemma run_adds_members_witness :
  (fst (has_vectors_for_image (run_adds disk_empty three_calls (fresh_store 2)) "b") = true <->
   fst (has_vectors_for_image (fresh_store 2) "b") = true \/
   exists vector, In (Text, vector, "b"%string) three_calls) /\
  (snd (has_vectors_for_image (run_adds disk_empty three_calls (fresh_store 2)) "b") = true <->
   snd (has_vectors_for_image (fresh_store 2) "b") = true \/
   exists vector, In (Image, vector, "b"%string) three_calls).
Proof.
  apply (run_adds_members disk_empty three_calls (fresh_store 2) "b");
    [apply fresh_store_ok |].
  repeat (constructor; [split; [reflexivity | discriminate] |]). constructor.
Defined.

Lemma embedding_pipeline_consistent_witness :
  job_status (run_embedding_pipeline disk_empty (init 2) sunset_table true [sunset_item])
  = COMPLETED /\
  exists row t i,
    table_after (run_embedding_pipeline disk_empty (init 2) sunset_table true [sunset_item])
      !! "sunset"%string = Some row /\
    text_vector_id row = Some t /\ image_vector_id row = Some i.
Proof.
  destruct (embedding_pipeline_consistent disk_empty (init 2) (fresh_store 2) sunset_table
                                          [sunset_item])
    as (H1 & _ & _ & _ & _ & _ & H2);
    [reflexivity | apply fresh_store_ok | apply sunset_consistent |].
  split; [exact H1 |].
  destruct (H2 sunset_item) as (row & t & i & Hr & Ht & Hi & _).
  - left. reflexivity.
  - split; [reflexivity |]. split; [reflexivity |].
    exists [1%Q; 0%Q], [0%Q; 1%Q]. repeat split; discriminate.
  - eexists. reflexivity.
  - exists row, t, i. exact (conj Hr (conj Ht Hi)).
Defined.

End SampleRuns.

(** ** The search endpoint *)

Section QueryFacts.
Import FaissStore Persist Indexer Query Samples.
Implicit Types (disk : Disk Q) (store : FAISSStore Q) (table : gmap string Row).

Lemma load_indices_true disk store store' :
  load_indices disk store = (store', true) ->
  _is_loaded store' = true /\
  exists ti ii, _text_index store' = Some ti /\ _image_index store' = Some ii.
Proof.
  unfold load_indices, create_indices.
  destruct (faiss_importable disk); cbn [negb]; [| by intros [= _ ?]].
  destruct (negb (exists_ (text_path disk)) || negb (exists_ (image_path disk))).
  { intros [= <-]. cbn. by eauto. }
  unfold load_body.
  destruct (text_path disk) as [| | ti]; try (intros [= <-]; cbn; by eauto).
  destruct (image_path disk) as [| | ii]; try (intros [= <-]; cbn; by eauto).
  destruct (mapping_path disk) as [| | mappings]; try (intros [= <-]; cbn; by eauto).
  destruct (forward_items (text_to_image mappings)); [| intros [= <-]; cbn; by eauto].
  destruct (forward_items (image_to_image mappings)); intros [= <-]; cbn; by eauto.
Qed.

Lemma load_indices_false disk store store' :
  load_indices disk store = (store', false) -> store' = store /\ faiss_importable disk = false.
Proof.
  unfold load_indices, create_indices.
  destruct (faiss_importable disk); cbn [negb]; [| by intros [= <-]].
  destruct (negb (exists_ (text_path disk)) || negb (exists_ (image_path disk)));
    [discriminate |].
  destruct (load_body disk store) as [s ok]. by destruct ok.
Qed.

Lemma search_text_loaded disk store ti query (n : nat) :
  _is_loaded store = true -> _text_index store = Some ti ->
  exists results, search_text disk store query n = (store, Return results).
Proof.
  intros Hl Hti. destruct (search_index_returns ti query n) as [results Hr].
  exists results. unfold search_text. rewrite (ensure_loaded_loaded _ _ Hl). cbn.
  by rewrite Hti, Hr.
Qed.

Lemma search_image_loaded disk store ii query (n : nat) :
  _is_loaded store = true -> _image_index store = Some ii ->
  exists results, search_image disk store query n = (store, Return results).
Proof.
  intros Hl Hii. destruct (search_index_returns ii query n) as [results Hr].
  exists results. unfold search_image. rewrite (ensure_loaded_loaded _ _ Hl). cbn.
  by rewrite Hii, Hr.
Qed.

Lemma hybrid_search_loaded disk store ti ii query (k : nat) (tw iw : Q) :
  _is_loaded store = true -> _text_index store = Some ti -> _image_index store = Some ii ->
  exists text_results image_results,
    hybrid_search disk store query k tw iw
    = (store, Return (take k (sort_desc snd
                                (combined store text_results image_results tw iw)))).
Proof.
  intros Hl Hti Hii.
  destruct (search_text_loaded disk store ti query (k * 3) Hl Hti) as [tr Ht].
  destruct (search_image_loaded disk store ii query (k * 3) Hl Hii) as [ir Hi].
  exists tr, ir. unfold hybrid_search. by rewrite Ht, Hi.
Qed.

Lemma hybrid_search_unloaded disk store query (k : nat) (tw iw : Q) :
  _is_loaded store = false ->
  fst (hybrid_search disk store query k tw iw) = fst (load_indices disk store).
Proof.
  intros Hl. destruct (load_indices disk store) as [store' ok] eqn:Hload.
  assert (Hst : search_text disk store query (k * 3)
                = if ok then (store', search_index (_text_index store') query (k * 3))
                  else (store', Return [])).
  { unfold search_text, _ensure_loaded. rewrite Hl. cbn [negb]. rewrite Hload.
    by destruct ok. }
  unfold hybrid_search. rewrite Hst. destruct ok; cbn [fst].
  - destruct (load_indices_true _ _ _ Hload) as (Hl' & ti & ii & Hti & Hii).
    rewrite Hti. destruct (search_index_returns ti query (k * 3)) as [tr ->].
    destruct (search_image_loaded disk store' ii query (k * 3) Hl' Hii) as [ir ->].
    done.
  - destruct (load_indices_false _ _ _ Hload) as [-> Hf].
    assert (Hsi : search_image disk store query (k * 3) = (store, Return [])).
    { unfold search_image, _ensure_loaded. rewrite Hl. cbn [negb]. by rewrite Hload. }
    by rewrite Hsi.
Qed.

(** X17.  The search endpoint reads the vector counts before anything has
    loaded the store, and a store that is not loaded reports zero: on such
    a store the endpoint answers with no results and leaves the store as
    it is, whatever the index files hold, while [hybrid_search] called on
    the same store would have loaded them. *)
Theorem search_images_before_load disk store table (embed_result : option (list Q))
        (top_k : nat) :
  _is_loaded store = false ->
  search_images disk store table embed_result top_k = (store, QueryResponse [] 0) /\
  get_text_vector_count store = 0 /\ get_image_vector_count store = 0 /\
  (forall query (tw iw : Q),
      fst (hybrid_search disk store query top_k tw iw) = fst (load_indices disk store)).
Proof.
  intros Hl.
  assert (Ht : get_text_vector_count store = 0)
    by (unfold get_text_vector_count; by rewrite Hl).
  assert (Hi : get_image_vector_count store = 0)
    by (unfold get_image_vector_count; by rewrite Hl).
  split; [| split; [done | split; [done |]]].
  - unfold search_images. by rewrite Ht, Hi.
  - intros query tw iw. by apply hybrid_search_unloaded.
Qed.

Lemma search_images_before_load_witness :
  search_images disk_ab (init 1) ∅ (Some ab_query) 10 = (init 1, QueryResponse [] 0) /\
  get_text_vector_count (fst (load_indices disk_ab (init 1))) = 2.
Proof.
  split; [| reflexivity].
  apply (search_images_before_load disk_ab (init 1) ∅ (Some ab_query) 10).
  reflexivity.
Defined.

Lemma omap_sorted {A B} (f : A -> option B) (R : relation A) (R' : relation B)
      (l : list A) :
  (forall x y x' y', f x = Some x' -> f y = Some y' -> R x y -> R' x' y') ->
  StronglySorted R l -> StronglySorted R' (omap f l).
Proof.
  intros Hf. induction 1 as [| x l _ IH Hall]; [constructor |].
  change (omap f (x :: l))
    with (match f x with Some y => y :: omap f l | None => omap f l end).
  destruct (f x) as [x' |] eqn:Hx; [| done].
  constructor; [done |].
  apply Forall_forall. intros y' Hy'.
  apply list_elem_of_omap in Hy' as (y & Hy & Hfy).
  rewrite Forall_forall in Hall. apply (Hf x y); [done | done | by apply Hall].
Qed.

Lemma omap_length_le {A B} (f : A -> option B) (l : list A) :
  (length (omap f l) <= length l)%nat.
Proof.
  induction l as [| x l IH]; [done |].
  change (omap f (x :: l))
    with (match f x with Some y => y :: omap f l | None => omap f l end).
  destruct (f x); cbn [length]; lia.
Qed.

Lemma image_result_Some table (hit : string * Q) (result : ImageResult) :
  image_result table hit = Some result <->
  exists row,
    table !! fst hit = Some row /\
    firebase_url row = Some (res_firebase_url result) /\
    res_firebase_url result <> ""%string /\
    result = {| res_image_id := fst hit; res_firebase_url := res_firebase_url result;
                res_original_date := original_date row; res_location := location row;
                res_caption := caption row; res_score := snd hit |}.
Proof.
  unfold image_result. split.
  - destruct (table !! fst hit) as [row |]; [| done].
    destruct (firebase_url row) as [url |] eqn:Hurl; [| done].
    destruct (truthy url) eqn:Ht; [| done]. intros [= <-]. exists row. cbn.
    rewrite Hurl. repeat split; try done. by apply truthy_nonempty.
  - intros (row & -> & -> & Hne & ->). cbn.
    by rewrite (proj2 (truthy_nonempty _) Hne).
Qed.

Lemma image_result_fields table (hit : string * Q) (result : ImageResult) :
  image_result table hit = Some result ->
  res_image_id result = fst hit /\ res_score result = snd hit.
Proof.
  intros H. apply image_result_Some in H as (row & _ & _ & _ & Heq).
  by rewrite Heq.
Qed.

(** X18.  On a loaded store that holds a vector, the endpoint answers with the
    ranking of [hybrid_search], in its order, restricted to the
    identities that have a row with a URL: at most [top_k] results, best
    first, each with the score of the ranking and the URL and caption of
    its row, and no ranked identity with such a row is left out. *)
Theorem search_images_results disk store table ti ii (query : list Q) (top_k : nat) :
  _is_loaded store = true ->
  _text_index store = Some ti -> _image_index store = Some ii ->
  0 < ntotal ti \/ 0 < ntotal ii ->
  exists ranking results,
    hybrid_search disk store query top_k default_text_weight default_image_weight
    = (store, Return ranking) /\
    search_images disk store table (Some query) top_k
    = (store, QueryResponse results (Z.of_nat (length results))) /\
    (length results <= top_k)%nat /\
    StronglySorted (desc res_score) results /\
    (forall result, In result results ->
       In (res_image_id result, res_score result) ranking /\
       exists row, table !! res_image_id result = Some row /\
                   firebase_url row = Some (res_firebase_url result) /\
                   res_firebase_url result <> ""%string /\
                   res_caption result = caption row) /\
    (forall (id : string) (s : Q) row url,
       In (id, s) ranking -> table !! id = Some row ->
       firebase_url row = Some url -> url <> ""%string ->
       exists result, In result results /\ res_image_id result = id /\
                      res_score result = s /\ res_firebase_url result = url).
Proof.
  intros Hl Hti Hii Hcount.
  destruct (hybrid_search_loaded disk store ti ii query top_k
                                 default_text_weight default_image_weight Hl Hti Hii)
    as (tr & ir & Hh).
  set (ranking := take top_k (sort_desc snd (combined store tr ir default_text_weight
                                                      default_image_weight))) in *.
  exists ranking, (omap (image_result table) ranking).
  split; [done |]. split.
  { unfold search_images, get_text_vector_count, get_image_vector_count.
    rewrite Hl, Hti, Hii. cbn [negb].
    replace ((ntotal ti =? 0) && (ntotal ii =? 0)) with false.
    2:{ symmetry. apply andb_false_iff. rewrite !Z.eqb_neq. unfold ntotal in *. lia. }
    by rewrite Hh. }
  split.
  { pose proof (omap_length_le (image_result table) ranking) as Hle.
    subst ranking. rewrite length_take in Hle. lia. }
  split.
  { apply (omap_sorted _ (desc snd)).
    - intros x y x' y' Hx Hy Hxy.
      apply image_result_fields in Hx as [_ Hx]. apply image_result_fields in Hy as [_ Hy].
      unfold desc in *. by rewrite Hx, Hy.
    - pose proof (sort_desc_sorted snd (combined store tr ir default_text_weight
                                                 default_image_weight)) as Hs.
      rewrite <- (take_drop top_k (sort_desc snd _)) in Hs.
      by apply StronglySorted_app_1_l in Hs. }
  split.
  - intros result Hin. apply list_elem_of_In, list_elem_of_omap in Hin as (hit & Hhit & Hres).
    destruct (image_result_fields _ _ _ Hres) as [Hid Hsc].
    apply image_result_Some in Hres as (row & Hrow & Hurl & Hne & Heq).
    rewrite Hid, Hsc. split.
    + apply list_elem_of_In. by destruct hit.
    + exists row. split; [done |]. split; [done |]. split; [done |]. by rewrite Heq.
  - intros id s row url Hin Hrow Hurl Hne.
    exists {| res_image_id := id; res_firebase_url := url;
              res_original_date := original_date row; res_location := location row;
              res_caption := caption row; res_score := s |}.
    split; [| done].
    apply list_elem_of_In, list_elem_of_omap. exists (id, s).
    split; [by apply list_elem_of_In |].
    apply image_result_Some. exists row. by cbn.
Qed.

Lemma search_images_results_witness :
  exists ranking results,
    hybrid_search disk_empty ab_store ab_query 10 default_text_weight default_image_weight
    = (ab_store, Return ranking) /\
    search_images disk_empty ab_store ab_table (Some ab_query) 10
    = (ab_store, QueryResponse results (Z.of_nat (length results))) /\
    (length results <= 10)%nat.
Proof.
  destruct (search_images_results disk_empty ab_store ab_table
                                  {| d := 1; xb := [[0.90%Q]; [0.95%Q]] |}
                                  {| d := 1; xb := [[0.50%Q]] |} ab_query 10)
    as (ranking & results & H1 & H2 & H3 & _);
    [reflexivity | reflexivity | reflexivity | left; reflexivity |].
  exists ranking, results. exact (conj H1 (conj H2 H3)).
Defined.

End QueryFacts.

(** ** The ids handed out by a run of adds *)

Section DensityFacts.
Import FaissStore Runs.
Context {F : Type}.
Implicit Types (disk : Disk F) (self : FAISSStore F) (k : kind).

Lemma run_adds_cons disk (c : call) (calls : list call) self :
  run_adds disk (c :: calls) self
  = run_adds disk calls (fst (add_vector disk (fst (fst c)) self (snd (fst c)) (snd c))).
Proof. reflexivity. Qed.

Lemma add_vector_range disk k0 k self (vector : list F) (id : string) (vector_id : Z) :
  store_ok self ->
  0 <= vector_id < vector_count k (fst (add_vector disk k0 self vector id)) <->
  0 <= vector_id < vector_count k self \/
  (k = k0 /\ snd (add_vector disk k0 self vector id) = Some vector_id).
Proof.
  intros Hok. pose proof Hok as (Hl & _).
  destruct (add_vector_cases disk k0 self vector id Hl)
    as [(v & Hadd & Hin) | [Hadd | (index & Hidx & Hnew & Hadd)]];
    rewrite Hadd; cbn [fst snd].
  - split; [by left |]. intros [H | [-> [= <-]]]; [done |].
    destruct (store_ok_dense k0 self Hok) as (index & Hidx & _ & Hdom & _ & Hbij).
    rewrite (vector_count_loaded k0 self index Hl Hidx). apply Hdom.
    exists id. by apply Hbij.
  - split; [by left | by intros [H | [_ ?]]].
  - assert (Hl' : _is_loaded (appended k0 self {| d := d index; xb := xb index ++ [vector] |}
                                       id (ntotal index)) = true)
      by (by rewrite appended_loaded).
    assert (Hsame : forall k1, k1 = k0 ->
               (0 <= vector_id
                < vector_count k1 (appended k0 self {| d := d index;
                                                       xb := xb index ++ [vector] |}
                                            id (ntotal index)) <->
                0 <= vector_id < vector_count k1 self \/
                (k1 = k0 /\ Some (ntotal index) = Some vector_id))).
    { intros k1 ->.
      rewrite (vector_count_loaded k0 _ _ Hl' (appended_index _ _ _ _ _)).
      rewrite (vector_count_loaded k0 self index Hl Hidx), ntotal_add.
      split.
      - intros H. destruct (decide (vector_id = ntotal index)) as [-> | Hne];
          [by right | left; lia].
      - intros [H | [_ [= <-]]]; unfold ntotal in *; lia. }
    assert (Hother : forall k1, k1 <> k0 ->
               vector_count k1 (appended k0 self {| d := d index;
                                                    xb := xb index ++ [vector] |}
                                         id (ntotal index))
               = vector_count k1 self).
    { intros k1 Hk. destruct k1, k0; try done; cbn;
        unfold get_text_vector_count, get_image_vector_count; cbn; by rewrite Hl. }
    destruct k, k0; try (by apply Hsame);
      (rewrite Hother by done; split; [by left | by intros [H | [? _]]]).
Qed.

Lemma add_vector_keeps disk k0 k self (vector : list F) (id id' : string) (v : Z) :
  _is_loaded self = true ->
  image_id_to_vector k self !! id' = Some v ->
  image_id_to_vector k (fst (add_vector disk k0 self vector id)) !! id' = Some v.
Proof.
  intros Hl Hv.
  destruct (add_vector_cases disk k0 self vector id Hl)
    as [(v0 & Hadd & Hin) | [Hadd | (index & Hidx & Hnew & Hadd)]];
    rewrite Hadd; cbn [fst]; [done | done |].
  destruct k, k0; cbn in *; try done; (rewrite lookup_insert_ne; [done | congruence]).
Qed.

Lemma run_adds_keeps disk (calls : list call) k (id : string) (v : Z) :
  forall self,
    store_ok self ->
    image_id_to_vector k self !! id = Some v ->
    image_id_to_vector k (run_adds disk calls self) !! id = Some v.
Proof.
  induction calls as [| c calls IH]; intros self Hok Hv; [done |].
  rewrite run_adds_cons. apply IH; [by apply store_ok_add |].
  apply add_vector_keeps; [by destruct Hok | done].
Qed.

Lemma returned_range disk (calls : list call) k (vector_id : Z) :
  forall self,
    store_ok self ->
    0 <= vector_id < vector_count k (run_adds disk calls self) <->
    0 <= vector_id < vector_count k self \/
    exists vector image_id, In ((k, vector, image_id), Some vector_id) (returned disk calls self).
Proof.
  induction calls as [| [[k0 v0] id0] calls IH]; intros self Hok.
  - cbn. split; [by left | by intros [H | (? & ? & [])]].
  - rewrite run_adds_cons. cbn [fst snd returned].
    rewrite IH by (by apply store_ok_add).
    rewrite (add_vector_range disk k0 k self v0 id0 vector_id Hok).
    split.
    + intros [[H | [-> Hr]] | (v & id & Hin)].
      * by left.
      * right. exists v0, id0. left. by rewrite Hr.
      * right. exists v, id. by right.
    + intros [H | (v & id & [Heq | Hin])].
      * left. by left.
      * left. right. by simplify_eq.
      * right. by exists v, id.
Qed.

Lemma returned_resolves disk (calls : list call) k (vector : list F) (id : string)
      (vector_id : Z) :
  forall self,
    store_ok self ->
    In ((k, vector, id), Some vector_id) (returned disk calls self) ->
    image_id_to_vector k (run_adds disk calls self) !! id = Some vector_id.
Proof.
  induction calls as [| [[k0 v0] id0] calls IH]; intros self Hok Hin; [done |].
  rewrite run_adds_cons. cbn [fst snd returned] in *.
  destruct Hin as [Heq | Hin]; [| by apply IH; [apply store_ok_add |]].
  simplify_eq. apply run_adds_keeps; [by apply store_ok_add |].
  destruct (add_vector disk k self vector id) as [self1 r] eqn:Hadd. cbn [fst snd] in *.
  subst r. by destruct (add_vector_returned _ _ _ _ _ _ _ Hadd).
Qed.

(** C3.  After any sequence of [add_vector] calls on freshly created
    indices, for each kind: the vector ids that the calls of the kind
    returned are exactly [0 .. M-1], with [M] the vector count of the
    kind, which is the row count of its index; each returned id resolves
    to the identity of its call; the ids in the mapping are the same
    [0 .. M-1] and the mapping has [M] entries; an identity has at most one
    vector id, and the two mappings of the kind are inverse to each
    other. *)
Theorem vector_ids_dense disk self0 self (calls : list call) k :
  create_indices disk self0 = (self, true) ->
  let self' := run_adds disk calls self in
  exists index,
    index_of k self' = Some index /\
    vector_count k self' = ntotal index /\
    (forall vector_id : Z,
        (exists vector image_id,
            In ((k, vector, image_id), Some vector_id) (returned disk calls self))
        <-> 0 <= vector_id < vector_count k self') /\
    (forall vector image_id (vector_id : Z),
        In ((k, vector, image_id), Some vector_id) (returned disk calls self) ->
        id_to_image_id k self' !! vector_id = Some image_id) /\
    (forall vector_id : Z,
        is_Some (id_to_image_id k self' !! vector_id)
        <-> 0 <= vector_id < vector_count k self') /\
    Z.of_nat (size (id_to_image_id k self')) = ntotal index /\
    (forall (v1 v2 : Z) image_id,
        id_to_image_id k self' !! v1 = Some image_id ->
        id_to_image_id k self' !! v2 = Some image_id -> v1 = v2) /\
    (forall (vector_id : Z) image_id,
        id_to_image_id k self' !! vector_id = Some image_id
        <-> image_id_to_vector k self' !! image_id = Some vector_id).
Proof.
  intros Hc self'.
  assert (Hok0 : store_ok self) by (by eapply store_ok_created).
  assert (Hok : store_ok self') by (by apply store_ok_run_adds).
  pose proof Hok as (Hl & _).
  destruct (store_ok_dense k self' Hok) as (index & Hidx & _ & Hdom & Hsize & Hbij).
  pose proof (vector_count_loaded k self' index Hl Hidx) as Hcount.
  assert (Hzero : vector_count k self = 0).
  { unfold create_indices in Hc. destruct (faiss_importable disk); [| discriminate].
    injection Hc as <-. by destruct k. }
  exists index. split; [done |]. split; [done |].
  split; [| split; [| split; [| split; [| split]]]].
  - intros vector_id. subst self'.
    rewrite (returned_range disk calls k vector_id self Hok0), Hzero.
    split; [by right | intros [H | H]; [lia | done]].
  - intros vector image_id vector_id Hin. apply Hbij.
    by apply (returned_resolves disk calls k vector).
  - intros vector_id. rewrite Hcount. apply Hdom.
  - by rewrite Hsize.
  - intros v1 v2 image_id H1 H2. apply Hbij in H1, H2. congruence.
  - apply Hbij.
Qed.

End DensityFacts.

Section DensityRun.
Import FaissStore Runs.

Lemma vector_ids_dense_witness :
  create_indices disk_empty (init 2) = (fresh_store 2, true) /\
  map snd (returned disk_empty three_calls (fresh_store 2)) = [Some 0; Some 0; Some 1] /\
  exists index,
    index_of Text (run_adds disk_empty three_calls (fresh_store 2)) = Some index /\
    vector_count Text (run_adds disk_empty three_calls (fresh_store 2)) = ntotal index /\
    (forall vector_id : Z,
        (exists vector image_id,
            In ((Text, vector, image_id), Some vector_id)
               (returned disk_empty three_calls (fresh_store 2)))
        <-> 0 <= vector_id
            < vector_count Text (run_adds disk_empty three_calls (fresh_store 2))).
Proof.
  split; [reflexivity |]. split; [reflexivity |].
  destruct (vector_ids_dense disk_empty (init 2) (fresh_store 2) three_calls Text eq_refl)
    as (index & Hidx & Hcount & Hids & _).
  exists index. exact (conj Hidx (conj Hcount Hids)).
Defined.

End DensityRun.
